(** * Anti-Phishing Shield: governance contracts and event indexer

    A shallow embedding of [ProposalVoting.sol], [BlacklistRegistry.sol] and
    of the event handlers of [blockchainIndexer.js], with the properties of
    the proposal life cycle proved about them.

    Conventions.
    - [uint256] and [address] values are integers in [Z]; Solidity 0.8
      arithmetic is checked, so an operation that leaves the range fails with
      [Panic 17] instead of wrapping.
    - A [mapping] is a finite map read with a default (the zero value).
    - A contract function is a computation in the monad [M S]: it reads and
      writes the storage [S], may fail (a failed call leaves no trace, see
      [transact]) and returns the events it emitted. *)

From Stdlib Require Import ZArith Ascii String Lia Sorted.
From stdpp Require Import gmap strings list fin_maps sorting.

Local Open Scope string_scope.
Local Open Scope list_scope.
Local Open Scope Z_scope.

(** ** Machine model *)

Definition MAX_UINT256 : Z := 2 ^ 256 - 1.
Definition ADDRESS_LIMIT : Z := 2 ^ 160.

Definition is_uint256 (z : Z) : Prop := 0 <= z <= MAX_UINT256.
Definition is_address (a : Z) : Prop := 0 <= a < ADDRESS_LIMIT.

(** [Revert] carries the reason string of a failed [require]; [Panic 17] is
    arithmetic overflow or underflow, [Panic 18] division by zero, [Panic 50]
    an array index out of bounds; [NoContractCode] is a high-level call to an
    address that holds no contract. *)
Inductive failure : Type :=
| Revert (reason : string)
| Panic (code : Z)
| NoContractCode.

Inductive result (A : Type) : Type :=
| Ok (a : A)
| Fail (f : failure).
Arguments Ok {A} a.
Arguments Fail {A} f.

Definition is_ok {A} (r : result A) : bool :=
  match r with Ok _ => true | Fail _ => false end.

(** The message sender and the block timestamp of a call. *)
Record Env : Type := { msg_sender : Z; block_timestamp : Z }.

(** *** Storage types shared by the two contracts and their events *)

Inductive EntryType : Type := URL | Address.

Inductive ProposalType : Type := AddURL | AddAddress | RemoveURL | RemoveAddress.

Inductive ProposalStatus : Type := Active | Approved | Rejected | Executed.

Global Instance EntryType_eq_dec : EqDecision EntryType.
Proof. solve_decision. Defined.
Global Instance ProposalType_eq_dec : EqDecision ProposalType.
Proof. solve_decision. Defined.
Global Instance ProposalStatus_eq_dec : EqDecision ProposalStatus.
Proof. solve_decision. Defined.

Inductive Event : Type :=
| EntryAdded (_type : EntryType) (_value : string) (_address : Z)
    (_timestamp : Z) (_proposer : Z)
| EntryRemoved (_type : EntryType) (_value : string) (_address : Z)
    (_timestamp : Z) (_remover : Z)
| ProposalVotingContractUpdated (_oldContract _newContract _timestamp : Z)
| RegistryOwnershipTransferred (_previousOwner _newOwner : Z)
| ProposalCreated (proposalId : Z) (_type : ProposalType) (_url : string)
    (_address : Z) (_description : string) (_proposer : Z)
    (_creationTimestamp _votingPeriodEnd : Z)
| VoteCast (proposalId : Z) (voter : Z) (_support : bool) (_yesVotes _noVotes : Z)
| ProposalStatusUpdated (proposalId : Z) (_oldStatus _newStatus : ProposalStatus)
| ProposalExecuted (proposalId : Z) (_type : ProposalType) (_url : string)
    (_address : Z) (executor : Z)
| VotingParametersUpdated (_minVotingPeriod _minVotesForApproval
    _approvalMajorityPercentage : Z)
| BlacklistRegistryUpdated (_oldAddress _newAddress : Z)
| OwnershipTransferred (_previousOwner _newOwner : Z)
| MinProposerTokenHoldingsUpdated (_oldAmount _newAmount : Z).

(** *** The contract monad *)

Definition M (S A : Type) : Type := S -> result (A * S * list Event).

Definition ret {S A} (a : A) : M S A := fun s => Ok (a, s, []).

Definition bind {S A B} (c : M S A) (k : A -> M S B) : M S B :=
  fun s =>
    match c s with
    | Fail f => Fail f
    | Ok (a, s1, ev1) =>
        match k a s1 with
        | Fail f => Fail f
        | Ok (b, s2, ev2) => Ok (b, s2, ev1 ++ ev2)
        end
    end.

Notation "'let!' x ':=' c 'in' k" := (bind c (fun x => k))
  (at level 10, x name, c at level 100, k at level 200).
Notation "c ';;;' k" := (bind c (fun _ => k))
  (at level 100, k at level 200, right associativity).

Definition get {S} : M S S := fun s => Ok (s, s, []).
Definition modify {S} (f : S -> S) : M S unit := fun s => Ok (tt, f s, []).
Definition fail {S A} (f : failure) : M S A := fun _ => Fail f.
Definition emit {S} (e : Event) : M S unit := fun s => Ok (tt, s, [e]).

Definition require {S} (P : Prop) `{Decision P} (reason : string) : M S unit :=
  if decide P then ret tt else fail (Revert reason).

Definition when {S} (P : Prop) `{Decision P} (c : M S unit) : M S unit :=
  if decide P then c else ret tt.

Definition checked_add {S} (a b : Z) : M S Z :=
  if decide (a + b <= MAX_UINT256) then ret (a + b) else fail (Panic 17).

Definition checked_sub {S} (a b : Z) : M S Z :=
  if decide (b <= a) then ret (a - b) else fail (Panic 17).

Definition checked_mul {S} (a b : Z) : M S Z :=
  if decide (a * b <= MAX_UINT256) then ret (a * b) else fail (Panic 17).

Definition checked_div {S} (a b : Z) : M S Z :=
  if decide (b = 0) then fail (Panic 18) else ret (a / b).

(** ** BlacklistRegistry.sol *)

Module BlacklistRegistry.

Record BlacklistEntry : Type := {
  entryType : EntryType;
  timestamp : Z;
  proposer : Z;
  exists_ : bool
}.

(** The value a mapping returns for a key that was never written. *)
Definition noEntry : BlacklistEntry :=
  {| entryType := URL; timestamp := 0; proposer := 0; exists_ := false |}.

Record Storage : Type := {
  blacklistedURLs : gmap string BlacklistEntry;
  blacklistedAddresses : gmap Z BlacklistEntry;
  proposalVotingContract : Z;
  owner : Z
}.

Definition urlEntry (s : Storage) (_url : string) : BlacklistEntry :=
  default noEntry (blacklistedURLs s !! _url).

Definition addressEntry (s : Storage) (_address : Z) : BlacklistEntry :=
  default noEntry (blacklistedAddresses s !! _address).

Definition set_blacklistedURLs (f : gmap string BlacklistEntry -> gmap string BlacklistEntry)
    (s : Storage) : Storage :=
  {| blacklistedURLs := f (blacklistedURLs s);
     blacklistedAddresses := blacklistedAddresses s;
     proposalVotingContract := proposalVotingContract s;
     owner := owner s |}.

Definition set_blacklistedAddresses (f : gmap Z BlacklistEntry -> gmap Z BlacklistEntry)
    (s : Storage) : Storage :=
  {| blacklistedURLs := blacklistedURLs s;
     blacklistedAddresses := f (blacklistedAddresses s);
     proposalVotingContract := proposalVotingContract s;
     owner := owner s |}.

Definition set_proposalVotingContract (a : Z) (s : Storage) : Storage :=
  {| blacklistedURLs := blacklistedURLs s;
     blacklistedAddresses := blacklistedAddresses s;
     proposalVotingContract := a;
     owner := owner s |}.

Definition set_owner (a : Z) (s : Storage) : Storage :=
  {| blacklistedURLs := blacklistedURLs s;
     blacklistedAddresses := blacklistedAddresses s;
     proposalVotingContract := proposalVotingContract s;
     owner := a |}.

Definition constructor (env : Env) (_proposalVotingContract : Z) : result Storage :=
  if decide (_proposalVotingContract ≠ 0) then
    Ok {| blacklistedURLs := ∅; blacklistedAddresses := ∅;
          proposalVotingContract := _proposalVotingContract;
          owner := msg_sender env |}
  else Fail (Revert "ProposalVoting contract address cannot be zero").

Definition onlyProposalVotingContract (env : Env) : M Storage unit :=
  let! s := get in
  require (msg_sender env = proposalVotingContract s)
    "Only ProposalVoting contract can call this function".

Definition onlyOwner (env : Env) : M Storage unit :=
  let! s := get in
  require (msg_sender env = owner s) "Only owner can call this function".

Definition addURL (env : Env) (_url : string) (_proposer : Z) : M Storage unit :=
  onlyProposalVotingContract env ;;;
  require (0 < Z.of_nat (String.length _url)) "URL cannot be empty" ;;;
  let! s := get in
  require (exists_ (urlEntry s _url) = false) "URL is already blacklisted" ;;;
  require (_proposer ≠ 0) "Proposer address cannot be zero" ;;;
  modify (set_blacklistedURLs
    (insert _url {| entryType := URL; timestamp := block_timestamp env;
                    proposer := _proposer; exists_ := true |})) ;;;
  emit (EntryAdded URL _url 0 (block_timestamp env) _proposer).

Definition addAddress (env : Env) (_address : Z) (_proposer : Z) : M Storage unit :=
  onlyProposalVotingContract env ;;;
  require (_address ≠ 0) "Address cannot be zero" ;;;
  let! s := get in
  require (exists_ (addressEntry s _address) = false) "Address is already blacklisted" ;;;
  require (_proposer ≠ 0) "Proposer address cannot be zero" ;;;
  modify (set_blacklistedAddresses
    (insert _address {| entryType := Address; timestamp := block_timestamp env;
                        proposer := _proposer; exists_ := true |})) ;;;
  emit (EntryAdded Address "" _address (block_timestamp env) _proposer).

Definition removeURL (env : Env) (_url : string) (_remover : Z) : M Storage unit :=
  onlyProposalVotingContract env ;;;
  require (0 < Z.of_nat (String.length _url)) "URL cannot be empty" ;;;
  let! s := get in
  require (exists_ (urlEntry s _url) = true) "URL is not blacklisted" ;;;
  require (_remover ≠ 0) "Remover address cannot be zero" ;;;
  modify (set_blacklistedURLs (delete _url)) ;;;
  emit (EntryRemoved URL _url 0 (block_timestamp env) _remover).

Definition removeAddress (env : Env) (_address : Z) (_remover : Z) : M Storage unit :=
  onlyProposalVotingContract env ;;;
  require (_address ≠ 0) "Address cannot be zero" ;;;
  let! s := get in
  require (exists_ (addressEntry s _address) = true) "Address is not blacklisted" ;;;
  require (_remover ≠ 0) "Remover address cannot be zero" ;;;
  modify (set_blacklistedAddresses (delete _address)) ;;;
  emit (EntryRemoved Address "" _address (block_timestamp env) _remover).

Definition isURLBlacklisted (_url : string) : M Storage bool :=
  let! s := get in ret (exists_ (urlEntry s _url)).

Definition isAddressBlacklisted (_address : Z) : M Storage bool :=
  let! s := get in ret (exists_ (addressEntry s _address)).

Definition getURLDetails (_url : string) : M Storage BlacklistEntry :=
  let! s := get in
  require (exists_ (urlEntry s _url) = true) "URL is not blacklisted" ;;;
  ret (urlEntry s _url).

Definition getAddressDetails (_address : Z) : M Storage BlacklistEntry :=
  let! s := get in
  require (exists_ (addressEntry s _address) = true) "Address is not blacklisted" ;;;
  ret (addressEntry s _address).

Definition updateProposalVotingContract (env : Env) (_newProposalVotingContract : Z)
    : M Storage unit :=
  onlyOwner env ;;;
  require (_newProposalVotingContract ≠ 0)
    "New ProposalVoting contract address cannot be zero" ;;;
  let! s := get in
  require (_newProposalVotingContract ≠ proposalVotingContract s)
    "New address must be different" ;;;
  let oldContract := proposalVotingContract s in
  modify (set_proposalVotingContract _newProposalVotingContract) ;;;
  emit (ProposalVotingContractUpdated oldContract _newProposalVotingContract
          (block_timestamp env)).

Definition transferOwnership (env : Env) (_newOwner : Z) : M Storage unit :=
  onlyOwner env ;;;
  require (_newOwner ≠ 0) "New owner address cannot be zero" ;;;
  let! s := get in
  require (_newOwner ≠ owner s) "New owner must be different from current owner" ;;;
  let previousOwner := owner s in
  modify (set_owner _newOwner) ;;;
  emit (RegistryOwnershipTransferred previousOwner _newOwner).

(** The [for] loop of the two batch checks: [n] iterations remain, [i] is the
    loop counter, [results] the array allocated before the loop.  Reading
    [_keys[i]] is bounds-checked. *)
Fixpoint batchLoop {K} (look : Storage -> K -> BlacklistEntry) (_keys : list K)
    (n : nat) (i : nat) (results : list bool) : M Storage (list bool) :=
  match n with
  | O => ret results
  | S n' =>
      match _keys !! i with
      | None => fail (Panic 50)
      | Some k =>
          let! s := get in
          batchLoop look _keys n' (S i) (<[i := exists_ (look s k)]> results)
      end
  end.

Definition batchCheckURLs (_urls : list string) : M Storage (list bool) :=
  let results := replicate (length _urls) false in
  batchLoop urlEntry _urls (length _urls) 0%nat results.

Definition batchCheckAddresses (_addresses : list Z) : M Storage (list bool) :=
  let results := replicate (length _addresses) false in
  batchLoop addressEntry _addresses (length _addresses) 0%nat results.

End BlacklistRegistry.

(** ** ProposalVoting.sol *)

Module ProposalVoting.

Record Proposal : Type := {
  id : Z;
  proposalType : ProposalType;
  urlValue : string;
  addressValue : Z;
  description : string;
  creationTimestamp : Z;
  votingPeriodEnd : Z;
  proposer : Z;
  yesVotes : Z;
  noVotes : Z;
  status : ProposalStatus;
  hasVoted : gset Z;  (* the addresses mapped to [true] *)
  totalVoters : Z
}.

(** The contents of a [proposals] slot that was never written. *)
Definition zeroProposal : Proposal :=
  {| id := 0; proposalType := AddURL; urlValue := ""; addressValue := 0;
     description := ""; creationTimestamp := 0; votingPeriodEnd := 0;
     proposer := 0; yesVotes := 0; noVotes := 0; status := Active;
     hasVoted := ∅; totalVoters := 0 |}.

Definition with_hasVoted (v : gset Z) (p : Proposal) : Proposal :=
  {| id := id p; proposalType := proposalType p; urlValue := urlValue p;
     addressValue := addressValue p; description := description p;
     creationTimestamp := creationTimestamp p; votingPeriodEnd := votingPeriodEnd p;
     proposer := proposer p; yesVotes := yesVotes p; noVotes := noVotes p;
     status := status p; hasVoted := v; totalVoters := totalVoters p |}.

Definition with_totalVoters (n : Z) (p : Proposal) : Proposal :=
  {| id := id p; proposalType := proposalType p; urlValue := urlValue p;
     addressValue := addressValue p; description := description p;
     creationTimestamp := creationTimestamp p; votingPeriodEnd := votingPeriodEnd p;
     proposer := proposer p; yesVotes := yesVotes p; noVotes := noVotes p;
     status := status p; hasVoted := hasVoted p; totalVoters := n |}.

Definition with_yesVotes (n : Z) (p : Proposal) : Proposal :=
  {| id := id p; proposalType := proposalType p; urlValue := urlValue p;
     addressValue := addressValue p; description := description p;
     creationTimestamp := creationTimestamp p; votingPeriodEnd := votingPeriodEnd p;
     proposer := proposer p; yesVotes := n; noVotes := noVotes p;
     status := status p; hasVoted := hasVoted p; totalVoters := totalVoters p |}.

Definition with_noVotes (n : Z) (p : Proposal) : Proposal :=
  {| id := id p; proposalType := proposalType p; urlValue := urlValue p;
     addressValue := addressValue p; description := description p;
     creationTimestamp := creationTimestamp p; votingPeriodEnd := votingPeriodEnd p;
     proposer := proposer p; yesVotes := yesVotes p; noVotes := n;
     status := status p; hasVoted := hasVoted p; totalVoters := totalVoters p |}.

Definition with_status (st : ProposalStatus) (p : Proposal) : Proposal :=
  {| id := id p; proposalType := proposalType p; urlValue := urlValue p;
     addressValue := addressValue p; description := description p;
     creationTimestamp := creationTimestamp p; votingPeriodEnd := votingPeriodEnd p;
     proposer := proposer p; yesVotes := yesVotes p; noVotes := noVotes p;
     status := st; hasVoted := hasVoted p; totalVoters := totalVoters p |}.

Record Storage : Type := {
  blacklistRegistry : Z;
  governanceTokenContract : Z;
  proposals : gmap Z Proposal;
  nextProposalId : Z;
  minVotingPeriod : Z;
  minVotesForApproval : Z;
  approvalMajorityPercentage : Z;
  minProposerTokenHoldings : Z;
  owner : Z
}.

Definition zeroStorage : Storage :=
  {| blacklistRegistry := 0; governanceTokenContract := 0; proposals := ∅;
     nextProposalId := 0; minVotingPeriod := 0; minVotesForApproval := 0;
     approvalMajorityPercentage := 0; minProposerTokenHoldings := 0; owner := 0 |}.

Definition set_proposals (f : gmap Z Proposal -> gmap Z Proposal) (s : Storage) : Storage :=
  {| blacklistRegistry := blacklistRegistry s;
     governanceTokenContract := governanceTokenContract s;
     proposals := f (proposals s); nextProposalId := nextProposalId s;
     minVotingPeriod := minVotingPeriod s;
     minVotesForApproval := minVotesForApproval s;
     approvalMajorityPercentage := approvalMajorityPercentage s;
     minProposerTokenHoldings := minProposerTokenHoldings s; owner := owner s |}.

Definition set_nextProposalId (n : Z) (s : Storage) : Storage :=
  {| blacklistRegistry := blacklistRegistry s;
     governanceTokenContract := governanceTokenContract s;
     proposals := proposals s; nextProposalId := n;
     minVotingPeriod := minVotingPeriod s;
     minVotesForApproval := minVotesForApproval s;
     approvalMajorityPercentage := approvalMajorityPercentage s;
     minProposerTokenHoldings := minProposerTokenHoldings s; owner := owner s |}.

Definition set_blacklistRegistry (a : Z) (s : Storage) : Storage :=
  {| blacklistRegistry := a;
     governanceTokenContract := governanceTokenContract s;
     proposals := proposals s; nextProposalId := nextProposalId s;
     minVotingPeriod := minVotingPeriod s;
     minVotesForApproval := minVotesForApproval s;
     approvalMajorityPercentage := approvalMajorityPercentage s;
     minProposerTokenHoldings := minProposerTokenHoldings s; owner := owner s |}.

Definition set_votingParameters (period votes percentage : Z) (s : Storage) : Storage :=
  {| blacklistRegistry := blacklistRegistry s;
     governanceTokenContract := governanceTokenContract s;
     proposals := proposals s; nextProposalId := nextProposalId s;
     minVotingPeriod := period;
     minVotesForApproval := votes;
     approvalMajorityPercentage := percentage;
     minProposerTokenHoldings := minProposerTokenHoldings s; owner := owner s |}.

Definition set_minProposerTokenHoldings (n : Z) (s : Storage) : Storage :=
  {| blacklistRegistry := blacklistRegistry s;
     governanceTokenContract := governanceTokenContract s;
     proposals := proposals s; nextProposalId := nextProposalId s;
     minVotingPeriod := minVotingPeriod s;
     minVotesForApproval := minVotesForApproval s;
     approvalMajorityPercentage := approvalMajorityPercentage s;
     minProposerTokenHoldings := n; owner := owner s |}.

Definition set_owner (a : Z) (s : Storage) : Storage :=
  {| blacklistRegistry := blacklistRegistry s;
     governanceTokenContract := governanceTokenContract s;
     proposals := proposals s; nextProposalId := nextProposalId s;
     minVotingPeriod := minVotingPeriod s;
     minVotesForApproval := minVotesForApproval s;
     approvalMajorityPercentage := approvalMajorityPercentage s;
     minProposerTokenHoldings := minProposerTokenHoldings s; owner := a |}.

(** [proposals[_proposalId]] read as a value. *)
Definition proposalAt (s : Storage) (_proposalId : Z) : Proposal :=
  default zeroProposal (proposals s !! _proposalId).

(** The chain as this contract sees it: its own address and storage, the
    registries deployed at their addresses, and for each deployed governance
    token the balance of every account ([balanceOf], the only token function
    the contract calls). *)
Record World : Type := {
  this : Z;
  pv : Storage;
  registries : gmap Z BlacklistRegistry.Storage;
  tokens : gmap Z (gmap Z Z)
}.

Definition set_pv (f : Storage -> Storage) (w : World) : World :=
  {| this := this w; pv := f (pv w); registries := registries w; tokens := tokens w |}.

Definition set_registries
    (f : gmap Z BlacklistRegistry.Storage -> gmap Z BlacklistRegistry.Storage)
    (w : World) : World :=
  {| this := this w; pv := pv w; registries := f (registries w); tokens := tokens w |}.

Definition set_tokens (f : gmap Z (gmap Z Z) -> gmap Z (gmap Z Z)) (w : World) : World :=
  {| this := this w; pv := pv w; registries := registries w; tokens := f (tokens w) |}.

Definition storage : M World Storage := fun w => Ok (pv w, w, []).

(** [proposals[_proposalId] = p]. *)
Definition put_proposal (_proposalId : Z) (p : Proposal) (w : World) : World :=
  set_pv (set_proposals (insert _proposalId p)) w.

(** A write through a [Proposal storage] pointer. *)
Definition update_proposal (_proposalId : Z) (f : Proposal -> Proposal) : M World unit :=
  modify (fun w => put_proposal _proposalId (f (proposalAt (pv w) _proposalId)) w).

(** An external call of this contract to the registry at [target]: the callee
    sees this contract as [msg.sender]; its failure fails the caller. *)
Definition call_registry (env : Env) (target : Z)
    (f : Env -> M BlacklistRegistry.Storage unit) : M World unit :=
  fun w =>
    match registries w !! target with
    | None => Fail NoContractCode
    | Some r =>
        match f {| msg_sender := this w; block_timestamp := block_timestamp env |} r with
        | Fail e => Fail e
        | Ok (_, r', evs) => Ok (tt, set_registries (insert target r') w, evs)
        end
    end.

(** [GovernanceToken(token).balanceOf(account)]. *)
Definition balanceOf (token : Z) (account : Z) : M World Z :=
  fun w =>
    match tokens w !! token with
    | None => Fail NoContractCode
    | Some balances => Ok (default 0 (balances !! account), w, [])
    end.

Definition constructor (env : Env)
    (_blacklistRegistryAddress _governanceTokenAddress _minVotingPeriod
     _minVotesForApproval _approvalMajorityPercentage _minProposerTokenHoldings : Z)
    : M World unit :=
  require (_blacklistRegistryAddress ≠ 0) "BlacklistRegistry address cannot be zero" ;;;
  require (_governanceTokenAddress ≠ 0) "GovernanceToken address cannot be zero" ;;;
  require (0 < _minVotingPeriod) "Min voting period must be greater than zero" ;;;
  require (0 < _approvalMajorityPercentage ∧ _approvalMajorityPercentage <= 100)
    "Approval majority percentage must be between 1 and 100" ;;;
  modify (set_pv (fun _ =>
    {| blacklistRegistry := _blacklistRegistryAddress;
       governanceTokenContract := _governanceTokenAddress;
       proposals := ∅;
       nextProposalId := 1;
       minVotingPeriod := _minVotingPeriod;
       minVotesForApproval := _minVotesForApproval;
       approvalMajorityPercentage := _approvalMajorityPercentage;
       minProposerTokenHoldings := _minProposerTokenHoldings;
       owner := msg_sender env |})).

Definition onlyOwner (env : Env) : M World unit :=
  let! s := storage in
  require (msg_sender env = owner s) "Only owner can call this function".

Definition proposalExists (_proposalId : Z) : M World unit :=
  let! s := storage in
  require (0 < _proposalId ∧ _proposalId < nextProposalId s) "Proposal does not exist".

Definition proposalActive (env : Env) (_proposalId : Z) : M World unit :=
  let! s := storage in
  require (status (proposalAt s _proposalId) = Active) "Proposal is not active" ;;;
  require (block_timestamp env < votingPeriodEnd (proposalAt s _proposalId))
    "Voting period has ended".

Definition proposalReadyToResolve (env : Env) (_proposalId : Z) : M World unit :=
  let! s := storage in
  require (status (proposalAt s _proposalId) = Active)
    "Proposal not in active state for resolution" ;;;
  require (votingPeriodEnd (proposalAt s _proposalId) <= block_timestamp env)
    "Voting period has not ended yet".

Definition createProposal (env : Env) (_type : ProposalType) (_url : string)
    (_address : Z) (_description : string) (_userDefinedVotingDurationInSeconds : Z)
    : M World Z :=
  require (0 < Z.of_nat (String.length _description)) "Description cannot be empty" ;;;
  require (0 < _userDefinedVotingDurationInSeconds)
    "Voting duration must be greater than zero" ;;;
  let! s := storage in
  when (_type = AddURL ∨ _type = AddAddress)
    (let! balance := balanceOf (governanceTokenContract s) (msg_sender env) in
     require (minProposerTokenHoldings s <= balance)
       "Insufficient APGT to create Add proposal") ;;;
  when (_type = RemoveURL ∨ _type = RemoveAddress)
    (require (msg_sender env = owner s) "Only owner can create Remove proposals") ;;;
  let proposalId := nextProposalId s in
  let! next := checked_add (nextProposalId s) 1 in
  modify (set_pv (set_nextProposalId next)) ;;;
  let actualVotingDuration :=
    if decide (_userDefinedVotingDurationInSeconds < minVotingPeriod s)
    then minVotingPeriod s
    else _userDefinedVotingDurationInSeconds in
  let! votingEnd := checked_add (block_timestamp env) actualVotingDuration in
  (if decide (_type = AddURL ∨ _type = RemoveURL) then
     require (0 < Z.of_nat (String.length _url))
       "URL cannot be empty for URL-related proposal" ;;;
     require (_address = 0) "Address must be zero for URL-related proposal"
   else if decide (_type = AddAddress ∨ _type = RemoveAddress) then
     require (_address ≠ 0) "Address cannot be zero for Address-related proposal" ;;;
     require (Z.of_nat (String.length _url) = 0)
       "URL must be empty for Address-related proposal"
   else fail (Revert "Invalid proposal type")) ;;;
  (* the field-by-field initialisation of [newProposal]; the nested mapping
     [hasVoted] is not assigned and keeps what the slot holds *)
  update_proposal proposalId (fun newProposal =>
    {| id := proposalId; proposalType := _type; urlValue := _url;
       addressValue := _address; description := _description;
       creationTimestamp := block_timestamp env; votingPeriodEnd := votingEnd;
       proposer := msg_sender env; yesVotes := 0; noVotes := 0;
       status := Active; hasVoted := hasVoted newProposal; totalVoters := 0 |}) ;;;
  emit (ProposalCreated proposalId _type _url _address _description (msg_sender env)
          (block_timestamp env) votingEnd) ;;;
  ret proposalId.

Definition vote (env : Env) (_proposalId : Z) (_support : bool) : M World unit :=
  proposalExists _proposalId ;;;
  proposalActive env _proposalId ;;;
  let! s := storage in
  require (msg_sender env ∉ hasVoted (proposalAt s _proposalId))
    "Already voted on this proposal" ;;;
  update_proposal _proposalId (fun proposal =>
    with_hasVoted ({[msg_sender env]} ∪ hasVoted proposal) proposal) ;;;
  let! s := storage in
  let! n := checked_add (totalVoters (proposalAt s _proposalId)) 1 in
  update_proposal _proposalId (with_totalVoters n) ;;;
  let! s := storage in
  (if _support then
     let! n := checked_add (yesVotes (proposalAt s _proposalId)) 1 in
     update_proposal _proposalId (with_yesVotes n)
   else
     let! n := checked_add (noVotes (proposalAt s _proposalId)) 1 in
     update_proposal _proposalId (with_noVotes n)) ;;;
  let! s := storage in
  emit (VoteCast _proposalId (msg_sender env) _support
          (yesVotes (proposalAt s _proposalId)) (noVotes (proposalAt s _proposalId))).

Definition endProposalAndExecute (env : Env) (_proposalId : Z) : M World unit :=
  proposalExists _proposalId ;;;
  proposalReadyToResolve env _proposalId ;;;
  let! s := storage in
  let proposal := proposalAt s _proposalId in
  let oldStatus := status proposal in
  let! meetsApprovalCriteria :=
    (if decide (minVotesForApproval s <= yesVotes proposal ∧ 0 < totalVoters proposal) then
       let! scaled := checked_mul (yesVotes proposal) 100 in
       let! actualMajorityPercentage := checked_div scaled (totalVoters proposal) in
       if decide (approvalMajorityPercentage s <= actualMajorityPercentage)
       then ret true else ret false
     else ret false) in
  (if meetsApprovalCriteria : bool then
     update_proposal _proposalId (with_status Approved)
   else
     update_proposal _proposalId (with_status Rejected)) ;;;
  let! s := storage in
  emit (ProposalStatusUpdated _proposalId oldStatus (status (proposalAt s _proposalId))).

Definition executeApprovedProposal (env : Env) (_proposalId : Z) : M World unit :=
  onlyOwner env ;;;
  proposalExists _proposalId ;;;
  let! s := storage in
  let proposal := proposalAt s _proposalId in
  require (status proposal = Approved)
    "Proposal is not in Approved state for execution" ;;;
  let oldStatus := status proposal in
  (if decide (proposalType proposal = AddURL) then
     call_registry env (blacklistRegistry s) (fun e =>
       BlacklistRegistry.addURL e (urlValue proposal) (proposer proposal))
   else if decide (proposalType proposal = AddAddress) then
     call_registry env (blacklistRegistry s) (fun e =>
       BlacklistRegistry.addAddress e (addressValue proposal) (proposer proposal))
   else if decide (proposalType proposal = RemoveURL) then
     call_registry env (blacklistRegistry s) (fun e =>
       BlacklistRegistry.removeURL e (urlValue proposal) (proposer proposal))
   else if decide (proposalType proposal = RemoveAddress) then
     call_registry env (blacklistRegistry s) (fun e =>
       BlacklistRegistry.removeAddress e (addressValue proposal) (proposer proposal))
   else ret tt) ;;;
  update_proposal _proposalId (with_status Executed) ;;;
  let! s := storage in
  let proposal := proposalAt s _proposalId in
  emit (ProposalExecuted _proposalId (proposalType proposal) (urlValue proposal)
          (addressValue proposal) (msg_sender env)) ;;;
  emit (ProposalStatusUpdated _proposalId oldStatus (status proposal)).

Definition hasVotedOnProposal (_proposalId : Z) (_voter : Z) : M World bool :=
  proposalExists _proposalId ;;;
  let! s := storage in
  ret (bool_decide (_voter ∈ hasVoted (proposalAt s _proposalId))).

Definition getVotingResults (_proposalId : Z) : M World (Z * Z * Z * Z) :=
  proposalExists _proposalId ;;;
  let! s := storage in
  let proposal := proposalAt s _proposalId in
  let! percentage :=
    (if decide (0 < totalVoters proposal) then
       let! scaled := checked_mul (yesVotes proposal) 100 in
       checked_div scaled (totalVoters proposal)
     else ret 0) in
  ret (yesVotes proposal, noVotes proposal, totalVoters proposal, percentage).

Definition willProposalPass (_proposalId : Z) : M World bool :=
  proposalExists _proposalId ;;;
  let! s := storage in
  let proposal := proposalAt s _proposalId in
  if decide (yesVotes proposal < minVotesForApproval s ∨ totalVoters proposal = 0) then
    ret false
  else
    let! scaled := checked_mul (yesVotes proposal) 100 in
    let! actualMajorityPercentage := checked_div scaled (totalVoters proposal) in
    ret (bool_decide (approvalMajorityPercentage s <= actualMajorityPercentage)).

Definition getTotalProposalCount : M World Z :=
  let! s := storage in
  checked_sub (nextProposalId s) 1.

Definition updateBlacklistRegistry (env : Env) (_newBlacklistRegistryAddress : Z)
    : M World unit :=
  onlyOwner env ;;;
  require (_newBlacklistRegistryAddress ≠ 0)
    "New BlacklistRegistry address cannot be zero" ;;;
  let! s := storage in
  require (_newBlacklistRegistryAddress ≠ blacklistRegistry s)
    "New address must be different" ;;;
  let oldAddress := blacklistRegistry s in
  modify (set_pv (set_blacklistRegistry _newBlacklistRegistryAddress)) ;;;
  emit (BlacklistRegistryUpdated oldAddress _newBlacklistRegistryAddress).

Definition updateVotingParameters (env : Env)
    (_newMinVotingPeriod _newMinVotesForApproval _newApprovalMajorityPercentage : Z)
    : M World unit :=
  onlyOwner env ;;;
  require (0 < _newMinVotingPeriod) "Min voting period must be greater than zero" ;;;
  require (0 < _newApprovalMajorityPercentage ∧ _newApprovalMajorityPercentage <= 100)
    "Approval majority percentage must be between 1 and 100" ;;;
  modify (set_pv (set_votingParameters _newMinVotingPeriod _newMinVotesForApproval
                    _newApprovalMajorityPercentage)) ;;;
  emit (VotingParametersUpdated _newMinVotingPeriod _newMinVotesForApproval
          _newApprovalMajorityPercentage).

Definition updateMinProposerTokenHoldings (env : Env) (_newMinProposerTokenHoldings : Z)
    : M World unit :=
  onlyOwner env ;;;
  let! s := storage in
  let oldAmount := minProposerTokenHoldings s in
  modify (set_pv (set_minProposerTokenHoldings _newMinProposerTokenHoldings)) ;;;
  emit (MinProposerTokenHoldingsUpdated oldAmount _newMinProposerTokenHoldings).

Definition transferOwnership (env : Env) (_newOwner : Z) : M World unit :=
  onlyOwner env ;;;
  require (_newOwner ≠ 0) "New owner address cannot be zero" ;;;
  let! s := storage in
  require (_newOwner ≠ owner s) "New owner must be different from current owner" ;;;
  let previousOwner := owner s in
  modify (set_pv (set_owner _newOwner)) ;;;
  emit (OwnershipTransferred previousOwner _newOwner).

(** The condition of the two loops of [getActiveProposals] and of the two
    loops of [getProposalsReadyToResolve]. *)
Definition activeCondition (env : Env) (s : Storage) (i : Z) : bool :=
  bool_decide (status (proposalAt s i) = Active ∧
               block_timestamp env < votingPeriodEnd (proposalAt s i)).

Definition readyCondition (env : Env) (s : Storage) (i : Z) : bool :=
  bool_decide (status (proposalAt s i) = Active ∧
               votingPeriodEnd (proposalAt s i) <= block_timestamp env).

(** First pass: [for (i = 1; i < nextProposalId; i++) if (cond) count++],
    with [n] iterations left. *)
Fixpoint countLoop (cond : Storage -> Z -> bool) (n : nat) (i count : Z) : M World Z :=
  match n with
  | O => ret count
  | S n' =>
      let! s := storage in
      let! count' := (if cond s i then checked_add count 1 else ret count) in
      let! i' := checked_add i 1 in
      countLoop cond n' i' count'
  end.

(** Second pass: [if (cond) { result[index] = i; index++; }]; the write to
    the memory array is bounds-checked. *)
Fixpoint fillLoop (cond : Storage -> Z -> bool) (n : nat) (i index : Z)
    (result : list Z) : M World (list Z) :=
  match n with
  | O => ret result
  | S n' =>
      let! s := storage in
      let! filled :=
        (if cond s i then
           if decide (0 <= index ∧ index < Z.of_nat (length result)) then
             let! index' := checked_add index 1 in
             ret (<[Z.to_nat index := i]> result, index')
           else fail (Panic 50)
         else ret (result, index)) in
      let! i' := checked_add i 1 in
      fillLoop cond n' i' (snd filled) (fst filled)
  end.

(** The number of iterations of [for (i = 1; i < nextProposalId; i++)]. *)
Definition iterations (s : Storage) : nat := Z.to_nat (nextProposalId s - 1).

Definition getActiveProposals (env : Env) : M World (list Z) :=
  let! s := storage in
  let! activeCount := countLoop (activeCondition env) (iterations s) 1 0 in
  let activeProposals := replicate (Z.to_nat activeCount) 0 in
  fillLoop (activeCondition env) (iterations s) 1 0 activeProposals.

Definition getProposalsReadyToResolve (env : Env) : M World (list Z) :=
  let! s := storage in
  let! readyCount := countLoop (readyCondition env) (iterations s) 1 0 in
  let readyProposals := replicate (Z.to_nat readyCount) 0 in
  fillLoop (readyCondition env) (iterations s) 1 0 readyProposals.

End ProposalVoting.

(** ** Transactions *)

Module Chain.
Import ProposalVoting.

(** Entry points of a registry that accounts other than the voting contract
    may call. *)
Inductive RegistryCall : Type :=
| RegistryAddURL (_url : string) (_proposer : Z)
| RegistryAddAddress (_address : Z) (_proposer : Z)
| RegistryRemoveURL (_url : string) (_remover : Z)
| RegistryRemoveAddress (_address : Z) (_remover : Z)
| RegistryUpdateProposalVotingContract (_newProposalVotingContract : Z)
| RegistryTransferOwnership (_newOwner : Z).

(** A transaction: a call of a state-changing function of the voting
    contract, a direct call of a registry, or any activity of a governance
    token (transfer, mint, burn, faucet claim), seen as a new balance table. *)
Inductive Call : Type :=
| CreateProposal (_type : ProposalType) (_url : string) (_address : Z)
    (_description : string) (_userDefinedVotingDurationInSeconds : Z)
| Vote (_proposalId : Z) (_support : bool)
| EndProposalAndExecute (_proposalId : Z)
| ExecuteApprovedProposal (_proposalId : Z)
| UpdateBlacklistRegistry (_newBlacklistRegistryAddress : Z)
| UpdateVotingParameters (_newMinVotingPeriod _newMinVotesForApproval
    _newApprovalMajorityPercentage : Z)
| UpdateMinProposerTokenHoldings (_newMinProposerTokenHoldings : Z)
| TransferOwnership (_newOwner : Z)
| Registry (target : Z) (c : RegistryCall)
| TokenActivity (token : Z) (balances : gmap Z Z).

Definition registry_entry (env : Env) (c : RegistryCall)
    : M BlacklistRegistry.Storage unit :=
  match c with
  | RegistryAddURL u p => BlacklistRegistry.addURL env u p
  | RegistryAddAddress a p => BlacklistRegistry.addAddress env a p
  | RegistryRemoveURL u r => BlacklistRegistry.removeURL env u r
  | RegistryRemoveAddress a r => BlacklistRegistry.removeAddress env a r
  | RegistryUpdateProposalVotingContract a =>
      BlacklistRegistry.updateProposalVotingContract env a
  | RegistryTransferOwnership a => BlacklistRegistry.transferOwnership env a
  end.

Definition direct_registry (env : Env) (target : Z) (c : RegistryCall) : M World unit :=
  fun w =>
    match registries w !! target with
    | None => Fail NoContractCode
    | Some r =>
        match registry_entry env c r with
        | Fail e => Fail e
        | Ok (_, r', evs) => Ok (tt, set_registries (insert target r') w, evs)
        end
    end.

Definition token_activity (token : Z) (balances : gmap Z Z) : M World unit :=
  fun w =>
    match tokens w !! token with
    | None => Fail NoContractCode
    | Some _ => Ok (tt, set_tokens (insert token balances) w, [])
    end.

(** The value a call returns is [Some id] for [createProposal], [None] for
    the functions that return nothing. *)
Definition exec (env : Env) (c : Call) : M World (option Z) :=
  match c with
  | CreateProposal t u a d n =>
      let! proposalId := createProposal env t u a d n in ret (Some proposalId)
  | Vote i b => vote env i b ;;; ret None
  | EndProposalAndExecute i => endProposalAndExecute env i ;;; ret None
  | ExecuteApprovedProposal i => executeApprovedProposal env i ;;; ret None
  | UpdateBlacklistRegistry a => updateBlacklistRegistry env a ;;; ret None
  | UpdateVotingParameters p v m => updateVotingParameters env p v m ;;; ret None
  | UpdateMinProposerTokenHoldings n => updateMinProposerTokenHoldings env n ;;; ret None
  | TransferOwnership a => transferOwnership env a ;;; ret None
  | Registry target rc => direct_registry env target rc ;;; ret None
  | TokenActivity token balances => token_activity token balances ;;; ret None
  end.

(** A transaction is atomic: when the call fails the world is what it was. *)
Definition transact (env : Env) (c : Call) (w : World) : World :=
  match exec env c w with
  | Ok (_, w', _) => w'
  | Fail _ => w
  end.

Definition wf_env (env : Env) : Prop :=
  is_address (msg_sender env) ∧ is_uint256 (block_timestamp env).

Definition wf_registry_call (c : RegistryCall) : Prop :=
  match c with
  | RegistryAddURL _ p | RegistryRemoveURL _ p => is_address p
  | RegistryAddAddress a p | RegistryRemoveAddress a p => is_address a ∧ is_address p
  | RegistryUpdateProposalVotingContract a | RegistryTransferOwnership a => is_address a
  end.

Definition wf_call (c : Call) : Prop :=
  match c with
  | CreateProposal _ _ a _ n => is_address a ∧ is_uint256 n
  | Vote i _ | EndProposalAndExecute i | ExecuteApprovedProposal i => is_uint256 i
  | UpdateBlacklistRegistry a | TransferOwnership a => is_address a
  | UpdateVotingParameters p v m => is_uint256 p ∧ is_uint256 v ∧ is_uint256 m
  | UpdateMinProposerTokenHoldings n => is_uint256 n
  | Registry target rc => is_address target ∧ wf_registry_call rc
  | TokenActivity token balances =>
      is_address token ∧ map_Forall (fun a b => is_address a ∧ is_uint256 b) balances
  end.

(** A world before the voting contract is deployed at [this]. *)
Definition undeployed (w : World) : Prop := pv w = zeroStorage.

(** The worlds the system can be in: the one the constructor leaves, and
    those reached from it by transactions. *)
Inductive reachable : World -> Prop :=
| reachable_deployed (env : Env) (reg tok period votes percentage holdings : Z)
    (w0 w : World) (evs : list Event) :
    wf_env env ->
    is_address reg -> is_address tok -> is_uint256 period -> is_uint256 votes ->
    is_uint256 percentage -> is_uint256 holdings ->
    undeployed w0 ->
    constructor env reg tok period votes percentage holdings w0 = Ok (tt, w, evs) ->
    reachable w
| reachable_transact (env : Env) (c : Call) (w : World) :
    reachable w -> wf_env env -> wf_call c ->
    reachable (transact env c w).

(** The worlds reached from [w] by further transactions. *)
Inductive reachable_from (w : World) : World -> Prop :=
| reachable_from_refl : reachable_from w w
| reachable_from_transact (env : Env) (c : Call) (w' : World) :
    reachable_from w w' -> wf_env env -> wf_call c ->
    reachable_from w (transact env c w').

(** Runs a list of transactions and collects the identifiers returned by the
    successful [createProposal] calls, in order. *)
Fixpoint run (txs : list (Env * Call)) (w : World) : World * list Z :=
  match txs with
  | [] => (w, [])
  | (env, c) :: rest =>
      match exec env c w with
      | Ok (Some proposalId, w', _) =>
          let '(w'', ids) := run rest w' in (w'', proposalId :: ids)
      | Ok (None, w', _) => run rest w'
      | Fail _ => run rest w
      end
  end.

(** The proposal stored under [_proposalId]. *)
Definition proposal (w : World) (_proposalId : Z) : Proposal :=
  proposalAt (pv w) _proposalId.

(** The transitions the life cycle allows for the status of one proposal in
    one transaction. *)
Inductive status_step : ProposalStatus -> ProposalStatus -> Prop :=
| status_stay (st : ProposalStatus) : status_step st st
| status_approve : status_step Active Approved
| status_reject : status_step Active Rejected
| status_execute : status_step Approved Executed.

(** The proposal a successful [vote] of [msg_sender env] leaves. *)
Definition voted (env : Env) (b : bool) (p : Proposal) : Proposal :=
  {| id := id p; proposalType := proposalType p; urlValue := urlValue p;
     addressValue := addressValue p; description := description p;
     creationTimestamp := creationTimestamp p; votingPeriodEnd := votingPeriodEnd p;
     proposer := proposer p;
     yesVotes := if b then yesVotes p + 1 else yesVotes p;
     noVotes := if b then noVotes p else noVotes p + 1;
     status := status p; hasVoted := {[msg_sender env]} ∪ hasVoted p;
     totalVoters := totalVoters p + 1 |}.

(** The proposal a successful [createProposal] stores under the next
    identifier. *)
Definition created (env : Env) (_type : ProposalType) (_url : string) (_address : Z)
    (_description : string) (_userDefinedVotingDurationInSeconds : Z) (s : Storage)
    : Proposal :=
  {| id := nextProposalId s; proposalType := _type; urlValue := _url;
     addressValue := _address; description := _description;
     creationTimestamp := block_timestamp env;
     votingPeriodEnd :=
       block_timestamp env +
       (if decide (_userDefinedVotingDurationInSeconds < minVotingPeriod s)
        then minVotingPeriod s else _userDefinedVotingDurationInSeconds);
     proposer := msg_sender env; yesVotes := 0; noVotes := 0;
     status := Active;
     hasVoted := hasVoted (proposalAt s (nextProposalId s));
     totalVoters := 0 |}.

(** What one successful call does to the proposals and to the identifier
    counter of the voting contract; the last argument is the value returned. *)
Inductive pv_effect (env : Env) (s s' : Storage) : Call -> option Z -> Prop :=
| effect_frame c :
    proposals s' = proposals s -> nextProposalId s' = nextProposalId s ->
    pv_effect env s s' c None
| effect_create t u a d n :
    nextProposalId s + 1 <= MAX_UINT256 ->
    proposals s' = <[nextProposalId s := created env t u a d n s]> (proposals s) ->
    nextProposalId s' = nextProposalId s + 1 ->
    pv_effect env s s' (CreateProposal t u a d n) (Some (nextProposalId s))
| effect_vote i b :
    0 < i < nextProposalId s ->
    status (proposalAt s i) = Active ->
    msg_sender env ∉ hasVoted (proposalAt s i) ->
    proposals s' = <[i := voted env b (proposalAt s i)]> (proposals s) ->
    nextProposalId s' = nextProposalId s ->
    pv_effect env s s' (Vote i b) None
| effect_resolve i st :
    0 < i < nextProposalId s ->
    status (proposalAt s i) = Active ->
    st = Approved ∨ st = Rejected ->
    proposals s' = <[i := with_status st (proposalAt s i)]> (proposals s) ->
    nextProposalId s' = nextProposalId s ->
    pv_effect env s s' (EndProposalAndExecute i) None
| effect_execute i :
    0 < i < nextProposalId s ->
    status (proposalAt s i) = Approved ->
    proposals s' = <[i := with_status Executed (proposalAt s i)]> (proposals s) ->
    nextProposalId s' = nextProposalId s ->
    pv_effect env s s' (ExecuteApprovedProposal i) None.

(** The registry operation an approved proposal stands for, as
    [executeApprovedProposal] selects it. *)
Definition registry_operation (p : Proposal) (e : Env)
    : M BlacklistRegistry.Storage unit :=
  match proposalType p with
  | AddURL => BlacklistRegistry.addURL e (urlValue p) (proposer p)
  | AddAddress => BlacklistRegistry.addAddress e (addressValue p) (proposer p)
  | RemoveURL => BlacklistRegistry.removeURL e (urlValue p) (proposer p)
  | RemoveAddress => BlacklistRegistry.removeAddress e (addressValue p) (proposer p)
  end.

(** The target of the operation is already blacklisted (for an addition) or
    is not blacklisted (for a removal). *)
Definition registry_conflict (p : Proposal) (r : BlacklistRegistry.Storage) : Prop :=
  match proposalType p with
  | AddURL =>
      BlacklistRegistry.exists_ (BlacklistRegistry.urlEntry r (urlValue p)) = true
  | AddAddress =>
      BlacklistRegistry.exists_ (BlacklistRegistry.addressEntry r (addressValue p)) = true
  | RemoveURL =>
      BlacklistRegistry.exists_ (BlacklistRegistry.urlEntry r (urlValue p)) = false
  | RemoveAddress =>
      BlacklistRegistry.exists_ (BlacklistRegistry.addressEntry r (addressValue p)) = false
  end.

(** The tallies of a proposal agree with the record of who voted. *)
Definition tallies_consistent (p : Proposal) : Prop :=
  totalVoters p = yesVotes p + noVotes p ∧ 0 <= yesVotes p ∧ 0 <= noVotes p ∧
  totalVoters p = Z.of_nat (size (hasVoted p)) ∧
  (∀ a, a ∈ hasVoted p -> is_address a).

(** The storage invariant of the voting contract: identifiers are handed out
    from 1, the slots from [nextProposalId] on were never written, and every
    stored proposal has consistent tallies. *)
Definition consistent (s : Storage) : Prop :=
  1 <= nextProposalId s ∧
  (∀ i, nextProposalId s <= i -> proposals s !! i = None) ∧
  (∀ i p, proposals s !! i = Some p -> tallies_consistent p).

(** The decision rule in the words of the specification: Approved iff
    yesVotes >= minimum AND totalVoters > 0 AND
    floor(yesVotes * 100 / totalVoters) >= percentage, else Rejected. *)
Definition spec_decision (yes total minVotes percentage : Z) : ProposalStatus :=
  if decide (minVotes <= yes ∧ 0 < total ∧ percentage <= (yes * 100) / total)
  then Approved else Rejected.

End Chain.

(** ** A concrete deployment, used to exercise the statements *)

Module Scenario.
Import ProposalVoting Chain.

Definition alice : Z := 1001.
Definition bob : Z := 1002.
Definition carol : Z := 1003.
Definition registryAddress : Z := 500.
Definition tokenAddress : Z := 600.
Definition votingAddress : Z := 700.

Definition at_ (sender time : Z) : Env :=
  {| msg_sender := sender; block_timestamp := time |}.

Definition emptyRegistry : BlacklistRegistry.Storage :=
  {| BlacklistRegistry.blacklistedURLs := ∅;
     BlacklistRegistry.blacklistedAddresses := ∅;
     BlacklistRegistry.proposalVotingContract := votingAddress;
     BlacklistRegistry.owner := alice |}.

Definition genesis : World :=
  {| this := votingAddress; pv := zeroStorage;
     registries := {[ registryAddress := emptyRegistry ]};
     tokens := {[ tokenAddress := {[ alice := 1000; bob := 200 ]} ]} |}.

(** Alice deploys: minimum period 3600 s, one yes vote, 51 %, 100 tokens. *)
Definition deployed : World :=
  match constructor (at_ alice 1000) registryAddress tokenAddress 3600 1 51 100 genesis with
  | Ok (_, w, _) => w
  | Fail _ => genesis
  end.

Definition proposed : World :=
  transact (at_ bob 1100)
    (CreateProposal AddURL "https://scam.example" 0 "phishing site" 60) deployed.

Definition voted_once : World := transact (at_ bob 1200) (Vote 1 true) proposed.

Definition resolved : World :=
  transact (at_ carol 5000) (EndProposalAndExecute 1) voted_once.

Definition executed : World :=
  transact (at_ alice 5100) (ExecuteApprovedProposal 1) resolved.

(** The three transactions that lead from [deployed] to [resolved]. *)
Definition history : list (Env * Call) :=
  [(at_ bob 1100, CreateProposal AddURL "https://scam.example" 0 "phishing site" 60);
   (at_ bob 1200, Vote 1 true);
   (at_ carol 5000, EndProposalAndExecute 1)].

(** The registry after the execution. *)
Definition listedRegistry : BlacklistRegistry.Storage :=
  default emptyRegistry (registries executed !! registryAddress).

(** One yes and one no: 50 % of two voters, below the 51 % required. *)
Definition tied : World :=
  transact (at_ alice 5000) (EndProposalAndExecute 1)
    (transact (at_ carol 1250) (Vote 1 false) voted_once).

(** The owner proposes to remove a URL that was never listed; the proposal
    is approved. *)
Definition removal_approved : World :=
  transact (at_ carol 5000) (EndProposalAndExecute 1)
    (transact (at_ bob 1200) (Vote 1 true)
       (transact (at_ alice 1100)
          (CreateProposal RemoveURL "https://never-listed.example" 0 "appeal" 3600)
          deployed)).

(** A second proposal for the same URL, approved after the first one was
    executed: its execution meets a URL that is already blacklisted. *)
Definition approved_again : World :=
  transact (at_ carol 9000) (EndProposalAndExecute 2)
    (transact (at_ alice 5300) (Vote 2 true)
       (transact (at_ bob 5200)
          (CreateProposal AddURL "https://scam.example" 0 "reported again" 3600)
          executed)).

End Scenario.

(** ** blockchainIndexer.js: the event handlers and the mirror they maintain *)

Module Indexer.

(** A JavaScript [Date], as milliseconds since the epoch. *)
Definition MAX_DATE_MS : Z := 8640000000000000.

(** What a handler reads besides the event: the wall clock ([new Date()], also
    the instant Mongoose stamps on the documents it writes) and the provider
    ([provider.getBlock(n)]: the timestamp of block [n], [None] for [null]). *)
Record Runtime : Type := { now : Z; getBlock : Z -> option Z }.

(** [toDate]: seconds to a [Date]; a missing timestamp, or one whose [Date]
    is invalid (beyond the range of the time value), is replaced by the
    current date.  [Number(t) * 1000] is exact on the range of valid dates. *)
Definition toDate (rt : Runtime) (timestampInSeconds : option Z) : Z :=
  match timestampInSeconds with
  | None => now rt
  | Some t =>
      let ms := t * 1000 in
      if decide (- MAX_DATE_MS <= ms ∧ ms <= MAX_DATE_MS) then ms else now rt
  end.

(** Documents of the three collections.  The schemas are declared with
    [timestamps: true]: Mongoose adds [createdAt] and [updatedAt]. *)
Record BlacklistEntryDoc : Type := {
  be_type : string;
  be_value : string;
  be_proposer : string;
  be_timestamp : Z;
  be_isActive : bool;
  be_createdAt : Z;
  be_updatedAt : Z
}.

Record ProposalDoc : Type := {
  p_proposalId : Z;
  p_proposalType : string;
  p_urlValue : string;
  p_addressValue : string;
  p_description : string;
  p_creationTimestamp : Z;
  p_votingPeriodEnd : Z;
  p_proposer : string;
  p_yesVotes : Z;
  p_noVotes : Z;
  p_totalVoters : Z;
  p_status : string;
  p_createdAt : Z;
  p_updatedAt : Z
}.

Record VoteDoc : Type := {
  v_proposalId : Z;
  v_voter : string;
  v_support : bool;
  v_timestamp : Z;
  v_createdAt : Z;
  v_updatedAt : Z
}.

Record Mirror : Type := {
  blacklistEntries : list BlacklistEntryDoc;
  proposalDocs : list ProposalDoc;
  voteDocs : list VoteDoc
}.

(** [Model.findOneAndUpdate(filter, update, options)]: the first document the
    filter matches is updated; when none matches, the document [upsert] is
    inserted if the options ask for it ([upsert: true]). *)
Fixpoint updateFirst {D} (filter : D -> bool) (update : D -> D) (c : list D)
    : option (list D) :=
  match c with
  | [] => None
  | d :: rest =>
      if filter d then Some (update d :: rest)
      else option_map (cons d) (updateFirst filter update rest)
  end.

Definition findOneAndUpdate {D} (filter : D -> bool) (update : D -> D)
    (upsert : option D) (c : list D) : list D :=
  match updateFirst filter update c with
  | Some c' => c'
  | None => match upsert with Some d => c ++ [d] | None => c end
  end.

Definition statusMap (st : ProposalStatus) : string :=
  match st with
  | Active => "Active" | Approved => "Approved"
  | Rejected => "Rejected" | Executed => "Executed"
  end.

Definition proposalTypeMap (t : ProposalType) : string :=
  match t with
  | AddURL => "AddURL" | AddAddress => "AddAddress"
  | RemoveURL => "RemoveURL" | RemoveAddress => "RemoveAddress"
  end.

(** JavaScript numbers are doubles: the integers up to [2 ^ 53] in absolute
    value are all numbers; beyond, a number has 53 significant bits. *)
Definition MAX_SAFE_INTEGER : Z := 2 ^ 53 - 1.

(** [Number(x)] of an integer [x] (the handlers receive the [uint256] values
    of an event as bigints): the nearest number, the one with the even
    mantissa when two are as near.  The values of an event are below
    [2 ^ 256], far from the largest number. *)
Definition toNumber (x : Z) : Z :=
  let a := Z.abs x in
  if decide (a <= 2 ^ 53) then x
  else
    let ulp := 2 ^ (Z.log2 a - 52) in
    let q := a / ulp in
    let r := a mod ulp in
    let down := q * ulp in
    let nearest :=
      if decide (2 * r < ulp) then down
      else if decide (ulp < 2 * r) then down + ulp
      else if Z.even q then down else down + ulp in
    Z.sgn x * nearest.

(** The sum of two numbers that hold integers: the exact sum, rounded. *)
Definition numberAdd (a b : Z) : Z := toNumber (a + b).

(** The count the [VoteCast] handler stores as [totalVoters]:
    [Number(_yesVotes) + Number(_noVotes)]. *)
Definition voteCastTotalVoters (_yesVotes _noVotes : Z) : Z :=
  numberAdd (toNumber _yesVotes) (toNumber _noVotes).

Section Handlers.

(** How ethers renders an address in an event (a hexadecimal string). *)
Variable addressString : Z -> string.

Definition onEntryAdded (rt : Runtime) (_type : EntryType) (_value : string)
    (_address _timestamp _proposer : Z) (db : Mirror) : Mirror :=
  let entryType := match _type with URL => "URL" | Address => "Address" end in
  let value := if String.eqb entryType "URL" then _value else addressString _address in
  let written (created : Z) :=
    {| be_type := entryType; be_value := value;
       be_proposer := addressString _proposer;
       be_timestamp := toDate rt (Some _timestamp);
       be_isActive := true;
       be_createdAt := created; be_updatedAt := now rt |} in
  {| blacklistEntries :=
       findOneAndUpdate (fun d => String.eqb (be_value d) value)
         (fun d => written (be_createdAt d)) (Some (written (now rt)))
         (blacklistEntries db);
     proposalDocs := proposalDocs db;
     voteDocs := voteDocs db |}.

Definition onEntryRemoved (rt : Runtime) (_type : EntryType) (_value : string)
    (_address _timestamp _remover : Z) (db : Mirror) : Mirror :=
  let entryType := match _type with URL => "URL" | Address => "Address" end in
  let value := if String.eqb entryType "URL" then _value else addressString _address in
  {| blacklistEntries :=
       findOneAndUpdate (fun d => String.eqb (be_value d) value)
         (fun d =>
            {| be_type := be_type d; be_value := be_value d;
               be_proposer := be_proposer d;
               be_timestamp := toDate rt (Some _timestamp);
               be_isActive := false;
               be_createdAt := be_createdAt d; be_updatedAt := now rt |})
         None (blacklistEntries db);
     proposalDocs := proposalDocs db;
     voteDocs := voteDocs db |}.

Definition onProposalCreated (rt : Runtime) (proposalId : Z) (_type : ProposalType)
    (_url : string) (_address : Z) (_description : string) (_proposer : Z)
    (_creationTimestamp _votingPeriodEnd : Z) (db : Mirror) : Mirror :=
  let proposalType := proposalTypeMap _type in
  let written (created : Z) :=
    {| p_proposalId := toNumber proposalId; p_proposalType := proposalType;
       p_urlValue := _url; p_addressValue := addressString _address;
       p_description := _description;
       p_creationTimestamp := toDate rt (Some _creationTimestamp);
       p_votingPeriodEnd := toDate rt (Some _votingPeriodEnd);
       p_proposer := addressString _proposer;
       p_yesVotes := 0; p_noVotes := 0; p_totalVoters := 0;
       p_status := "Active";
       p_createdAt := created; p_updatedAt := now rt |} in
  {| blacklistEntries := blacklistEntries db;
     proposalDocs :=
       findOneAndUpdate (fun d => Z.eqb (p_proposalId d) (toNumber proposalId))
         (fun d => written (p_createdAt d)) (Some (written (now rt)))
         (proposalDocs db);
     voteDocs := voteDocs db |}.

(** The timestamp of a vote: that of the block of the event when the event
    carries a block number and the provider knows the block, else the current
    date.  [blockNumber] is [event.log.blockNumber], [None] when the log is
    missing; the number 0 is falsy. *)
Definition voteTimestamp (rt : Runtime) (blockNumber : option Z) : Z :=
  match blockNumber with
  | Some n =>
      if decide (n ≠ 0) then
        match getBlock rt n with
        | Some t => toDate rt (Some t)
        | None => now rt
        end
      else now rt
  | None => now rt
  end.

Definition onVoteCast (rt : Runtime) (proposalId voter : Z) (_support : bool)
    (_yesVotes _noVotes : Z) (blockNumber : option Z) (db : Mirror) : Mirror :=
  let pId := toNumber proposalId in
  let voteTimestamp := voteTimestamp rt blockNumber in
  let written (created : Z) :=
    {| v_proposalId := pId; v_voter := addressString voter; v_support := _support;
       v_timestamp := voteTimestamp;
       v_createdAt := created; v_updatedAt := now rt |} in
  {| blacklistEntries := blacklistEntries db;
     proposalDocs :=
       findOneAndUpdate (fun d => Z.eqb (p_proposalId d) pId)
         (fun d =>
            {| p_proposalId := p_proposalId d; p_proposalType := p_proposalType d;
               p_urlValue := p_urlValue d; p_addressValue := p_addressValue d;
               p_description := p_description d;
               p_creationTimestamp := p_creationTimestamp d;
               p_votingPeriodEnd := p_votingPeriodEnd d;
               p_proposer := p_proposer d;
               p_yesVotes := toNumber _yesVotes; p_noVotes := toNumber _noVotes;
               p_totalVoters := voteCastTotalVoters _yesVotes _noVotes;
               p_status := p_status d;
               p_createdAt := p_createdAt d; p_updatedAt := now rt |})
         None (proposalDocs db);
     voteDocs :=
       findOneAndUpdate
         (fun d => Z.eqb (v_proposalId d) pId && String.eqb (v_voter d) (addressString voter))
         (fun d => written (v_createdAt d)) (Some (written (now rt)))
         (voteDocs db) |}.

Definition onProposalStatusUpdated (rt : Runtime) (proposalId : Z)
    (_oldStatus _newStatus : ProposalStatus) (db : Mirror) : Mirror :=
  let newStatus := statusMap _newStatus in
  {| blacklistEntries := blacklistEntries db;
     proposalDocs :=
       findOneAndUpdate (fun d => Z.eqb (p_proposalId d) (toNumber proposalId))
         (fun d =>
            {| p_proposalId := p_proposalId d; p_proposalType := p_proposalType d;
               p_urlValue := p_urlValue d; p_addressValue := p_addressValue d;
               p_description := p_description d;
               p_creationTimestamp := p_creationTimestamp d;
               p_votingPeriodEnd := p_votingPeriodEnd d;
               p_proposer := p_proposer d;
               p_yesVotes := p_yesVotes d; p_noVotes := p_noVotes d;
               p_totalVoters := p_totalVoters d;
               p_status := newStatus;
               p_createdAt := p_createdAt d; p_updatedAt := now rt |})
         None (proposalDocs db);
     voteDocs := voteDocs db |}.

(** The [ProposalExecuted] handler only logs. *)
Definition onProposalExecuted (rt : Runtime) (proposalId : Z) (_type : ProposalType)
    (_url : string) (_address executor : Z) (db : Mirror) : Mirror := db.

(** The subscription: an event goes to the handler registered for its name;
    the other events have no handler. *)
Definition handle (rt : Runtime) (e : Event) (blockNumber : option Z) (db : Mirror)
    : Mirror :=
  match e with
  | EntryAdded t v a ts p => onEntryAdded rt t v a ts p db
  | EntryRemoved t v a ts r => onEntryRemoved rt t v a ts r db
  | ProposalCreated i t u a d p c e' => onProposalCreated rt i t u a d p c e' db
  | VoteCast i v s y n => onVoteCast rt i v s y n blockNumber db
  | ProposalStatusUpdated i o n => onProposalStatusUpdated rt i o n db
  | ProposalExecuted i t u a x => onProposalExecuted rt i t u a x db
  | _ => db
  end.

End Handlers.

(** An address as a hexadecimal string of 40 digits.  (ethers writes some of
    the letters in upper case, as a checksum.) *)
Definition hexDigit (z : Z) : ascii :=
  match z with
  | 0 => "0" | 1 => "1" | 2 => "2" | 3 => "3" | 4 => "4" | 5 => "5" | 6 => "6"
  | 7 => "7" | 8 => "8" | 9 => "9" | 10 => "a" | 11 => "b" | 12 => "c"
  | 13 => "d" | 14 => "e" | _ => "f"
  end%char.

Fixpoint hexDigits (n : nat) (a : Z) (acc : string) : string :=
  match n with
  | O => acc
  | S n' => hexDigits n' (a / 16) (String (hexDigit (a mod 16)) acc)
  end.

Definition hexAddress (a : Z) : string := "0x" ++ hexDigits 40 a "".

(** A timestamp in seconds whose [Date] is valid. *)
Definition valid_seconds (t : Z) : Prop :=
  - MAX_DATE_MS <= t * 1000 ∧ t * 1000 <= MAX_DATE_MS.

(** The dates a handler stores are fixed by the event: every timestamp of the
    payload is valid and, for [VoteCast], the provider returns the block of
    the event, with a valid timestamp, to both applications. *)
Definition dates_determined (rt1 rt2 : Runtime) (e : Event) (blockNumber : option Z)
    : Prop :=
  match e with
  | EntryAdded _ _ _ ts _ | EntryRemoved _ _ _ ts _ => valid_seconds ts
  | ProposalCreated _ _ _ _ _ _ c e' => valid_seconds c ∧ valid_seconds e'
  | VoteCast _ _ _ _ _ =>
      ∃ n t, blockNumber = Some n ∧ n ≠ 0 ∧ getBlock rt1 n = Some t ∧
             getBlock rt2 n = Some t ∧ valid_seconds t
  | _ => True
  end.

Definition mapMirror (fe : BlacklistEntryDoc -> BlacklistEntryDoc)
    (fp : ProposalDoc -> ProposalDoc) (fv : VoteDoc -> VoteDoc) (db : Mirror) : Mirror :=
  {| blacklistEntries := map fe (blacklistEntries db);
     proposalDocs := map fp (proposalDocs db);
     voteDocs := map fv (voteDocs db) |}.

Definition forgetEntry (d : BlacklistEntryDoc) : BlacklistEntryDoc :=
  {| be_type := be_type d; be_value := be_value d; be_proposer := be_proposer d;
     be_timestamp := be_timestamp d; be_isActive := be_isActive d;
     be_createdAt := be_createdAt d; be_updatedAt := 0 |}.

Definition forgetProposal (d : ProposalDoc) : ProposalDoc :=
  {| p_proposalId := p_proposalId d; p_proposalType := p_proposalType d;
     p_urlValue := p_urlValue d; p_addressValue := p_addressValue d;
     p_description := p_description d;
     p_creationTimestamp := p_creationTimestamp d;
     p_votingPeriodEnd := p_votingPeriodEnd d; p_proposer := p_proposer d;
     p_yesVotes := p_yesVotes d; p_noVotes := p_noVotes d;
     p_totalVoters := p_totalVoters d; p_status := p_status d;
     p_createdAt := p_createdAt d; p_updatedAt := 0 |}.

Definition forgetVote (d : VoteDoc) : VoteDoc :=
  {| v_proposalId := v_proposalId d; v_voter := v_voter d;
     v_support := v_support d; v_timestamp := v_timestamp d;
     v_createdAt := v_createdAt d; v_updatedAt := 0 |}.

(** The mirror without the [updatedAt] stamps. *)
Definition forget_updatedAt (db : Mirror) : Mirror :=
  mapMirror forgetEntry forgetProposal forgetVote db.

(** Two ways to compare mirrors: document by document as they are, or
    without the [updatedAt] stamps. *)
Definition compares_exactly (fe : BlacklistEntryDoc -> BlacklistEntryDoc)
    (fp : ProposalDoc -> ProposalDoc) (fv : VoteDoc -> VoteDoc) : Prop :=
  fe = Datatypes.id ∧ fp = Datatypes.id ∧ fv = Datatypes.id.

Definition compares_forgetting (fe : BlacklistEntryDoc -> BlacklistEntryDoc)
    (fp : ProposalDoc -> ProposalDoc) (fv : VoteDoc -> VoteDoc) : Prop :=
  fe = forgetEntry ∧ fp = forgetProposal ∧ fv = forgetVote.

Definition emptyMirror : Mirror :=
  {| blacklistEntries := []; proposalDocs := []; voteDocs := [] |}.

(** Two readings of the clock, one second apart, with a provider that has no
    block. *)
Definition firstDelivery : Runtime := {| now := 1700000100000; getBlock := fun _ => None |}.
Definition secondDelivery : Runtime := {| now := 1700000101000; getBlock := fun _ => None |}.

End Indexer.

(** ** routes/data.js: the read endpoints over the mirror *)

Module ReadApi.
Import Indexer.

(** [Model.findOne(filter)]: the first document the filter matches. *)
Definition findOne {D} (filter : D -> bool) (c : list D) : option D :=
  List.find filter c.

Inductive Response (A : Type) : Type :=
| Status200 (body : A)
| Status400 (message : string)
| Status404 (message : string).
Arguments Status200 {A} body.
Arguments Status400 {A} message.
Arguments Status404 {A} message.

(** The body of [GET /api/blacklist/check]. *)
Inductive CheckBody : Type :=
| IsBlacklisted (entry : BlacklistEntryDoc)
| NotBlacklisted.

(** A query parameter is truthy when it is present and not the empty string. *)
Definition truthy (q : option string) : option string :=
  match q with
  | Some v => if String.eqb v "" then None else Some v
  | None => None
  end.

(** A word between double quotes. *)
Definition quoted (word : string) : string :=
  (String (ascii_of_nat 34) word ++ String (ascii_of_nat 34) EmptyString)%string.

(** [GET /api/blacklist/check?url=...] or [?address=...]. *)
Definition blacklistCheck (url address : option string) (db : Mirror)
    : Response CheckBody :=
  let lookup (type value : string) :=
    findOne (fun d => String.eqb (be_type d) type && String.eqb (be_value d) value
                      && Bool.eqb (be_isActive d) true)
      (blacklistEntries db) in
  match truthy url with
  | Some u =>
      match lookup "URL" u with
      | Some entry => Status200 (IsBlacklisted entry)
      | None => Status200 NotBlacklisted
      end
  | None =>
      match truthy address with
      | Some a =>
          match lookup "Address" a with
          | Some entry => Status200 (IsBlacklisted entry)
          | None => Status200 NotBlacklisted
          end
      | None =>
          Status400 ("Please provide either a " ++ quoted "url" ++ " or an "
                     ++ quoted "address" ++ " to check.")%string
      end
  end.

(** [GET /api/proposals/:id], from the result of [parseInt(req.params.id)] on
    ([None] is [NaN]). *)
Definition getProposalById (proposalId : option Z) (db : Mirror) : Response ProposalDoc :=
  match proposalId with
  | None => Status400 "Invalid proposal ID"
  | Some i =>
      if decide (i <= 0) then Status400 "Invalid proposal ID"
      else
        match findOne (fun d => Z.eqb (p_proposalId d) i) (proposalDocs db) with
        | None => Status404 "Proposal not found"
        | Some proposal => Status200 proposal
        end
  end.

(** [sort({ timestamp: 1 })]: the order of the votes, the oldest first. *)
Definition olderFirst (a b : VoteDoc) : Prop := v_timestamp a <= v_timestamp b.

Global Instance olderFirst_dec : RelDecision olderFirst.
Proof. intros a b. unfold olderFirst. apply _. Defined.


End ReadApi.

(** ** routes/faucet.js: the claim of free tokens *)

Module Faucet.

Record FaucetClaimDoc : Type := {
  fc_userAddress : string;
  fc_amount : string;
  fc_txHash : string;
  fc_timestamp : Z
}.

(** [FAUCET_COOLDOWN_MS], from the result of [parseInt] on the configured
    number of hours ([None] is [NaN]). *)
Definition FAUCET_COOLDOWN_MS (FAUCET_COOLDOWN_HOURS : option Z) : option Z :=
  option_map (fun hours => hours * 60 * 60 * 1000) FAUCET_COOLDOWN_HOURS.

(** What a request reads besides the collection of claims: the address
    check of ethers, whether the minter wallet and the contract are
    initialised, the clock ([Date.now()] in the cooldown check and in the
    message, [new Date()] when the claim is logged) and the outcome of
    [mint] and [tx.wait()] (the hash of the transaction, [None] when one of
    them throws). *)
Record Request : Type := {
  isAddress : string -> bool;
  ready : bool;
  checkedAt : Z;
  messageAt : Z;
  minted : option string;
  loggedAt : Z
}.

Inductive Response : Type :=
| Status200 (txHash : string)
| Status400
| Status429 (hoursLeft : Z)
| Status500.

(** [FaucetClaim.findOne({ userAddress }).sort({ timestamp: -1 })]: a claim
    of the address with the greatest timestamp. *)
Fixpoint lastClaim (userAddress : string) (db : list FaucetClaimDoc)
    : option FaucetClaimDoc :=
  match db with
  | [] => None
  | d :: rest =>
      if String.eqb (fc_userAddress d) userAddress then
        match lastClaim userAddress rest with
        | Some d' => if decide (fc_timestamp d < fc_timestamp d') then Some d' else Some d
        | None => Some d
        end
      else lastClaim userAddress rest
  end.

(** [Math.ceil(timeLeft / (1000 * 60 * 60))]. *)
Definition hoursLeft (timeLeft : Z) : Z := - ((- timeLeft) / (1000 * 60 * 60)).

(** [POST /api/faucet/claim], one request that passed the rate limiter,
    handled from start to end: [userAddress] is the field of the body, [None]
    when it is missing or not a string.  The hash of a logged claim is
    unique: [create] fails on a hash that is already there. *)
Definition claim (FAUCET_COOLDOWN_HOURS : option Z) (FAUCET_AMOUNT_APGT : string)
    (rq : Request) (userAddress : option string) (db : list FaucetClaimDoc)
    : Response * list FaucetClaimDoc :=
  match userAddress with
  | None => (Status400, db)
  | Some userAddress =>
      if String.eqb userAddress "" || negb (isAddress rq userAddress) then (Status400, db)
      else if negb (ready rq) then (Status500, db)
      else
        let cooling :=
          match lastClaim userAddress db, FAUCET_COOLDOWN_MS FAUCET_COOLDOWN_HOURS with
          | Some lastClaim, Some cooldown =>
              if decide (checkedAt rq - fc_timestamp lastClaim < cooldown)
              then Some (cooldown - (messageAt rq - fc_timestamp lastClaim))
              else None
          | _, _ => None
          end in
        match cooling with
        | Some timeLeft => (Status429 (hoursLeft timeLeft), db)
        | None =>
            match minted rq with
            | None => (Status500, db)
            | Some txHash =>
                if existsb (fun d => String.eqb (fc_txHash d) txHash) db
                then (Status500, db)
                else
                  (Status200 txHash,
                   db ++ [{| fc_userAddress := userAddress;
                             fc_amount := FAUCET_AMOUNT_APGT;
                             fc_txHash := txHash;
                             fc_timestamp := loggedAt rq |}])
            end
        end
  end.

(** The claims of one address are at least [cooldown] apart, in the order
    they were logged. *)
Definition spaced (cooldown : Z) (db : list FaucetClaimDoc) : Prop :=
  ∀ i j d d', (i < j)%nat -> db !! i = Some d -> db !! j = Some d' ->
    fc_userAddress d = fc_userAddress d' ->
    fc_timestamp d + cooldown <= fc_timestamp d'.

End Faucet.

(** ** CreateProposalPage.jsx: the voting duration the form sends *)

Module CreateProposalPage.

(** JavaScript numbers are exact on the integers up to [2 ^ 53]. *)
Definition MAX_SAFE_INTEGER : Z := 2 ^ 53 - 1.

(** [convertToSeconds(value, unit)], from the result of [parseInt(value)] on
    ([None] is [NaN]). *)
Definition convertToSeconds (numValue : option Z) (unit : string) : Z :=
  match numValue with
  | None => 0
  | Some numValue =>
      if decide (numValue <= 0) then 0
      else if String.eqb unit "minutes" then numValue * 60
      else if String.eqb unit "hours" then numValue * 60 * 60
      else if String.eqb unit "days" then numValue * 24 * 60 * 60
      else 0
  end.

(** [effectiveVotingDuration]: [minVotingPeriodContract] is the value read
    from the contract, [None] while it is not loaded; [0n] is falsy. *)
Definition effectiveVotingDuration (minVotingPeriodContract : option Z)
    (userChosenDurationInSeconds : Z) : Z :=
  match minVotingPeriodContract with
  | Some m =>
      if decide (m ≠ 0 ∧ userChosenDurationInSeconds < m) then m
      else userChosenDurationInSeconds
  | None => userChosenDurationInSeconds
  end.

(** The duration [handleSubmitProposal] passes to [createProposal]; [None]
    when the form refuses the duration. *)
Definition submittedDuration (minVotingPeriodContract : option Z)
    (numValue : option Z) (unit : string) : option Z :=
  let userChosenDurationInSeconds := convertToSeconds numValue unit in
  if decide (userChosenDurationInSeconds <= 0) then None
  else Some (effectiveVotingDuration minVotingPeriodContract userChosenDurationInSeconds).

End CreateProposalPage.

(** ** Predicates of the further properties *)

Module Ledger.
Import ProposalVoting Chain Indexer.

(** The fields of a proposal that are written at creation only. *)
Definition static_fields (p : Proposal)
    : Z * ProposalType * string * Z * string * Z * Z * Z :=
  (id p, proposalType p, urlValue p, addressValue p, description p,
   creationTimestamp p, votingPeriodEnd p, proposer p).

(** What [createProposal] checks of a proposal before it stores it under [i]. *)
Definition well_formed_proposal (i : Z) (p : Proposal) : Prop :=
  id p = i ∧
  0 < Z.of_nat (String.length (description p)) ∧
  creationTimestamp p < votingPeriodEnd p ∧
  match proposalType p with
  | AddURL | RemoveURL =>
      0 < Z.of_nat (String.length (urlValue p)) ∧ addressValue p = 0
  | AddAddress | RemoveAddress =>
      addressValue p ≠ 0 ∧ Z.of_nat (String.length (urlValue p)) = 0
  end.

Definition well_formed (s : Storage) : Prop :=
  nextProposalId s <= MAX_UINT256 ∧
  0 < minVotingPeriod s ∧
  0 < approvalMajorityPercentage s <= 100 ∧
  ∀ i, 0 < i < nextProposalId s ->
    ∃ p, proposals s !! i = Some p ∧ well_formed_proposal i p.

(** The storage of the voting contract after a successful call. *)
Definition pv_after (env : Env) (c : Call) (s : Storage) : Storage :=
  match c with
  | CreateProposal t u a d n =>
      set_proposals (insert (nextProposalId s) (created env t u a d n s))
        (set_nextProposalId (nextProposalId s + 1) s)
  | Vote i b => set_proposals (insert i (voted env b (proposalAt s i))) s
  | EndProposalAndExecute i =>
      set_proposals
        (insert i (with_status
                     (spec_decision (yesVotes (proposalAt s i))
                        (totalVoters (proposalAt s i))
                        (minVotesForApproval s) (approvalMajorityPercentage s))
                     (proposalAt s i))) s
  | ExecuteApprovedProposal i =>
      set_proposals (insert i (with_status Executed (proposalAt s i))) s
  | UpdateBlacklistRegistry a => set_blacklistRegistry a s
  | UpdateVotingParameters p v m => set_votingParameters p v m s
  | UpdateMinProposerTokenHoldings n => set_minProposerTokenHoldings n s
  | TransferOwnership a => set_owner a s
  | Registry _ _ | TokenActivity _ _ => s
  end.

(** What a call of the voting contract requires of the caller, of its
    arguments and of the world in order to succeed. *)
Definition guards (env : Env) (c : Call) (w : World) : Prop :=
  let s := pv w in
  match c with
  | CreateProposal t u a d n =>
      0 < Z.of_nat (String.length d) ∧ 0 < n ∧
      (t = AddURL ∨ t = AddAddress ->
         ∃ balances, tokens w !! governanceTokenContract s = Some balances ∧
           minProposerTokenHoldings s <= default 0 (balances !! msg_sender env)) ∧
      (t = RemoveURL ∨ t = RemoveAddress -> msg_sender env = owner s) ∧
      nextProposalId s + 1 <= MAX_UINT256 ∧
      block_timestamp env + Z.max n (minVotingPeriod s) <= MAX_UINT256 ∧
      match t with
      | AddURL | RemoveURL => 0 < Z.of_nat (String.length u) ∧ a = 0
      | AddAddress | RemoveAddress => a ≠ 0 ∧ Z.of_nat (String.length u) = 0
      end
  | Vote i b =>
      0 < i < nextProposalId s ∧ status (proposalAt s i) = Active ∧
      block_timestamp env < votingPeriodEnd (proposalAt s i) ∧
      (msg_sender env ∉ hasVoted (proposalAt s i))
  | EndProposalAndExecute i =>
      0 < i < nextProposalId s ∧ status (proposalAt s i) = Active ∧
      votingPeriodEnd (proposalAt s i) <= block_timestamp env
  | ExecuteApprovedProposal i =>
      msg_sender env = owner s ∧ 0 < i < nextProposalId s ∧
      status (proposalAt s i) = Approved
  | UpdateBlacklistRegistry a =>
      msg_sender env = owner s ∧ a ≠ 0 ∧ a ≠ blacklistRegistry s
  | UpdateVotingParameters p v m =>
      msg_sender env = owner s ∧ 0 < p ∧ 0 < m <= 100
  | UpdateMinProposerTokenHoldings n => msg_sender env = owner s
  | TransferOwnership a => msg_sender env = owner s ∧ a ≠ 0 ∧ a ≠ owner s
  | Registry _ _ | TokenActivity _ _ => True
  end.

(** The calls of the voting contract that only its owner may make. *)
Definition owner_only (c : Call) : Prop :=
  match c with
  | ExecuteApprovedProposal _ | UpdateBlacklistRegistry _
  | UpdateVotingParameters _ _ _ | UpdateMinProposerTokenHoldings _
  | TransferOwnership _ => True
  | _ => False
  end.

(** The identifiers [1 .. nextProposalId - 1], in order. *)
Definition existing_ids (s : Storage) : list Z := seqZ 1 (nextProposalId s - 1).

(** The registries that the constructor and the calls of the entry points
    produce. *)
Inductive registry_reachable : BlacklistRegistry.Storage -> Prop :=
| registry_constructed (env : Env) (_proposalVotingContract : Z)
    (s : BlacklistRegistry.Storage) :
    BlacklistRegistry.constructor env _proposalVotingContract = Ok s ->
    registry_reachable s
| registry_called (env : Env) (c : RegistryCall) (s s' : BlacklistRegistry.Storage)
    (u : unit) (evs : list Event) :
    registry_reachable s ->
    registry_entry env c s = Ok (u, s', evs) ->
    registry_reachable s'.

(** The entry points of a registry that write the blacklist. *)
Definition changes_blacklist (c : RegistryCall) : Prop :=
  match c with
  | RegistryAddURL _ _ | RegistryAddAddress _ _
  | RegistryRemoveURL _ _ | RegistryRemoveAddress _ _ => True
  | _ => False
  end.

Definition registry_well_formed (s : BlacklistRegistry.Storage) : Prop :=
  BlacklistRegistry.proposalVotingContract s ≠ 0 ∧
  (∀ u e, BlacklistRegistry.blacklistedURLs s !! u = Some e ->
     BlacklistRegistry.exists_ e = true ∧ BlacklistRegistry.entryType e = URL ∧
     BlacklistRegistry.proposer e ≠ 0 ∧ 0 < Z.of_nat (String.length u)) ∧
  (∀ a e, BlacklistRegistry.blacklistedAddresses s !! a = Some e ->
     BlacklistRegistry.exists_ e = true ∧ BlacklistRegistry.entryType e = Address ∧
     BlacklistRegistry.proposer e ≠ 0 ∧ a ≠ 0).

(** Runs a list of transactions and collects the events of the successful
    ones, in order. *)
Fixpoint run_log (txs : list (Env * Call)) (w : World) : World * list Event :=
  match txs with
  | [] => (w, [])
  | (env, c) :: rest =>
      match exec env c w with
      | Ok (_, w', evs) => let '(w'', log) := run_log rest w' in (w'', evs ++ log)
      | Fail _ => run_log rest w
      end
  end.

(** One delivery of an event to the indexer. *)
Record Delivery : Type := {
  d_runtime : Runtime;
  d_event : Event;
  d_blockNumber : option Z
}.

(** The mirror after the deliveries, when every handler finishes before the
    next one starts. *)
Definition replay (addressString : Z -> string) (ds : list Delivery) (db : Mirror)
    : Mirror :=
  fold_left
    (fun db d => handle addressString (d_runtime d) (d_event d) (d_blockNumber d) db)
    ds db.

(** The listeners are asynchronous functions and the subscription does not
    wait for them: a handler that was started writes when its awaits resolve,
    and the handler of a later event may write before.  A handler writes each
    collection at most once, and what it writes to a collection depends on
    that collection only: [write] is the write of the handler of a delivery
    to one collection, at the instant it lands. *)
Inductive Collection : Type := Entries | Proposals | Votes.

Definition write (addressString : Z -> string) (d : Delivery) (c : Collection)
    (db : Mirror) : Mirror :=
  let handled := handle addressString (d_runtime d) (d_event d) (d_blockNumber d) db in
  match c with
  | Entries =>
      {| blacklistEntries := blacklistEntries handled;
         proposalDocs := proposalDocs db; voteDocs := voteDocs db |}
  | Proposals =>
      {| blacklistEntries := blacklistEntries db;
         proposalDocs := proposalDocs handled; voteDocs := voteDocs db |}
  | Votes =>
      {| blacklistEntries := blacklistEntries db;
         proposalDocs := proposalDocs db; voteDocs := voteDocs handled |}
  end.

(** The mirror after the writes of a schedule landed, in the order of the
    schedule. *)
Definition settle (addressString : Z -> string) (schedule : list (Delivery * Collection))
    (db : Mirror) : Mirror :=
  fold_left (fun db x => write addressString x.1 x.2 db) schedule db.

(** The schedule in which every handler finishes before the next starts. *)
Definition in_order (ds : list Delivery) : list (Delivery * Collection) :=
  ds ≫= fun d => [(d, Entries); (d, Votes); (d, Proposals)].

(** The document of the collection of proposals that the handler of an event
    writes: the one whose [proposalId] is the number of the identifier. *)
Definition written_proposal (e : Event) : option Z :=
  match e with
  | ProposalCreated i _ _ _ _ _ _ _ | VoteCast i _ _ _ _
  | ProposalStatusUpdated i _ _ => Some (toNumber i)
  | _ => None
  end.

Definition about (i : Z) (e : Event) : bool :=
  match written_proposal e with Some k => k =? i | None => false end.

(** The deliveries whose write to the document [i] of the proposals is in the
    schedule, in the order in which they land. *)
Definition proposal_writes (i : Z) (schedule : list (Delivery * Collection))
    : list Delivery :=
  fst <$> List.filter
            (fun x => match x.2 with Proposals => about i (d_event x.1) | _ => false end)
            schedule.





(** The value under which the two registry handlers file an event, and the
    query of [GET /api/blacklist/check] for a value of that type. *)
Definition eventValue (addressString : Z -> string) (t : EntryType) (_value : string)
    (_address : Z) : string :=
  match t with URL => _value | Address => addressString _address end.

Definition checkQuery (t : EntryType) (value : string) (db : Mirror)
    : ReadApi.Response ReadApi.CheckBody :=
  match t with
  | URL => ReadApi.blacklistCheck (Some value) None db
  | Address => ReadApi.blacklistCheck None (Some value) db
  end.



(** The keys of the unique indexes of the three schemas. *)
Definition entryKeys (db : Mirror) : list string := be_value <$> blacklistEntries db.
Definition proposalKeys (db : Mirror) : list Z := p_proposalId <$> proposalDocs db.
Definition voteKeys (db : Mirror) : list (Z * string) :=
  (fun d => (v_proposalId d, v_voter d)) <$> voteDocs db.

Definition unique_keys (db : Mirror) : Prop :=
  NoDup (entryKeys db) ∧ NoDup (proposalKeys db) ∧ NoDup (voteKeys db).




(** The delivery of an event at the first reading of the clock. *)
Definition delivered (e : Event) : Delivery :=
  {| d_runtime := firstDelivery; d_event := e; d_blockNumber := None |}.

(** Two votes on one proposal, and a schedule in which the handler of the
    first vote is the slower one: its writes land after those of the
    second. *)
Definition two_votes : list (Env * Call) :=
  [(Scenario.at_ Scenario.bob 1100,
    CreateProposal AddURL "https://scam.example" 0 "phishing site" 60);
   (Scenario.at_ Scenario.bob 1200, Vote 1 true);
   (Scenario.at_ Scenario.carol 1300, Vote 1 true)].

Definition second_vote_first : list (Delivery * Collection) :=
  match delivered <$> (run_log two_votes Scenario.deployed).2 with
  | [created; first; second] =>
      [(created, Proposals); (second, Votes); (second, Proposals);
       (first, Votes); (first, Proposals)]
  | _ => []
  end.



End Ledger.

(** * Properties *)

Import ProposalVoting Chain.

(** ** Reading the storage after a write *)

Lemma pv_put_proposal i p w :
  pv (put_proposal i p w) = set_proposals (insert i p) (pv w).
Proof. reflexivity. Qed.

Lemma proposalAt_put_eq i p w : proposalAt (pv (put_proposal i p w)) i = p.
Proof. unfold proposalAt. simpl. by rewrite lookup_insert_eq. Qed.

Lemma put_proposal_twice i p q w :
  put_proposal i p (put_proposal i q w) = put_proposal i p w.
Proof.
  unfold put_proposal, set_pv, set_proposals. simpl. by rewrite insert_insert_eq.
Qed.

Lemma proposalAt_insert_eq i p s :
  proposalAt (set_proposals (insert i p) s) i = p.
Proof. unfold proposalAt. simpl. by rewrite lookup_insert_eq. Qed.

Lemma proposal_put_eq i p w : proposal (put_proposal i p w) i = p.
Proof. apply proposalAt_put_eq. Qed.

Global Arguments put_proposal : simpl never.

(** Unfolds the monad in a contract function. *)
Ltac munfold :=
  unfold require, when, checked_add, checked_sub, checked_mul, checked_div,
    storage, update_proposal in *;
  unfold bind, ret, get, modify, fail, emit in *.

(** Resolves a guard of the goal that holds by assumption or by arithmetic. *)
Ltac mtrue :=
  match goal with
  | |- context [decide ?P] => rewrite (decide_True (P := P)) by (done || lia)
  end.

Ltac mclean :=
  rewrite ?put_proposal_twice, ?proposalAt_put_eq, ?proposalAt_insert_eq in *.

(** ** Inversion of a successful computation *)

Section MonadInversion.
Context {S : Type}.

Lemma bind_inv {A B} (c : M S A) (k : A -> M S B) s b s2 evs :
  bind c k s = Ok (b, s2, evs) ->
  ∃ a s1 ev1 ev2, c s = Ok (a, s1, ev1) ∧ k a s1 = Ok (b, s2, ev2) ∧ evs = ev1 ++ ev2.
Proof.
  unfold bind. destruct (c s) as [[[a s1] ev1]|]; [|done].
  destruct (k a s1) as [[[b' s2'] ev2]|] eqn:Hk; [|done].
  intros [= <- <- <-]. by exists a, s1, ev1, ev2.
Qed.

Lemma ret_inv {A} (a : A) (s : S) a' s' evs :
  ret a s = Ok (a', s', evs) -> a' = a ∧ s' = s ∧ evs = [].
Proof. by intros [= <- <- <-]. Qed.

Lemma get_inv (s : S) a s' evs :
  get s = Ok (a, s', evs) -> a = s ∧ s' = s ∧ evs = [].
Proof. by intros [= <- <- <-]. Qed.

Lemma modify_inv (f : S -> S) (s : S) u s' evs :
  modify f s = Ok (u, s', evs) -> s' = f s ∧ evs = [].
Proof. by intros [= <- <-]. Qed.

Lemma emit_inv (e : Event) (s : S) u s' evs :
  emit e s = Ok (u, s', evs) -> s' = s ∧ evs = [e].
Proof. by intros [= <- <-]. Qed.

Lemma fail_inv {A} (f : failure) (s : S) (r : A * S * list Event) :
  fail f s = Ok r -> False.
Proof. done. Qed.

Lemma require_inv (P : Prop) `{Decision P} reason (s : S) u s' evs :
  require P reason s = Ok (u, s', evs) -> P ∧ s' = s ∧ evs = [].
Proof. unfold require. case_decide; [|done]. by intros [= <- <-]. Qed.

Lemma when_inv (P : Prop) `{Decision P} (c : M S unit) (s : S) u s' evs :
  when P c s = Ok (u, s', evs) ->
  (P ∧ c s = Ok (u, s', evs)) ∨ (¬ P ∧ s' = s ∧ evs = []).
Proof. unfold when. case_decide; [by left|]. intros [= <- <-]. by right. Qed.

Lemma checked_add_inv a b (s : S) n s' evs :
  checked_add a b s = Ok (n, s', evs) ->
  a + b <= MAX_UINT256 ∧ n = a + b ∧ s' = s ∧ evs = [].
Proof. unfold checked_add. case_decide; [|done]. by intros [= <- <- <-]. Qed.

Lemma checked_sub_inv a b (s : S) n s' evs :
  checked_sub a b s = Ok (n, s', evs) ->
  b <= a ∧ n = a - b ∧ s' = s ∧ evs = [].
Proof. unfold checked_sub. case_decide; [|done]. by intros [= <- <- <-]. Qed.

Lemma checked_mul_inv a b (s : S) n s' evs :
  checked_mul a b s = Ok (n, s', evs) ->
  a * b <= MAX_UINT256 ∧ n = a * b ∧ s' = s ∧ evs = [].
Proof. unfold checked_mul. case_decide; [|done]. by intros [= <- <- <-]. Qed.

Lemma checked_div_inv a b (s : S) n s' evs :
  checked_div a b s = Ok (n, s', evs) ->
  b ≠ 0 ∧ n = a / b ∧ s' = s ∧ evs = [].
Proof. unfold checked_div. case_decide; [done|]. by intros [= <- <- <-]. Qed.

End MonadInversion.

Lemma storage_inv w s w' evs :
  storage w = Ok (s, w', evs) -> s = pv w ∧ w' = w ∧ evs = [].
Proof. by intros [= <- <- <-]. Qed.

Lemma update_proposal_inv i f w u w' evs :
  update_proposal i f w = Ok (u, w', evs) ->
  w' = put_proposal i (f (proposalAt (pv w) i)) w ∧ evs = [].
Proof. by intros [= <- <-]. Qed.

Lemma balanceOf_inv token account w n w' evs :
  balanceOf token account w = Ok (n, w', evs) -> w' = w ∧ evs = [].
Proof. unfold balanceOf. case_match; [|done]. by intros [= <- <- <-]. Qed.

(** Takes a hypothesis [c s = Ok r] apart along the structure of [c]. *)
Ltac minv1 :=
  match goal with
  | H : bind _ _ _ = Ok _ |- _ =>
      apply bind_inv in H as (? & ? & ? & ? & ? & H & ?)
  | H : ret _ _ = Ok _ |- _ => apply ret_inv in H as (? & ? & ?)
  | H : get _ = Ok _ |- _ => apply get_inv in H as (? & ? & ?)
  | H : storage _ = Ok _ |- _ => apply storage_inv in H as (? & ? & ?)
  | H : modify _ _ = Ok _ |- _ => apply modify_inv in H as (? & ?)
  | H : emit _ _ = Ok _ |- _ => apply emit_inv in H as (? & ?)
  | H : fail _ _ = Ok _ |- _ => destruct (fail_inv _ _ _ H)
  | H : require _ _ _ = Ok _ |- _ => apply require_inv in H as (? & ? & ?)
  | H : when _ _ _ = Ok _ |- _ => apply when_inv in H as [[? H]|(? & ? & ?)]
  | H : checked_add _ _ _ = Ok _ |- _ => apply checked_add_inv in H as (? & ? & ? & ?)
  | H : checked_sub _ _ _ = Ok _ |- _ => apply checked_sub_inv in H as (? & ? & ? & ?)
  | H : checked_mul _ _ _ = Ok _ |- _ => apply checked_mul_inv in H as (? & ? & ? & ?)
  | H : checked_div _ _ _ = Ok _ |- _ => apply checked_div_inv in H as (? & ? & ? & ?)
  | H : update_proposal _ _ _ = Ok _ |- _ => apply update_proposal_inv in H as (? & ?)
  | H : balanceOf _ _ _ = Ok _ |- _ => apply balanceOf_inv in H as (? & ?)
  | H : (if decide ?P then _ else _) _ = Ok _ |- _ => destruct (decide P)
  | H : (if ?b then _ else _) _ = Ok _ |- _ => destruct b
  end.

Ltac minv := repeat (minv1; subst); simpl app in *.

(** ** What a successful call does *)

Lemma vote_inv env i b w u w' evs :
  vote env i b w = Ok (u, w', evs) ->
  let p := proposal w i in
  0 < i < nextProposalId (pv w) ∧ status p = Active ∧
  block_timestamp env < votingPeriodEnd p ∧ (msg_sender env ∉ hasVoted p) ∧
  totalVoters p + 1 <= MAX_UINT256 ∧
  w' = put_proposal i (voted env b p) w ∧
  evs = [VoteCast i (msg_sender env) b (yesVotes (voted env b p))
           (noVotes (voted env b p))].
Proof.
  unfold vote, proposalExists, proposalActive, proposal. intros H. minv;
    mclean; (split_and!; try done; try (cbn in *; lia)).
Qed.

Lemma createProposal_inv env t u a d n w i w' evs :
  createProposal env t u a d n w = Ok (i, w', evs) ->
  i = nextProposalId (pv w) ∧ i + 1 <= MAX_UINT256 ∧
  w' = put_proposal i (created env t u a d n (pv w))
         (set_pv (set_nextProposalId (i + 1)) w) ∧
  evs = [ProposalCreated i t u a d (msg_sender env) (block_timestamp env)
           (votingPeriodEnd (created env t u a d n (pv w)))].
Proof.
  unfold createProposal. intros H. minv; mclean;
    (split_and!; try done; try (cbn in *; lia)).
Qed.

Lemma spec_decision_cases yes total minVotes percentage :
  spec_decision yes total minVotes percentage = Approved ∨
  spec_decision yes total minVotes percentage = Rejected.
Proof. unfold spec_decision. case_decide; auto. Qed.

Lemma endProposalAndExecute_inv env i w u w' evs :
  endProposalAndExecute env i w = Ok (u, w', evs) ->
  let p := proposal w i in
  let st := spec_decision (yesVotes p) (totalVoters p)
              (minVotesForApproval (pv w)) (approvalMajorityPercentage (pv w)) in
  0 < i < nextProposalId (pv w) ∧ status p = Active ∧
  votingPeriodEnd p <= block_timestamp env ∧
  w' = put_proposal i (with_status st p) w ∧
  evs = [ProposalStatusUpdated i Active st].
Proof.
  unfold endProposalAndExecute, proposalExists, proposalReadyToResolve, proposal,
    spec_decision.
  intros H. minv; mclean; (split_and!; try done; try (cbn in *; lia)).
  all: rewrite ?H; simpl;
    first [ rewrite decide_True by tauto | rewrite decide_False by tauto ]; done.
Qed.

Lemma call_registry_inv env target f w u w' evs :
  call_registry env target f w = Ok (u, w', evs) ->
  ∃ r r',
    registries w !! target = Some r ∧
    f {| msg_sender := this w; block_timestamp := block_timestamp env |} r
      = Ok (tt, r', evs) ∧
    w' = set_registries (insert target r') w.
Proof.
  unfold call_registry. intros H.
  destruct (registries w !! target) as [r|]; [|done].
  destruct (f _ r) as [[[[] r'] evs']|] eqn:Hf; [|done].
  injection H as <- <- <-. by exists r, r'.
Qed.

Lemma executeApprovedProposal_inv env i w u w' evs :
  executeApprovedProposal env i w = Ok (u, w', evs) ->
  let p := proposal w i in
  msg_sender env = owner (pv w) ∧ 0 < i < nextProposalId (pv w) ∧
  status p = Approved ∧
  pv w' = set_proposals (insert i (with_status Executed p)) (pv w) ∧
  this w' = this w ∧ tokens w' = tokens w.
Proof.
  unfold executeApprovedProposal, onlyOwner, proposalExists, proposal.
  intros H. minv;
    repeat match goal with
    | H : call_registry _ _ _ _ = Ok _ |- _ =>
        apply call_registry_inv in H as (? & ? & ? & ? & ?); subst
    end; mclean; (split_and!; try done; try (cbn in *; lia)).
Qed.

Lemma updateBlacklistRegistry_inv env a w u w' evs :
  updateBlacklistRegistry env a w = Ok (u, w', evs) ->
  msg_sender env = owner (pv w) ∧ w' = set_pv (set_blacklistRegistry a) w.
Proof. unfold updateBlacklistRegistry, onlyOwner. intros H. by minv. Qed.

Lemma updateVotingParameters_inv env p v m w u w' evs :
  updateVotingParameters env p v m w = Ok (u, w', evs) ->
  msg_sender env = owner (pv w) ∧ w' = set_pv (set_votingParameters p v m) w.
Proof. unfold updateVotingParameters, onlyOwner. intros H. by minv. Qed.

Lemma updateMinProposerTokenHoldings_inv env n w u w' evs :
  updateMinProposerTokenHoldings env n w = Ok (u, w', evs) ->
  msg_sender env = owner (pv w) ∧ w' = set_pv (set_minProposerTokenHoldings n) w.
Proof. unfold updateMinProposerTokenHoldings, onlyOwner. intros H. by minv. Qed.

Lemma transferOwnership_inv env a w u w' evs :
  transferOwnership env a w = Ok (u, w', evs) ->
  msg_sender env = owner (pv w) ∧ w' = set_pv (set_owner a) w.
Proof. unfold transferOwnership, onlyOwner. intros H. by minv. Qed.

Lemma direct_registry_inv env target c w u w' evs :
  direct_registry env target c w = Ok (u, w', evs) -> pv w' = pv w.
Proof.
  unfold direct_registry. intros H.
  destruct (registries w !! target) as [r|]; [|done].
  destruct (registry_entry env c r) as [[[[] r'] evs']|]; [|done].
  by injection H as <- <-.
Qed.

Lemma token_activity_inv token balances w u w' evs :
  token_activity token balances w = Ok (u, w', evs) -> pv w' = pv w.
Proof.
  unfold token_activity. intros H.
  destruct (tokens w !! token); [|done]. by injection H as <- <-.
Qed.

(** Every successful transaction has one of the five effects. *)
Lemma exec_effect env c w r w' evs :
  exec env c w = Ok (r, w', evs) -> pv_effect env (pv w) (pv w') c r.
Proof.
  destruct c; simpl; intros H;
    apply bind_inv in H as (x & w1 & ev1 & ev2 & H & Hr & ->);
    apply ret_inv in Hr as (-> & -> & ->).
  - apply createProposal_inv in H as (-> & ? & -> & _).
    by eapply effect_create.
  - apply vote_inv in H as (? & ? & ? & ? & ? & -> & _).
    by eapply effect_vote.
  - apply endProposalAndExecute_inv in H as (? & ? & ? & -> & _).
    eapply effect_resolve; eauto using spec_decision_cases.
  - apply executeApprovedProposal_inv in H as (? & ? & ? & Hpv & _).
    eapply effect_execute; eauto; by rewrite Hpv.
  - apply updateBlacklistRegistry_inv in H as (? & ->). by apply effect_frame.
  - apply updateVotingParameters_inv in H as (? & ->). by apply effect_frame.
  - apply updateMinProposerTokenHoldings_inv in H as (? & ->). by apply effect_frame.
  - apply transferOwnership_inv in H as (? & ->). by apply effect_frame.
  - apply direct_registry_inv in H as ->. by apply effect_frame.
  - apply token_activity_inv in H as ->. by apply effect_frame.
Qed.

(** A transaction either leaves the world as it is or is a successful call. *)
Lemma transact_cases env c w :
  transact env c w = w ∨
  ∃ r evs, exec env c w = Ok (r, transact env c w, evs).
Proof.
  unfold transact. destruct (exec env c w) as [[[r w'] evs]|]; eauto.
Qed.

Lemma transact_ok env c w r w' evs :
  exec env c w = Ok (r, w', evs) -> transact env c w = w'.
Proof. unfold transact. by intros ->. Qed.

(** ** The storage invariant *)

Lemma gset_size_bound (X : gset Z) (n : Z) :
  0 <= n -> (∀ a, a ∈ X -> 0 <= a < n) -> Z.of_nat (size X) <= n.
Proof.
  intros Hn HX.
  assert (X ⊆ list_to_set (seqZ 0 n)) as Hsub.
  { intros a Ha. apply elem_of_list_to_set, elem_of_seqZ. specialize (HX a Ha). lia. }
  apply subseteq_size in Hsub.
  rewrite size_list_to_set in Hsub by apply NoDup_seqZ.
  rewrite length_seqZ in Hsub. lia.
Qed.

Lemma tallies_consistent_zero : tallies_consistent zeroProposal.
Proof.
  unfold tallies_consistent. simpl. split_and!; done.
Qed.

Lemma consistent_proposalAt s i : consistent s -> tallies_consistent (proposalAt s i).
Proof.
  intros (_ & _ & Hall). unfold proposalAt.
  destruct (proposals s !! i) as [p|] eqn:Hp; simpl; eauto using tallies_consistent_zero.
Qed.

Lemma tallies_consistent_status st p :
  tallies_consistent p -> tallies_consistent (with_status st p).
Proof. done. Qed.

Lemma tallies_consistent_voted env b p :
  is_address (msg_sender env) -> msg_sender env ∉ hasVoted p ->
  tallies_consistent p -> tallies_consistent (voted env b p).
Proof.
  intros Hs Hnew (Htot & Hy & Hn & Hsize & Haddr). unfold tallies_consistent. simpl.
  rewrite size_union, size_singleton by set_solver.
  split_and!; try (destruct b; lia).
  intros a [->%elem_of_singleton| ?]%elem_of_union; auto.
Qed.

Lemma tallies_consistent_created env t u a d n s :
  consistent s -> tallies_consistent (created env t u a d n s).
Proof.
  intros (_ & Hfresh & _). unfold tallies_consistent, created, proposalAt. simpl.
  rewrite Hfresh by lia. simpl. split_and!; done.
Qed.

Lemma effect_consistent env s s' c r :
  is_address (msg_sender env) -> pv_effect env s s' c r -> consistent s -> consistent s'.
Proof.
  intros Hs Heff Hc. pose proof Hc as (Hnext & Hfresh & Hall).
  destruct Heff as [c Hp Hn|t u a d n Hmax Hp Hn|i b Hi Hst Hv Hp Hn
                   |i st Hi Hst Hcase Hp Hn|i Hi Hst Hp Hn];
    unfold consistent; rewrite Hp, Hn; (split_and!; [lia| |]).
  - done.
  - done.
  - intros i Hi. rewrite lookup_insert_ne by lia. apply Hfresh. lia.
  - intros i p [[_ <-]|[_ Hi]]%lookup_insert_Some; eauto.
    by apply tallies_consistent_created.
  - intros j Hj. rewrite lookup_insert_ne by lia. by apply Hfresh.
  - intros j p [[_ <-]|[_ Hj]]%lookup_insert_Some; eauto.
    apply tallies_consistent_voted; auto using consistent_proposalAt.
  - intros j Hj. rewrite lookup_insert_ne by lia. by apply Hfresh.
  - intros j p [[_ <-]|[_ Hj]]%lookup_insert_Some; eauto.
    apply tallies_consistent_status, consistent_proposalAt, Hc.
  - intros j Hj. rewrite lookup_insert_ne by lia. by apply Hfresh.
  - intros j p [[_ <-]|[_ Hj]]%lookup_insert_Some; eauto.
    apply tallies_consistent_status, consistent_proposalAt, Hc.
Qed.

Lemma constructor_inv env reg tok period votes percentage holdings w0 u w evs :
  constructor env reg tok period votes percentage holdings w0 = Ok (u, w, evs) ->
  nextProposalId (pv w) = 1 ∧ proposals (pv w) = ∅ ∧
  minVotingPeriod (pv w) = period ∧ minVotesForApproval (pv w) = votes ∧
  approvalMajorityPercentage (pv w) = percentage ∧ owner (pv w) = msg_sender env ∧
  0 < period ∧ 0 < percentage <= 100.
Proof. unfold constructor. intros H. minv. simpl. split_and!; try done; lia. Qed.

Lemma transact_consistent env c w :
  wf_env env -> consistent (pv w) -> consistent (pv (transact env c w)).
Proof.
  intros [Hs _] Hc. destruct (transact_cases env c w) as [->|(r & evs & Hex)]; [done|].
  eapply effect_consistent; eauto using exec_effect.
Qed.

Lemma reachable_consistent w : reachable w -> consistent (pv w).
Proof.
  induction 1 as [env reg tok period votes percentage holdings w0 w evs
                    _ _ _ _ _ _ _ _ Hctor|env c w _ IH Henv _].
  - apply constructor_inv in Hctor as (Hn & Hp & _).
    unfold consistent. rewrite Hn, Hp. split_and!; [lia| |]; intros i;
      by rewrite ?lookup_empty.
  - by apply transact_consistent.
Qed.

(** No tally of a consistent proposal can overflow when scaled by 100: there
    are at most [2 ^ 160] voters. *)
Lemma tallies_bound p :
  tallies_consistent p ->
  0 <= yesVotes p <= totalVoters p ∧ yesVotes p * 100 <= MAX_UINT256 ∧
  0 <= totalVoters p.
Proof.
  intros (Htot & Hy & Hn & Hsize & Haddr).
  assert (Z.of_nat (size (hasVoted p)) <= ADDRESS_LIMIT) as Hb.
  { apply gset_size_bound; [unfold ADDRESS_LIMIT; lia|]. intros a Ha. apply Haddr, Ha. }
  unfold ADDRESS_LIMIT, MAX_UINT256 in *. lia.
Qed.

(** ** The scenario *)

Lemma scenario_wf_env a t :
  0 <= a < 2000 -> 0 <= t < 10000 -> wf_env (Scenario.at_ a t).
Proof.
  unfold wf_env, is_address, is_uint256, ADDRESS_LIMIT, MAX_UINT256. simpl. lia.
Qed.

Lemma scenario_deployed_reachable : reachable Scenario.deployed.
Proof.
  eapply (reachable_deployed (Scenario.at_ Scenario.alice 1000)
            Scenario.registryAddress Scenario.tokenAddress 3600 1 51 100
            Scenario.genesis);
    try (unfold is_address, is_uint256, ADDRESS_LIMIT, MAX_UINT256,
           Scenario.registryAddress, Scenario.tokenAddress; lia).
  - apply scenario_wf_env; unfold Scenario.alice; lia.
  - reflexivity.
  - reflexivity.
Qed.

Lemma scenario_voted_once_reachable : reachable Scenario.voted_once.
Proof.
  apply reachable_transact; [apply reachable_transact| |].
  - apply scenario_deployed_reachable.
  - apply scenario_wf_env; unfold Scenario.bob; lia.
  - unfold wf_call, is_address, is_uint256, ADDRESS_LIMIT, MAX_UINT256. lia.
  - apply scenario_wf_env; unfold Scenario.bob; lia.
  - unfold wf_call, is_uint256, MAX_UINT256. lia.
Qed.

Example scenario_tied_rejected :
  status (proposal Scenario.tied 1) = Rejected ∧
  (yesVotes (proposal Scenario.tied 1), totalVoters (proposal Scenario.tied 1)) = (1, 2).
Proof. split; vm_compute; reflexivity. Qed.

Example scenario_not_owner :
  executeApprovedProposal (Scenario.at_ Scenario.bob 5100) 1 Scenario.resolved
  = Fail (Revert "Only owner can call this function").
Proof. vm_compute. reflexivity. Qed.

Example scenario_remove_absent :
  status (proposal Scenario.removal_approved 1) = Approved ∧
  executeApprovedProposal (Scenario.at_ Scenario.alice 5100) 1 Scenario.removal_approved
  = Fail (Revert "URL is not blacklisted") ∧
  status (proposal (transact (Scenario.at_ Scenario.alice 5100)
                      (ExecuteApprovedProposal 1) Scenario.removal_approved) 1)
  = Approved.
Proof. split_and!; vm_compute; reflexivity. Qed.

Example scenario_add_again :
  executeApprovedProposal (Scenario.at_ Scenario.alice 9100) 2 Scenario.approved_again
  = Fail (Revert "URL is already blacklisted").
Proof. vm_compute. reflexivity. Qed.

Example scenario_second_vote :
  vote (Scenario.at_ Scenario.bob 1300) 1 true Scenario.voted_once
  = Fail (Revert "Already voted on this proposal").
Proof. vm_compute. reflexivity. Qed.

Example scenario_executed_status :
  status (proposal Scenario.executed 1) = Executed ∧
  BlacklistRegistry.isURLBlacklisted "https://scam.example"
    (default Scenario.emptyRegistry
       (registries Scenario.executed !! Scenario.registryAddress))
  = Ok (true, default Scenario.emptyRegistry
                (registries Scenario.executed !! Scenario.registryAddress), []).
Proof. split; vm_compute; reflexivity. Qed.

(** ** Resolution *)

Lemma endProposalAndExecute_ok env i w :
  let p := proposal w i in
  let st := spec_decision (yesVotes p) (totalVoters p)
              (minVotesForApproval (pv w)) (approvalMajorityPercentage (pv w)) in
  0 < i < nextProposalId (pv w) -> status p = Active ->
  votingPeriodEnd p <= block_timestamp env ->
  yesVotes p * 100 <= MAX_UINT256 ->
  endProposalAndExecute env i w
  = Ok (tt, put_proposal i (with_status st p) w, [ProposalStatusUpdated i Active st]).
Proof.
  intros p st Hi Hst Hend Hmul. subst p st.
  unfold endProposalAndExecute, proposalExists, proposalReadyToResolve, proposal,
    spec_decision in *.
  munfold. cbn.
  repeat (case_decide; cbn; mclean; try (exfalso; tauto); try (exfalso; lia)).
  all: rewrite ?Hst; try reflexivity; exfalso; tauto.
Qed.

Lemma willProposalPass_ok i w :
  let p := proposal w i in
  0 < i < nextProposalId (pv w) -> 0 <= totalVoters p ->
  yesVotes p * 100 <= MAX_UINT256 ->
  willProposalPass i w
  = Ok (bool_decide (spec_decision (yesVotes p) (totalVoters p)
                       (minVotesForApproval (pv w)) (approvalMajorityPercentage (pv w))
                     = Approved), w, []).
Proof.
  intros p Hi Htot Hmul. subst p.
  unfold willProposalPass, proposalExists, proposal, spec_decision in *.
  munfold. cbn.
  repeat (case_decide; cbn; try (exfalso; tauto); try (exfalso; lia)).
  all: try done; exfalso; first [ tauto | lia ].
Qed.

(** C1. Resolving a proposal that is Active and whose voting period has ended
    succeeds and sets the status to Approved iff
    yesVotes >= minVotesForApproval, totalVoters > 0 and
    floor(yesVotes * 100 / totalVoters) >= approvalMajorityPercentage, and to
    Rejected otherwise (in particular when nobody voted); the new status is
    [spec_decision] of the two tallies and the two thresholds, and
    [willProposalPass] computes the same predicate. *)
Theorem resolution_decision_rule (w : World) (env : Env) (i : Z) :
  reachable w ->
  0 < i < nextProposalId (pv w) ->
  status (proposal w i) = Active ->
  votingPeriodEnd (proposal w i) <= block_timestamp env ->
  let p := proposal w i in
  let approve :=
    minVotesForApproval (pv w) <= yesVotes p ∧ 0 < totalVoters p ∧
    approvalMajorityPercentage (pv w) <= (yesVotes p * 100) / totalVoters p in
  let st := status (proposal (transact env (EndProposalAndExecute i) w) i) in
  is_ok (endProposalAndExecute env i w) = true ∧
  (st = Approved ↔ approve) ∧
  (st = Rejected ↔ ¬ approve) ∧
  (totalVoters p = 0 -> st = Rejected) ∧
  st = spec_decision (yesVotes p) (totalVoters p)
         (minVotesForApproval (pv w)) (approvalMajorityPercentage (pv w)) ∧
  willProposalPass i w = Ok (bool_decide approve, w, []).
Proof.
  intros Hreach Hi Hst Hend p approve st.
  pose proof (tallies_bound p
    (consistent_proposalAt _ i (reachable_consistent w Hreach))) as (Hy & Hmul & Htot).
  pose proof (endProposalAndExecute_ok env i w Hi Hst Hend Hmul) as Hok.
  assert (st = spec_decision (yesVotes p) (totalVoters p)
            (minVotesForApproval (pv w)) (approvalMajorityPercentage (pv w))) as Hspec.
  { subst st. erewrite transact_ok; [|simpl; unfold bind; by rewrite Hok].
    by rewrite proposal_put_eq. }
  split_and!.
  - by rewrite Hok.
  - rewrite Hspec. unfold spec_decision, approve. case_decide; intuition congruence.
  - rewrite Hspec. unfold spec_decision, approve. case_decide; intuition congruence.
  - intros H0. rewrite Hspec. unfold spec_decision.
    rewrite decide_False; [done|]. fold p. lia.
  - done.
  - rewrite (willProposalPass_ok i w Hi Htot Hmul). do 2 f_equal. f_equal.
    apply bool_decide_ext. fold p. unfold spec_decision, approve.
    case_decide; intuition congruence.
Qed.

Lemma resolution_decision_rule_witness :
  is_ok (endProposalAndExecute (Scenario.at_ Scenario.carol 5000) 1 Scenario.voted_once)
    = true ∧
  status (proposal Scenario.resolved 1) = Approved.
Proof.
  pose proof (resolution_decision_rule Scenario.voted_once
    (Scenario.at_ Scenario.carol 5000) 1 scenario_voted_once_reachable) as H.
  destruct H as (Hok & Happ & _).
  - vm_compute. split; reflexivity.
  - vm_compute. reflexivity.
  - vm_compute. discriminate.
  - split; [exact Hok|]. apply Happ. vm_compute. repeat split; discriminate.
Defined.

(** ** The life cycle of a proposal *)

Lemma proposalAt_insert s s' i j p :
  proposals s' = <[i := p]> (proposals s) ->
  proposalAt s' j = if decide (i = j) then p else proposalAt s j.
Proof.
  intros Hp. unfold proposalAt. rewrite Hp, lookup_insert. by case_decide.
Qed.

Lemma proposalAt_same s s' j :
  proposals s' = proposals s -> proposalAt s' j = proposalAt s j.
Proof. unfold proposalAt. by intros ->. Qed.

(** In one successful call the status of an existing proposal stays, or is
    moved by the resolution or the execution of that proposal. *)
Lemma effect_status env s s' c r j :
  pv_effect env s s' c r -> 0 < j < nextProposalId s ->
  let st := status (proposalAt s j) in
  let st' := status (proposalAt s' j) in
  nextProposalId s <= nextProposalId s' ∧
  (st' = st ∨
   (c = EndProposalAndExecute j ∧ st = Active ∧ (st' = Approved ∨ st' = Rejected)) ∨
   (c = ExecuteApprovedProposal j ∧ st = Approved ∧ st' = Executed)).
Proof.
  intros Heff Hj.
  destruct Heff as [c Hp Hn|t u a d n Hmax Hp Hn|i b Hi Hst Hv Hp Hn
                   |i st Hi Hst Hcase Hp Hn|i Hi Hst Hp Hn]; simpl;
    (split; [lia|]).
  - left. by rewrite (proposalAt_same _ _ _ Hp).
  - left. rewrite (proposalAt_insert _ _ _ j _ Hp). case_decide; [lia|done].
  - left. rewrite (proposalAt_insert _ _ _ j _ Hp). case_decide; by subst.
  - rewrite (proposalAt_insert _ _ _ j _ Hp). case_decide; [subst|by left].
    right. left. simpl. by rewrite Hst.
  - rewrite (proposalAt_insert _ _ _ j _ Hp). case_decide; [subst|by left].
    right. right. simpl. by rewrite Hst.
Qed.

Lemma transact_status env c w j :
  0 < j < nextProposalId (pv w) ->
  let st := status (proposal w j) in
  let st' := status (proposal (transact env c w) j) in
  nextProposalId (pv w) <= nextProposalId (pv (transact env c w)) ∧
  (st' = st ∨
   (c = EndProposalAndExecute j ∧ st = Active ∧ (st' = Approved ∨ st' = Rejected)) ∨
   (c = ExecuteApprovedProposal j ∧ st = Approved ∧ st' = Executed)).
Proof.
  intros Hj. destruct (transact_cases env c w) as [->|(r & evs & Hex)].
  - split; [lia|by left].
  - eapply effect_status; eauto using exec_effect.
Qed.

(** A proposal that is no longer Active is never Active again. *)
Lemma not_active_forever w w' j :
  reachable_from w w' ->
  0 < j < nextProposalId (pv w) -> status (proposal w j) ≠ Active ->
  0 < j < nextProposalId (pv w') ∧ status (proposal w' j) ≠ Active.
Proof.
  intros Hreach Hj Hne. induction Hreach as [|env c w' _ IH _ _]; [done|].
  destruct IH as (Hj' & Hne').
  destruct (transact_status env c w' j Hj') as (Hn & Hcase).
  split; [lia|].
  destruct Hcase as [->|[(_ & Hs & [->| ->])|(_ & Hs & ->)]]; done.
Qed.

(** Rejected and Executed are terminal. *)
Lemma terminal_forever w w' j :
  reachable_from w w' ->
  0 < j < nextProposalId (pv w) ->
  status (proposal w j) = Rejected ∨ status (proposal w j) = Executed ->
  0 < j < nextProposalId (pv w') ∧ status (proposal w' j) = status (proposal w j).
Proof.
  intros Hreach Hj Hterm. induction Hreach as [|env c w' _ IH _ _]; [done|].
  destruct IH as (Hj' & Heq).
  destruct (transact_status env c w' j Hj') as (Hn & Hcase).
  split; [lia|]. rewrite <- Heq in Hterm.
  destruct Hcase as [->|[(_ & Hs & _)|(_ & Hs & _)]]; [done| |];
    rewrite Hs in Hterm; by destruct Hterm.
Qed.

Lemma endProposalAndExecute_not_active env i w :
  status (proposal w i) ≠ Active ->
  is_ok (endProposalAndExecute env i w) = false.
Proof.
  intros Hne. destruct (endProposalAndExecute env i w) as [[[u w'] evs]|] eqn:H; [|done].
  by apply endProposalAndExecute_inv in H as (_ & ? & _).
Qed.

Lemma executeApprovedProposal_not_approved env i w :
  status (proposal w i) ≠ Approved ->
  is_ok (executeApprovedProposal env i w) = false.
Proof.
  intros Hne. destruct (executeApprovedProposal env i w) as [[[u w'] evs]|] eqn:H; [|done].
  by apply executeApprovedProposal_inv in H as (_ & _ & ? & _).
Qed.

Lemma transact_not_ok env c w :
  is_ok (exec env c w) = false -> transact env c w = w.
Proof. unfold transact. by destruct (exec env c w) as [[[r w'] evs]|]. Qed.

Lemma exec_resolve_ok env i w :
  is_ok (exec env (EndProposalAndExecute i) w) = is_ok (endProposalAndExecute env i w).
Proof.
  simpl. unfold bind. by destruct (endProposalAndExecute env i w) as [[[u w'] evs]|].
Qed.

Lemma exec_execute_ok env i w :
  is_ok (exec env (ExecuteApprovedProposal i) w)
  = is_ok (executeApprovedProposal env i w).
Proof.
  simpl. unfold bind. by destruct (executeApprovedProposal env i w) as [[[u w'] evs]|].
Qed.

(** C2. The status of every proposal follows
    Active -> {Approved, Rejected} -> Executed.  In one transaction the status
    of an existing proposal stays, or goes from Active to Approved or Rejected
    by the resolution of that proposal, or from Approved to Executed by its
    execution; Rejected and Executed never change; a created proposal is new
    and starts Active; after a successful resolution (execution) every later
    resolution (execution) of the same proposal fails and changes nothing. *)
Theorem proposal_status_state_machine (w : World) (env : Env) (c : Call) (i : Z) :
  0 < i < nextProposalId (pv w) ->
  let st := status (proposal w i) in
  let st' := status (proposal (transact env c w) i) in
  status_step st st' ∧
  (st' = st ∨
   (c = EndProposalAndExecute i ∧ st = Active ∧ (st' = Approved ∨ st' = Rejected)) ∨
   (c = ExecuteApprovedProposal i ∧ st = Approved ∧ st' = Executed)) ∧
  (st = Rejected ∨ st = Executed -> st' = st) ∧
  (∀ t u a d n j w1 evs,
     createProposal env t u a d n w = Ok (j, w1, evs) ->
     j = nextProposalId (pv w) ∧ status (proposal w1 j) = Active) ∧
  (∀ u w1 evs,
     endProposalAndExecute env i w = Ok (u, w1, evs) ->
     st = Active ∧
     (status (proposal w1 i) = Approved ∨ status (proposal w1 i) = Rejected) ∧
     ∀ w2 env2, reachable_from w1 w2 ->
       is_ok (endProposalAndExecute env2 i w2) = false ∧
       transact env2 (EndProposalAndExecute i) w2 = w2) ∧
  (∀ u w1 evs,
     executeApprovedProposal env i w = Ok (u, w1, evs) ->
     st = Approved ∧ status (proposal w1 i) = Executed ∧
     ∀ w2 env2, reachable_from w1 w2 ->
       is_ok (executeApprovedProposal env2 i w2) = false ∧
       transact env2 (ExecuteApprovedProposal i) w2 = w2).
Proof.
  intros Hi st st'.
  destruct (transact_status env c w i Hi) as (Hn & Hcase). fold st st' in Hcase.
  split_and!.
  - destruct Hcase as [->|[(_ & -> & [->| ->])|(_ & -> & ->)]]; constructor.
  - exact Hcase.
  - intros Hterm.
    destruct Hcase as [->|[(_ & Hs & _)|(_ & Hs & _)]]; [done| |];
      rewrite Hs in Hterm; by destruct Hterm.
  - intros t u a d n j w1 evs H.
    apply createProposal_inv in H as (-> & _ & -> & _).
    split; [done|]. by rewrite proposal_put_eq.
  - intros u w1 evs H.
    apply endProposalAndExecute_inv in H as (_ & Hst & _ & -> & _).
    rewrite proposal_put_eq. simpl.
    split_and!; [done|apply spec_decision_cases|].
    intros w2 env2 Hreach.
    destruct (not_active_forever _ w2 i Hreach) as (_ & Hne).
    { by rewrite pv_put_proposal. }
    { rewrite proposal_put_eq. simpl.
      by destruct (spec_decision_cases (yesVotes (proposal w i))
        (totalVoters (proposal w i)) (minVotesForApproval (pv w))
        (approvalMajorityPercentage (pv w))) as [-> | ->]. }
    pose proof (endProposalAndExecute_not_active env2 i w2 Hne) as Hfail.
    split; [done|]. apply transact_not_ok. by rewrite exec_resolve_ok.
  - intros u w1 evs H.
    apply executeApprovedProposal_inv in H as (_ & _ & Hst & Hpv & _).
    assert (status (proposal w1 i) = Executed) as Hex.
    { unfold proposal. rewrite Hpv, proposalAt_insert_eq. done. }
    split_and!; [done|done|].
    intros w2 env2 Hreach.
    destruct (terminal_forever _ w2 i Hreach) as (_ & Heq).
    { by rewrite Hpv. }
    { by right. }
    assert (status (proposal w2 i) ≠ Approved) as Hne by (rewrite Heq, Hex; done).
    pose proof (executeApprovedProposal_not_approved env2 i w2 Hne) as Hfail.
    split; [done|]. apply transact_not_ok. by rewrite exec_execute_ok.
Qed.

Lemma proposal_status_state_machine_witness :
  status_step (status (proposal Scenario.voted_once 1))
    (status (proposal Scenario.resolved 1)).
Proof.
  destruct (proposal_status_state_machine Scenario.voted_once
              (Scenario.at_ Scenario.carol 5000) (EndProposalAndExecute 1) 1)
    as (Hstep & _).
  - vm_compute. split; reflexivity.
  - exact Hstep.
Defined.

(** ** Failed executions *)

Lemma registry_conflict_fails p e r :
  registry_conflict p r -> is_ok (registry_operation p e r) = false.
Proof.
  unfold registry_conflict, registry_operation. intros Hc.
  destruct (proposalType p);
    match goal with
    | |- is_ok ?c = false => destruct c as [[[u r'] evs]|] eqn:H; [exfalso|done]
    end;
    [ unfold BlacklistRegistry.addURL in H
    | unfold BlacklistRegistry.addAddress in H
    | unfold BlacklistRegistry.removeURL in H
    | unfold BlacklistRegistry.removeAddress in H ];
    unfold BlacklistRegistry.onlyProposalVotingContract in H; minv; congruence.
Qed.

Lemma executeApprovedProposal_not_owner env i w :
  msg_sender env ≠ owner (pv w) ->
  executeApprovedProposal env i w = Fail (Revert "Only owner can call this function").
Proof.
  intros Hne. unfold executeApprovedProposal, onlyOwner. munfold. cbn.
  by rewrite decide_False.
Qed.

Lemma executeApprovedProposal_registry_fails env i w r f :
  let p := proposal w i in
  msg_sender env = owner (pv w) -> 0 < i < nextProposalId (pv w) ->
  status p = Approved ->
  registries w !! blacklistRegistry (pv w) = Some r ->
  registry_operation p
    {| msg_sender := this w; block_timestamp := block_timestamp env |} r = Fail f ->
  executeApprovedProposal env i w = Fail f.
Proof.
  intros p Hown Hi Hst Hr Hf. subst p.
  unfold executeApprovedProposal, onlyOwner, proposalExists, proposal,
    registry_operation in *.
  munfold. repeat (cbn; mtrue).
  destruct (proposalType (proposalAt (pv w) i)); cbn;
    repeat (case_decide; try done);
    unfold call_registry; rewrite Hr, Hf; reflexivity.
Qed.

Lemma executeApprovedProposal_no_registry env i w :
  msg_sender env = owner (pv w) -> 0 < i < nextProposalId (pv w) ->
  status (proposal w i) = Approved ->
  registries w !! blacklistRegistry (pv w) = None ->
  executeApprovedProposal env i w = Fail NoContractCode.
Proof.
  intros Hown Hi Hst Hr.
  unfold executeApprovedProposal, onlyOwner, proposalExists, proposal in *.
  munfold. repeat (cbn; mtrue).
  destruct (proposalType (proposalAt (pv w) i)); cbn;
    repeat (case_decide; try done);
    unfold call_registry; rewrite Hr; reflexivity.
Qed.

(** C3. An execution by an account that is not the owner fails with the
    authorization error and changes nothing.  An execution by the owner of an
    Approved proposal whose registry operation fails (an addition of a value
    that is already blacklisted, a removal of one that is not) fails with the
    failure of the registry, changes nothing, and the proposal is still
    Approved. *)
Theorem failed_execution_keeps_approved (w : World) (env : Env) (i : Z) :
  let p := proposal w i in
  let w' := transact env (ExecuteApprovedProposal i) w in
  (msg_sender env ≠ owner (pv w) ->
     executeApprovedProposal env i w
       = Fail (Revert "Only owner can call this function") ∧
     w' = w) ∧
  (msg_sender env = owner (pv w) -> 0 < i < nextProposalId (pv w) ->
   status p = Approved ->
   ∀ r, registries w !! blacklistRegistry (pv w) = Some r ->
     let renv := {| msg_sender := this w; block_timestamp := block_timestamp env |} in
     (∀ f, registry_operation p renv r = Fail f ->
        executeApprovedProposal env i w = Fail f ∧ w' = w ∧
        status (proposal w' i) = Approved) ∧
     (registry_conflict p r ->
        is_ok (registry_operation p renv r) = false ∧
        is_ok (executeApprovedProposal env i w) = false ∧ w' = w ∧
        status (proposal w' i) = Approved)).
Proof.
  intros p w'. split.
  - intros Hne. pose proof (executeApprovedProposal_not_owner env i w Hne) as Hf.
    split; [done|]. apply transact_not_ok. by rewrite exec_execute_ok, Hf.
  - intros Hown Hi Hst r Hr renv.
    assert (∀ f, registry_operation p renv r = Fail f ->
              executeApprovedProposal env i w = Fail f ∧ w' = w ∧
              status (proposal w' i) = Approved) as Hprop.
    { intros f Hf.
      pose proof (executeApprovedProposal_registry_fails env i w r f Hown Hi Hst Hr Hf)
        as Hfail.
      assert (w' = w) as Hw.
      { apply transact_not_ok. by rewrite exec_execute_ok, Hfail. }
      by rewrite Hw. }
    split; [exact Hprop|].
    intros Hconf. pose proof (registry_conflict_fails p renv r Hconf) as Hop.
    destruct (registry_operation p renv r) as [[[u r'] evs]|f] eqn:Hf; [done|].
    destruct (Hprop f eq_refl) as (Hfail & Hw & Hs).
    by rewrite Hfail.
Qed.

Lemma failed_execution_keeps_approved_witness :
  is_ok (executeApprovedProposal (Scenario.at_ Scenario.alice 9100) 2
           Scenario.approved_again) = false ∧
  status (proposal (transact (Scenario.at_ Scenario.alice 9100)
                      (ExecuteApprovedProposal 2) Scenario.approved_again) 2)
    = Approved.
Proof.
  destruct (failed_execution_keeps_approved Scenario.approved_again
              (Scenario.at_ Scenario.alice 9100) 2) as (_ & H).
  destruct (H eq_refl) with
    (r := default Scenario.emptyRegistry
            (registries Scenario.approved_again !! Scenario.registryAddress))
    as (_ & Hc).
  - vm_compute. split; reflexivity.
  - vm_compute. reflexivity.
  - vm_compute. reflexivity.
  - destruct Hc as (_ & Hfail & _ & Hst).
    + vm_compute. reflexivity.
    + split; [exact Hfail|exact Hst].
Defined.

(** ** Creation *)

(** C4. The voting period of a created proposal ends at its creation
    timestamp plus the larger of the requested duration and the configured
    minimum: a shorter request is raised to the minimum, a longer one is kept. *)
Theorem voting_period_is_clamped_up (w : World) (env : Env) (t : ProposalType)
    (u : string) (a : Z) (d : string) (n i : Z) (w' : World) (evs : list Event) :
  createProposal env t u a d n w = Ok (i, w', evs) ->
  let p := proposal w' i in
  creationTimestamp p = block_timestamp env ∧
  votingPeriodEnd p = creationTimestamp p + Z.max n (minVotingPeriod (pv w)) ∧
  (n < minVotingPeriod (pv w) ->
     votingPeriodEnd p = creationTimestamp p + minVotingPeriod (pv w)) ∧
  (minVotingPeriod (pv w) <= n -> votingPeriodEnd p = creationTimestamp p + n) ∧
  evs = [ProposalCreated i t u a d (msg_sender env) (creationTimestamp p)
           (votingPeriodEnd p)].
Proof.
  intros H p. apply createProposal_inv in H as (-> & _ & -> & ->).
  subst p. rewrite proposal_put_eq. simpl.
  case_decide; (split_and!; [done|lia|lia|lia|done]).
Qed.

Lemma voting_period_is_clamped_up_witness :
  votingPeriodEnd (proposal Scenario.proposed 1) = 1100 + 3600.
Proof.
  pose proof (voting_period_is_clamped_up Scenario.deployed
    (Scenario.at_ Scenario.bob 1100) AddURL "https://scam.example" 0
    "phishing site" 60 1 Scenario.proposed
    [ProposalCreated 1 AddURL "https://scam.example" 0 "phishing site"
       Scenario.bob 1100 4700]) as H.
  destruct H as (Hc & _ & Hmin & _).
  - vm_compute. reflexivity.
  - rewrite Hmin, Hc; [reflexivity|]. vm_compute. reflexivity.
Defined.

(** ** Voting *)

Lemma effect_hasVoted env s s' c r j a :
  pv_effect env s s' c r -> 0 < j < nextProposalId s ->
  a ∈ hasVoted (proposalAt s j) -> a ∈ hasVoted (proposalAt s' j).
Proof.
  intros Heff Hj Ha.
  destruct Heff as [c Hp Hn|t u x d n Hmax Hp Hn|i b Hi Hst Hv Hp Hn
                   |i st Hi Hst Hcase Hp Hn|i Hi Hst Hp Hn].
  - by rewrite (proposalAt_same _ _ _ Hp).
  - rewrite (proposalAt_insert _ _ _ j _ Hp). case_decide; [lia|done].
  - rewrite (proposalAt_insert _ _ _ j _ Hp). case_decide; [subst|done].
    simpl. apply elem_of_union. by right.
  - rewrite (proposalAt_insert _ _ _ j _ Hp). case_decide; by subst.
  - rewrite (proposalAt_insert _ _ _ j _ Hp). case_decide; by subst.
Qed.

(** A recorded vote is never removed. *)
Lemma hasVoted_forever w w' j a :
  reachable_from w w' ->
  0 < j < nextProposalId (pv w) -> a ∈ hasVoted (proposal w j) ->
  0 < j < nextProposalId (pv w') ∧ a ∈ hasVoted (proposal w' j).
Proof.
  intros Hreach Hj Ha. induction Hreach as [|env c w' _ IH _ _]; [done|].
  destruct IH as (Hj' & Ha').
  destruct (transact_status env c w' j Hj') as (Hn & _).
  split; [lia|].
  destruct (transact_cases env c w') as [->|(r & evs & Hex)]; [done|].
  eapply effect_hasVoted; eauto using exec_effect.
Qed.

Lemma vote_already_voted env i b w :
  msg_sender env ∈ hasVoted (proposal w i) -> is_ok (vote env i b w) = false.
Proof.
  intros Hin. destruct (vote env i b w) as [[[u w'] evs]|] eqn:H; [|done].
  by apply vote_inv in H as (_ & _ & _ & ? & _).
Qed.

Lemma exec_vote_ok env i b w :
  is_ok (exec env (Vote i b) w) = is_ok (vote env i b w).
Proof. simpl. unfold bind. by destruct (vote env i b w) as [[[u w'] evs]|]. Qed.

(** C5. A successful vote is the first of its voter on the proposal: it
    records the voter, adds one to [totalVoters] and to exactly one of
    [yesVotes] and [noVotes]; from then on the record stays, and every vote of
    the same voter on the same proposal fails and changes nothing. *)
Theorem one_vote_per_voter (w : World) (env : Env) (i : Z) (b : bool)
    (u : unit) (w' : World) (evs : list Event) :
  vote env i b w = Ok (u, w', evs) ->
  let p := proposal w i in
  let p' := proposal w' i in
  (msg_sender env ∉ hasVoted p) ∧
  hasVoted p' = {[msg_sender env]} ∪ hasVoted p ∧
  totalVoters p' = totalVoters p + 1 ∧
  yesVotes p' = (if b then yesVotes p + 1 else yesVotes p) ∧
  noVotes p' = (if b then noVotes p else noVotes p + 1) ∧
  (∀ w2, reachable_from w' w2 ->
     msg_sender env ∈ hasVoted (proposal w2 i) ∧
     ∀ env2 b2, msg_sender env2 = msg_sender env ->
       is_ok (vote env2 i b2 w2) = false ∧
       transact env2 (Vote i b2) w2 = w2).
Proof.
  intros H p p'. apply vote_inv in H as (Hi & _ & _ & Hnew & _ & -> & _).
  subst p p'. rewrite proposal_put_eq. simpl.
  split_and!; try done.
  intros w2 Hreach.
  destruct (hasVoted_forever _ w2 i (msg_sender env) Hreach) as (_ & Hin).
  { by rewrite pv_put_proposal. }
  { rewrite proposal_put_eq. simpl. apply elem_of_union. left.
    by apply elem_of_singleton. }
  split; [done|]. intros env2 b2 Heq.
  assert (is_ok (vote env2 i b2 w2) = false) as Hfail.
  { apply vote_already_voted. by rewrite Heq. }
  split; [done|]. apply transact_not_ok. by rewrite exec_vote_ok.
Qed.

Lemma one_vote_per_voter_witness :
  totalVoters (proposal Scenario.voted_once 1) = 1 ∧
  is_ok (vote (Scenario.at_ Scenario.bob 1300) 1 false Scenario.voted_once) = false.
Proof.
  pose proof (one_vote_per_voter Scenario.proposed (Scenario.at_ Scenario.bob 1200)
    1 true tt Scenario.voted_once [VoteCast 1 Scenario.bob true 1 0]) as H.
  destruct H as (_ & _ & Htot & _ & _ & Hlater).
  - vm_compute. reflexivity.
  - split; [rewrite Htot; reflexivity|].
    destruct (Hlater Scenario.voted_once (reachable_from_refl _)) as (_ & Hagain).
    apply (Hagain (Scenario.at_ Scenario.bob 1300) false). reflexivity.
Defined.

(** ** Identifiers *)

Lemma effect_identifier env s s' c r :
  pv_effect env s s' c r ->
  match r with
  | Some i => i = nextProposalId s ∧ nextProposalId s' = nextProposalId s + 1
  | None => nextProposalId s' = nextProposalId s
  end.
Proof. by destruct 1. Qed.

Lemma run_identifiers txs w :
  let ids := (run txs w).2 in
  ids = seqZ (nextProposalId (pv w)) (Z.of_nat (length ids)) ∧
  nextProposalId (pv (run txs w).1)
    = nextProposalId (pv w) + Z.of_nat (length ids).
Proof.
  revert w. induction txs as [|[env c] txs IH]; intros w; simpl.
  { split; [done|lia]. }
  destruct (exec env c w) as [[[[i|] w1] evs]|] eqn:Hex.
  - apply exec_effect, effect_identifier in Hex as (-> & Hn).
    specialize (IH w1). destruct (run txs w1) as [w2 ids]. simpl in *.
    destruct IH as (Hids & Hnext). rewrite Hn in Hids, Hnext.
    split; [|lia].
    rewrite seqZ_cons by lia. f_equal.
    replace (Z.pred (Z.of_nat (S (length ids)))) with (Z.of_nat (length ids)) by lia.
    replace (Z.succ (nextProposalId (pv w))) with (nextProposalId (pv w) + 1) by lia.
    exact Hids.
  - apply exec_effect, effect_identifier in Hex. simpl in Hex.
    specialize (IH w1). simpl in IH. by rewrite Hex in IH.
  - apply IH.
Qed.

(** C6. From deployment on, the identifiers returned by the successful
    [createProposal] calls of any sequence of transactions are 1, 2, 3, ... in
    order, without gap or repetition (a failed call returns none and leaves
    the counter as it was), and [getTotalProposalCount] returns the last one
    (the number of identifiers handed out). *)
Theorem proposal_ids_sequential (env : Env)
    (reg tok period votes percentage holdings : Z) (w0 w : World) (evs : list Event)
    (txs : list (Env * Call)) :
  constructor env reg tok period votes percentage holdings w0 = Ok (tt, w, evs) ->
  let ids := (run txs w).2 in
  let final := (run txs w).1 in
  nextProposalId (pv w) = 1 ∧
  ids = seqZ 1 (Z.of_nat (length ids)) ∧
  (∀ k i, ids !! k = Some i -> i = 1 + Z.of_nat k) ∧
  getTotalProposalCount final = Ok (Z.of_nat (length ids), final, []) ∧
  (∀ env' c, is_ok (exec env' c final) = false ->
     nextProposalId (pv (transact env' c final)) = nextProposalId (pv final)).
Proof.
  intros Hctor ids final.
  apply constructor_inv in Hctor as (Hone & _).
  destruct (run_identifiers txs w) as (Hids & Hnext). fold ids final in Hids, Hnext.
  rewrite Hone in Hids, Hnext.
  split_and!; [done|done| | |].
  - intros k i Hk. rewrite Hids in Hk. by apply lookup_seqZ in Hk as (-> & _).
  - unfold getTotalProposalCount. munfold. cbn. rewrite Hnext.
    rewrite decide_True by lia. do 3 f_equal. lia.
  - intros env' c Hfail. by rewrite transact_not_ok.
Qed.

Lemma proposal_ids_sequential_witness :
  (run [ (Scenario.at_ Scenario.bob 1100,
          CreateProposal AddURL "https://scam.example" 0 "phishing site" 60);
         (Scenario.at_ Scenario.carol 1150,
          CreateProposal AddURL "https://other.example" 0 "no tokens" 60);
         (Scenario.at_ Scenario.bob 1160,
          CreateProposal AddURL "" 0 "no URL" 60);
         (Scenario.at_ Scenario.alice 1200,
          CreateProposal RemoveURL "https://scam.example" 0 "appeal" 7200) ]
       Scenario.deployed).2 = [1; 2].
Proof.
  pose proof (proposal_ids_sequential (Scenario.at_ Scenario.alice 1000)
    Scenario.registryAddress Scenario.tokenAddress 3600 1 51 100
    Scenario.genesis Scenario.deployed []
    [ (Scenario.at_ Scenario.bob 1100,
       CreateProposal AddURL "https://scam.example" 0 "phishing site" 60);
      (Scenario.at_ Scenario.carol 1150,
       CreateProposal AddURL "https://other.example" 0 "no tokens" 60);
      (Scenario.at_ Scenario.bob 1160,
       CreateProposal AddURL "" 0 "no URL" 60);
      (Scenario.at_ Scenario.alice 1200,
       CreateProposal RemoveURL "https://scam.example" 0 "appeal" 7200) ]) as H.
  destruct H as (_ & Hids & _).
  - vm_compute. reflexivity.
  - rewrite Hids. vm_compute. reflexivity.
Defined.

(** ** Votes are not weighted *)

Lemma vote_reads_only_contract_storage env i b w t :
  vote env i b (set_tokens (fun _ => t) w)
  = match vote env i b w with
    | Ok (u, w', evs) => Ok (u, set_tokens (fun _ => t) w', evs)
    | Fail f => Fail f
    end.
Proof.
  unfold vote, proposalExists, proposalActive. munfold.
  destruct b; cbn;
    repeat (case_decide; cbn; rewrite ?proposalAt_put_eq, ?proposalAt_insert_eq;
            try reflexivity).
Qed.

(** C8. A vote neither reads nor changes token holdings: replacing the
    balance tables of all governance tokens by any others leaves the outcome
    of [vote] (success or the same failure), the events and the resulting
    contract storage the same; a successful vote adds exactly 1 to
    [totalVoters] and to the chosen tally, whatever the voter holds. *)
Theorem vote_is_unweighted (w : World) (env : Env) (i : Z) (b : bool)
    (holdings : gmap Z (gmap Z Z)) :
  let w2 := set_tokens (fun _ => holdings) w in
  vote env i b w2
  = match vote env i b w with
    | Ok (u, w', evs) => Ok (u, set_tokens (fun _ => holdings) w', evs)
    | Fail f => Fail f
    end ∧
  is_ok (vote env i b w2) = is_ok (vote env i b w) ∧
  (∀ u w' evs, vote env i b w = Ok (u, w', evs) ->
     ∃ w2', vote env i b w2 = Ok (u, w2', evs) ∧
       pv w2' = pv w' ∧ registries w2' = registries w' ∧
       tokens w' = tokens w ∧ tokens w2' = holdings ∧
       totalVoters (proposal w2' i) = totalVoters (proposal w i) + 1 ∧
       yesVotes (proposal w2' i) = yesVotes (proposal w i) + (if b then 1 else 0) ∧
       noVotes (proposal w2' i) = noVotes (proposal w i) + (if b then 0 else 1)).
Proof.
  intros w2. pose proof (vote_reads_only_contract_storage env i b w holdings) as Heq.
  fold w2 in Heq. split_and!.
  - exact Heq.
  - rewrite Heq. by destruct (vote env i b w) as [[[u w'] evs]|].
  - intros u w' evs H. rewrite H in Heq. eexists; split; [exact Heq|].
    apply vote_inv in H as (_ & _ & _ & _ & _ & -> & _).
    unfold proposal. simpl. rewrite proposalAt_insert_eq. simpl.
    split_and!; try done; destruct b; lia.
Qed.

Lemma vote_is_unweighted_witness :
  is_ok (vote (Scenario.at_ Scenario.carol 1200) 1 false
           (set_tokens (fun _ => ∅) Scenario.proposed)) = true ∧
  noVotes (proposal (transact (Scenario.at_ Scenario.carol 1200) (Vote 1 false)
                       (set_tokens (fun _ => ∅) Scenario.proposed)) 1) = 1.
Proof.
  destruct (vote_is_unweighted Scenario.proposed (Scenario.at_ Scenario.carol 1200)
              1 false ∅) as (_ & Hok & Hinc).
  destruct (Hinc tt (transact (Scenario.at_ Scenario.carol 1200) (Vote 1 false)
                       Scenario.proposed)
              [VoteCast 1 Scenario.carol false 0 1])
    as (w2' & Hv & _ & _ & _ & _ & _ & _ & Hno).
  - vm_compute. reflexivity.
  - split.
    + rewrite Hok. vm_compute. reflexivity.
    + erewrite transact_ok; [|simpl; unfold bind; rewrite Hv; reflexivity].
      rewrite Hno. vm_compute. reflexivity.
Defined.

(** ** Batch checks *)

Lemma batchLoop_spec {K} (look : BlacklistRegistry.Storage -> K ->
      BlacklistRegistry.BlacklistEntry)
    (keys : list K) (s : BlacklistRegistry.Storage) (n i : nat) (results : list bool) :
  (i + n = length keys)%nat -> length results = length keys ->
  BlacklistRegistry.batchLoop look keys n i results s
  = Ok (take i results
          ++ map (fun k => BlacklistRegistry.exists_ (look s k)) (drop i keys), s, []).
Proof.
  revert i results. induction n as [|n IH]; intros i results Hlen Hres; simpl.
  - rewrite take_ge, drop_ge by lia. by rewrite app_nil_r.
  - destruct (lookup_lt_is_Some_2 keys i) as [k Hk]; [lia|].
    rewrite Hk. unfold bind, get. rewrite IH by (rewrite ?length_insert; lia).
    do 3 f_equal.
    erewrite take_S_r by (apply list_lookup_insert_eq; lia).
    rewrite take_insert_ge by lia.
    rewrite (drop_S keys k i Hk). simpl. by rewrite <- app_assoc.
Qed.

(** C9. Both batch checks succeed on every list, change nothing, and return
    the list of the same length whose i-th element is the blacklist flag of
    the i-th key; an unknown key gives [false]. *)
Theorem batch_checks_are_pointwise (s : BlacklistRegistry.Storage)
    (_urls : list string) (_addresses : list Z) :
  let urlFlag u := BlacklistRegistry.exists_ (BlacklistRegistry.urlEntry s u) in
  let addressFlag a := BlacklistRegistry.exists_ (BlacklistRegistry.addressEntry s a) in
  BlacklistRegistry.batchCheckURLs _urls s = Ok (map urlFlag _urls, s, []) ∧
  BlacklistRegistry.batchCheckAddresses _addresses s
    = Ok (map addressFlag _addresses, s, []) ∧
  length (map urlFlag _urls) = length _urls ∧
  length (map addressFlag _addresses) = length _addresses ∧
  (∀ i u, _urls !! i = Some u ->
     map urlFlag _urls !! i = Some (urlFlag u) ∧
     BlacklistRegistry.isURLBlacklisted u s = Ok (urlFlag u, s, [])) ∧
  (∀ i a, _addresses !! i = Some a ->
     map addressFlag _addresses !! i = Some (addressFlag a) ∧
     BlacklistRegistry.isAddressBlacklisted a s = Ok (addressFlag a, s, [])) ∧
  (∀ u, BlacklistRegistry.blacklistedURLs s !! u = None -> urlFlag u = false) ∧
  (∀ a, BlacklistRegistry.blacklistedAddresses s !! a = None -> addressFlag a = false).
Proof.
  intros urlFlag addressFlag. split_and!.
  - unfold BlacklistRegistry.batchCheckURLs.
    rewrite batchLoop_spec by (rewrite ?length_replicate; lia). by rewrite drop_0.
  - unfold BlacklistRegistry.batchCheckAddresses.
    rewrite batchLoop_spec by (rewrite ?length_replicate; lia). by rewrite drop_0.
  - apply length_map.
  - apply length_map.
  - intros i u Hi. split; [|done].
    change (map urlFlag _urls) with (urlFlag <$> _urls).
    by rewrite list_lookup_fmap, Hi.
  - intros i a Hi. split; [|done].
    change (map addressFlag _addresses) with (addressFlag <$> _addresses).
    by rewrite list_lookup_fmap, Hi.
  - intros u Hu. unfold urlFlag, BlacklistRegistry.urlEntry. by rewrite Hu.
  - intros a Ha. unfold addressFlag, BlacklistRegistry.addressEntry. by rewrite Ha.
Qed.

Lemma batch_checks_are_pointwise_witness :
  BlacklistRegistry.batchCheckURLs
    ["https://fine.example"; "https://scam.example"; "https://fine.example"]
    (default Scenario.emptyRegistry
       (registries Scenario.executed !! Scenario.registryAddress))
  = Ok ([false; true; false],
        default Scenario.emptyRegistry
          (registries Scenario.executed !! Scenario.registryAddress), []) ∧
  BlacklistRegistry.isURLBlacklisted "https://scam.example"
    (default Scenario.emptyRegistry
       (registries Scenario.executed !! Scenario.registryAddress))
  = Ok (true,
        default Scenario.emptyRegistry
          (registries Scenario.executed !! Scenario.registryAddress), []).
Proof.
  destruct (batch_checks_are_pointwise
              (default Scenario.emptyRegistry
                 (registries Scenario.executed !! Scenario.registryAddress))
              ["https://fine.example"; "https://scam.example"; "https://fine.example"]
              []) as (Hb & _ & _ & _ & Hi & _).
  split.
  - rewrite Hb. vm_compute. reflexivity.
  - destruct (Hi 1%nat "https://scam.example" eq_refl) as (_ & Hq).
    rewrite Hq. vm_compute. reflexivity.
Defined.

(** ** Tallies *)

Lemma toNumber_exact z : Z.abs z <= 2 ^ 53 -> Indexer.toNumber z = z.
Proof. intros Hz. unfold Indexer.toNumber. by rewrite decide_True. Qed.

Lemma toNumber_safe z : 0 <= z <= Indexer.MAX_SAFE_INTEGER -> Indexer.toNumber z = z.
Proof. unfold Indexer.MAX_SAFE_INTEGER. intros Hz. apply toNumber_exact. lia. Qed.

(** Beyond [2 ^ 53] the conversion rounds. *)
Example toNumber_rounds :
  Indexer.toNumber (2 ^ 53 + 1) = 2 ^ 53 ∧
  Indexer.toNumber (2 ^ 53 + 3) = 2 ^ 53 + 4 ∧
  Indexer.voteCastTotalVoters (2 ^ 53 + 1) 2 = 2 ^ 53 + 2.
Proof. split_and!; vm_compute; reflexivity. Qed.

(** C10. In every reachable world and for every proposal,
    [totalVoters = yesVotes + noVotes]: the three counters of a created
    proposal are zero, and a successful vote adds one to [totalVoters] and to
    exactly one of [yesVotes] and [noVotes] (to [yesVotes] when the vote
    supports, to [noVotes] when it does not), on the proposal voted on only.
    The [VoteCast] event carries the two tallies after the vote, and the
    count the indexer derives from them is the [totalVoters] the contract
    holds after that vote, as long as that count is a safe integer of
    JavaScript. *)
Theorem total_voters_is_sum_of_tallies (w : World) :
  reachable w ->
  (∀ i, totalVoters (proposal w i) = yesVotes (proposal w i) + noVotes (proposal w i)) ∧
  (∀ env t u a d n i w' evs,
     createProposal env t u a d n w = Ok (i, w', evs) ->
     yesVotes (proposal w' i) = 0 ∧ noVotes (proposal w' i) = 0 ∧
     totalVoters (proposal w' i) = 0 ∧
     ∀ j, j ≠ i -> proposal w' j = proposal w j) ∧
  (∀ env i b u w' evs,
     vote env i b w = Ok (u, w', evs) ->
     totalVoters (proposal w' i) = totalVoters (proposal w i) + 1 ∧
     yesVotes (proposal w' i) = yesVotes (proposal w i) + (if b then 1 else 0) ∧
     noVotes (proposal w' i) = noVotes (proposal w i) + (if b then 0 else 1) ∧
     (∀ j, j ≠ i -> proposal w' j = proposal w j) ∧
     ∃ y n, evs = [VoteCast i (msg_sender env) b y n] ∧
       y = yesVotes (proposal w' i) ∧ n = noVotes (proposal w' i) ∧
       (totalVoters (proposal w' i) <= Indexer.MAX_SAFE_INTEGER ->
        Indexer.toNumber y = y ∧ Indexer.toNumber n = n ∧
        Indexer.voteCastTotalVoters y n = totalVoters (proposal w' i))).
Proof.
  intros Hreach. pose proof (reachable_consistent w Hreach) as Hc. split_and!.
  - intros i. by destruct (consistent_proposalAt (pv w) i Hc) as (? & _).
  - intros env t u a d n i w' evs H.
    apply createProposal_inv in H as (-> & _ & -> & _).
    rewrite proposal_put_eq. simpl. split_and!; try done.
    intros j Hj. unfold proposal, put_proposal, proposalAt. simpl.
    by rewrite lookup_insert_ne.
  - intros env i b u w' evs H.
    apply vote_inv in H as (_ & _ & _ & _ & _ & -> & ->).
    destruct (consistent_proposalAt (pv w) i Hc) as (Htot & Hy & Hn & _).
    rewrite proposal_put_eq. simpl. split_and!.
    + done.
    + destruct b; lia.
    + destruct b; lia.
    + intros j Hj. unfold proposal, put_proposal, proposalAt. simpl.
      by rewrite lookup_insert_ne.
    + eexists _, _. split; [reflexivity|]. split_and!; try done.
      intros Hsafe. unfold proposal in *.
      assert (Indexer.toNumber
                (if b then yesVotes (proposalAt (pv w) i) + 1
                 else yesVotes (proposalAt (pv w) i))
              = if b then yesVotes (proposalAt (pv w) i) + 1
                else yesVotes (proposalAt (pv w) i)) as Hyes.
      { apply toNumber_safe. destruct b; lia. }
      assert (Indexer.toNumber
                (if b then noVotes (proposalAt (pv w) i)
                 else noVotes (proposalAt (pv w) i) + 1)
              = if b then noVotes (proposalAt (pv w) i)
                else noVotes (proposalAt (pv w) i) + 1) as Hno.
      { apply toNumber_safe. destruct b; lia. }
      split_and!; try done.
      unfold Indexer.voteCastTotalVoters, Indexer.numberAdd. rewrite Hyes, Hno.
      rewrite toNumber_safe; destruct b; lia.
Qed.

Lemma total_voters_is_sum_of_tallies_witness :
  (yesVotes (proposal Scenario.proposed 1), noVotes (proposal Scenario.proposed 1),
   totalVoters (proposal Scenario.proposed 1)) = (0, 0, 0) ∧
  (yesVotes (proposal Scenario.voted_once 1), noVotes (proposal Scenario.voted_once 1),
   totalVoters (proposal Scenario.voted_once 1)) = (1, 0, 1) ∧
  Indexer.voteCastTotalVoters 1 0 = totalVoters (proposal Scenario.voted_once 1).
Proof.
  assert (reachable Scenario.proposed) as Hproposed.
  { apply reachable_transact; [apply scenario_deployed_reachable
                              |apply scenario_wf_env; unfold Scenario.bob; lia
                              |unfold wf_call, is_address, is_uint256, ADDRESS_LIMIT,
                                 MAX_UINT256; lia]. }
  destruct (total_voters_is_sum_of_tallies Scenario.deployed scenario_deployed_reachable)
    as (_ & Hcreate & _).
  destruct (Hcreate (Scenario.at_ Scenario.bob 1100) AddURL "https://scam.example" 0
              "phishing site" 60 1 Scenario.proposed
              [ProposalCreated 1 AddURL "https://scam.example" 0 "phishing site"
                 Scenario.bob 1100 4700])
    as (Hy0 & Hn0 & Ht0 & _); [vm_compute; reflexivity|].
  destruct (total_voters_is_sum_of_tallies Scenario.proposed Hproposed)
    as (_ & _ & Hvote).
  destruct (Hvote (Scenario.at_ Scenario.bob 1200) 1 true tt Scenario.voted_once
              [VoteCast 1 Scenario.bob true 1 0])
    as (Ht & Hy & Hn & _ & y & n & Hev & -> & -> & Hcount); [vm_compute; reflexivity|].
  destruct Hcount as (_ & _ & Hcount).
  { rewrite Ht, Ht0. unfold Indexer.MAX_SAFE_INTEGER. lia. }
  rewrite Hy, Hn in Hcount. rewrite Hy0, Hn0 in Hcount.
  rewrite Hy0, Hn0, Ht0. split; [done|].
  rewrite Hy, Hn, Ht, Hy0, Hn0, Ht0. split; [done|].
  rewrite Ht, Ht0 in Hcount. exact Hcount.
Defined.

(** ** The indexer *)

Import Indexer.

Section FindOneAndUpdate.
Context {D : Type} (filter : D -> bool).

Lemma updateFirst_None_any (u1 u2 : D -> D) (c : list D) :
  updateFirst filter u1 c = None -> updateFirst filter u2 c = None.
Proof.
  induction c as [|x c IH]; simpl; [done|].
  destruct (filter x); [done|].
  destruct (updateFirst filter u1 c); [done|]. intros _. by rewrite IH.
Qed.

Lemma updateFirst_app_match (u : D -> D) (c : list D) (d : D) :
  updateFirst filter u c = None -> filter d = true ->
  updateFirst filter u (c ++ [d]) = Some (c ++ [u d]).
Proof.
  induction c as [|x c IH]; simpl; intros Hnone Hd.
  - by rewrite Hd.
  - destruct (filter x); [done|].
    destruct (updateFirst filter u c); [done|]. by rewrite IH.
Qed.

Lemma updateFirst_twice (u1 u2 : D -> D) (c c' : list D) :
  (∀ d, filter d = true -> filter (u1 d) = true) ->
  updateFirst filter u1 c = Some c' ->
  updateFirst filter u2 c' = updateFirst filter (fun d => u2 (u1 d)) c.
Proof.
  intros Hkeep. revert c'. induction c as [|x c IH]; simpl; intros c' Hc; [done|].
  destruct (filter x) eqn:Hx.
  - injection Hc as <-. simpl. by rewrite (Hkeep x Hx).
  - destruct (updateFirst filter u1 c) as [c1|]; [|done].
    injection Hc as <-. simpl. rewrite Hx. by rewrite (IH c1).
Qed.

Lemma updateFirst_map_ext (g : D -> D) (ua ub : D -> D) (c : list D) :
  (∀ d, filter d = true -> g (ua d) = g (ub d)) ->
  option_map (map g) (updateFirst filter ua c)
  = option_map (map g) (updateFirst filter ub c).
Proof.
  intros Hext. induction c as [|x c IH]; simpl; [done|].
  destruct (filter x) eqn:Hx; simpl.
  - by rewrite (Hext x Hx).
  - destruct (updateFirst filter ua c), (updateFirst filter ub c);
      simpl in *; congruence.
Qed.

(** Applying the same filter twice: the second update meets the document the
    first one wrote. *)
Lemma findOneAndUpdate_twice (g : D -> D) (u1 u2 : D -> D) (ins1 ins2 : option D)
    (c : list D) :
  (∀ d, filter d = true -> filter (u1 d) = true) ->
  (∀ d, filter d = true -> g (u2 (u1 d)) = g (u1 d)) ->
  (∀ d, ins1 = Some d -> filter d = true ∧ g (u2 d) = g d) ->
  (ins1 = None -> ins2 = None) ->
  map g (findOneAndUpdate filter u2 ins2 (findOneAndUpdate filter u1 ins1 c))
  = map g (findOneAndUpdate filter u1 ins1 c).
Proof.
  intros Hkeep Hupd Hins Hnone. unfold findOneAndUpdate.
  destruct (updateFirst filter u1 c) as [c1|] eqn:H1.
  - rewrite (updateFirst_twice u1 u2 c c1 Hkeep H1).
    pose proof (updateFirst_map_ext g (fun d => u2 (u1 d)) u1 c Hupd) as Hext.
    rewrite H1 in Hext.
    destruct (updateFirst filter (fun d => u2 (u1 d)) c); simpl in Hext; congruence.
  - destruct ins1 as [d|].
    + destruct (Hins d eq_refl) as (Hd & Hg).
      rewrite (updateFirst_app_match u2 c d (updateFirst_None_any u1 u2 c H1) Hd).
      rewrite !map_app. simpl. by rewrite Hg.
    + rewrite (Hnone eq_refl). by rewrite (updateFirst_None_any u1 u2 c H1).
Qed.

End FindOneAndUpdate.

Global Arguments voteTimestamp : simpl never.

Section HandlersIdempotent.
Variable addressString : Z -> string.

(** The two cases in which a second application writes what the first one
    wrote: the same runtime with the documents compared as they are, or dates
    fixed by the event with the documents compared without [updatedAt]. *)
Variables (fe : BlacklistEntryDoc -> BlacklistEntryDoc)
  (fp : ProposalDoc -> ProposalDoc) (fv : VoteDoc -> VoteDoc).

Local Abbreviation exact := (compares_exactly fe fp fv).
Local Abbreviation forgetful := (compares_forgetting fe fp fv).

Ltac dates :=
  unfold toDate, valid_seconds in *; simpl;
  repeat match goal with
  | |- context [decide ?P] => rewrite (decide_True (P := P)) by done
  end.

Ltac twice Hd :=
  destruct Hd as [[-> (-> & -> & ->)]|[(-> & -> & ->) Hd]];
  [done|simpl; try done; try (by dates)].

Lemma onEntryAdded_twice rt1 rt2 t v a ts p db :
  (rt1 = rt2 ∧ exact) ∨ (forgetful ∧ valid_seconds ts) ->
  mapMirror fe fp fv (onEntryAdded addressString rt2 t v a ts p
                        (onEntryAdded addressString rt1 t v a ts p db))
  = mapMirror fe fp fv (onEntryAdded addressString rt1 t v a ts p db).
Proof.
  intros Hd. unfold mapMirror, onEntryAdded. simpl. f_equal.
  apply findOneAndUpdate_twice; simpl.
  - intros d _. apply String.eqb_refl.
  - intros d _. twice Hd.
  - intros d [= <-]. simpl. split; [apply String.eqb_refl|]. twice Hd.
  - done.
Qed.

Lemma onEntryRemoved_twice rt1 rt2 t v a ts r db :
  (rt1 = rt2 ∧ exact) ∨ (forgetful ∧ valid_seconds ts) ->
  mapMirror fe fp fv (onEntryRemoved addressString rt2 t v a ts r
                        (onEntryRemoved addressString rt1 t v a ts r db))
  = mapMirror fe fp fv (onEntryRemoved addressString rt1 t v a ts r db).
Proof.
  intros Hd. unfold mapMirror, onEntryRemoved. simpl. f_equal.
  apply findOneAndUpdate_twice; simpl.
  - done.
  - intros d _. twice Hd.
  - done.
  - done.
Qed.

Lemma onProposalCreated_twice rt1 rt2 i t u a d p c e db :
  (rt1 = rt2 ∧ exact) ∨ (forgetful ∧ valid_seconds c ∧ valid_seconds e) ->
  mapMirror fe fp fv (onProposalCreated addressString rt2 i t u a d p c e
                        (onProposalCreated addressString rt1 i t u a d p c e db))
  = mapMirror fe fp fv (onProposalCreated addressString rt1 i t u a d p c e db).
Proof.
  intros Hd. unfold mapMirror, onProposalCreated. simpl. f_equal.
  apply findOneAndUpdate_twice; simpl.
  - intros x _. apply Z.eqb_refl.
  - intros x _. twice Hd. destruct Hd. by dates.
  - intros x [= <-]. simpl. split; [apply Z.eqb_refl|]. twice Hd.
    destruct Hd. by dates.
  - done.
Qed.

Lemma onProposalStatusUpdated_twice rt1 rt2 i o n db :
  (rt1 = rt2 ∧ exact) ∨ forgetful ->
  mapMirror fe fp fv (onProposalStatusUpdated rt2 i o n
                        (onProposalStatusUpdated rt1 i o n db))
  = mapMirror fe fp fv (onProposalStatusUpdated rt1 i o n db).
Proof.
  intros Hd. unfold mapMirror, onProposalStatusUpdated. simpl. f_equal.
  apply findOneAndUpdate_twice; simpl; try done.
  intros x _. destruct Hd as [[-> (-> & -> & ->)]|(-> & -> & ->)]; done.
Qed.

Lemma voteTimestamp_determined rt1 rt2 bn :
  (∃ b t, bn = Some b ∧ b ≠ 0 ∧ getBlock rt1 b = Some t ∧ getBlock rt2 b = Some t ∧
          valid_seconds t) ->
  voteTimestamp rt2 bn = voteTimestamp rt1 bn.
Proof.
  intros (b & t & -> & Hb & H1 & H2 & Hv).
  unfold voteTimestamp. rewrite decide_True, H1, H2 by done. by dates.
Qed.

Lemma onVoteCast_twice rt1 rt2 i v s y n bn db :
  (rt1 = rt2 ∧ exact) ∨
  (forgetful ∧
   ∃ b t, bn = Some b ∧ b ≠ 0 ∧ getBlock rt1 b = Some t ∧ getBlock rt2 b = Some t ∧
          valid_seconds t) ->
  mapMirror fe fp fv (onVoteCast addressString rt2 i v s y n bn
                        (onVoteCast addressString rt1 i v s y n bn db))
  = mapMirror fe fp fv (onVoteCast addressString rt1 i v s y n bn db).
Proof.
  intros Hd. unfold mapMirror, onVoteCast. simpl. f_equal.
  - apply findOneAndUpdate_twice; simpl; try done.
    intros x _. destruct Hd as [[-> (-> & -> & ->)]|[(-> & -> & ->) _]]; done.
  - apply findOneAndUpdate_twice; simpl.
    + intros x _. by rewrite Z.eqb_refl, String.eqb_refl.
    + intros x _. twice Hd. by rewrite (voteTimestamp_determined rt1 rt2 bn Hd).
    + intros x [= <-]. simpl. rewrite Z.eqb_refl, String.eqb_refl.
      split; [done|]. twice Hd. by rewrite (voteTimestamp_determined rt1 rt2 bn Hd).
    + done.
Qed.

Lemma handle_twice rt1 rt2 e bn db :
  (rt1 = rt2 ∧ exact) ∨ (forgetful ∧ dates_determined rt1 rt2 e bn) ->
  mapMirror fe fp fv (handle addressString rt2 e bn (handle addressString rt1 e bn db))
  = mapMirror fe fp fv (handle addressString rt1 e bn db).
Proof.
  intros Hd. destruct e; simpl in *; try done.
  - by apply onEntryAdded_twice.
  - by apply onEntryRemoved_twice.
  - by apply onProposalCreated_twice.
  - by apply onVoteCast_twice.
  - apply onProposalStatusUpdated_twice. tauto.
Qed.

End HandlersIdempotent.

Lemma mapMirror_id db : mapMirror Datatypes.id Datatypes.id Datatypes.id db = db.
Proof. destruct db. unfold mapMirror. simpl. by rewrite !map_id. Qed.

(** C7, as the code has it.  For every event handler, a second application
    of the same event leaves the mirror as the first one left it, except for
    the [updatedAt] stamp of the document written, provided the dates the
    handler stores are fixed by the event (valid timestamps; for [VoteCast]
    the block of the event found by the provider both times); and it leaves
    the mirror exactly the same when both applications read the same clock
    and provider. *)
Theorem handlers_idempotent_up_to_clock (addressString : Z -> string)
    (e : Event) (blockNumber : option Z) (db : Mirror) :
  (∀ rt1 rt2, dates_determined rt1 rt2 e blockNumber ->
     forget_updatedAt (handle addressString rt2 e blockNumber
                         (handle addressString rt1 e blockNumber db))
     = forget_updatedAt (handle addressString rt1 e blockNumber db)) ∧
  (∀ rt, handle addressString rt e blockNumber (handle addressString rt e blockNumber db)
         = handle addressString rt e blockNumber db).
Proof.
  split.
  - intros rt1 rt2 Hd. apply handle_twice. right. by split.
  - intros rt.
    pose proof (handle_twice addressString Datatypes.id Datatypes.id Datatypes.id
                  rt rt e blockNumber db) as H.
    rewrite !mapMirror_id in H. apply H. left. by split.
Qed.

Lemma handlers_idempotent_up_to_clock_witness :
  forget_updatedAt
    (handle hexAddress secondDelivery
       (EntryAdded URL "https://scam.example" 0 1700000000 1001) None
       (handle hexAddress firstDelivery
          (EntryAdded URL "https://scam.example" 0 1700000000 1001) None emptyMirror))
  = forget_updatedAt
      (handle hexAddress firstDelivery
         (EntryAdded URL "https://scam.example" 0 1700000000 1001) None emptyMirror).
Proof.
  destruct (handlers_idempotent_up_to_clock hexAddress
              (EntryAdded URL "https://scam.example" 0 1700000000 1001) None emptyMirror)
    as (H & _).
  apply H. vm_compute. split; discriminate.
Defined.

(** C7, as it is stated, fails: the second application stamps the document
    with its own [updatedAt]; and when the timestamp of the event has no
    valid [Date], each application stores its own current date. *)
Lemma handlers_idempotent_counterexample :
  handle hexAddress secondDelivery
    (EntryAdded URL "https://scam.example" 0 1700000000 1001) None
    (handle hexAddress firstDelivery
       (EntryAdded URL "https://scam.example" 0 1700000000 1001) None emptyMirror)
  ≠ handle hexAddress firstDelivery
      (EntryAdded URL "https://scam.example" 0 1700000000 1001) None emptyMirror ∧
  map be_timestamp (blacklistEntries
    (handle hexAddress secondDelivery
       (EntryAdded URL "https://scam.example" 0 10000000000000 1001) None
       (handle hexAddress firstDelivery
          (EntryAdded URL "https://scam.example" 0 10000000000000 1001) None
          emptyMirror)))
  ≠ map be_timestamp (blacklistEntries
      (handle hexAddress firstDelivery
         (EntryAdded URL "https://scam.example" 0 10000000000000 1001) None
         emptyMirror)).
Proof. split; vm_compute; discriminate. Qed.

(** * Further properties of the contracts and of the mirror *)

Import Ledger.

(** ** What every successful call requires and does *)

Lemma exec_inv env c w r w1 evs :
  exec env c w = Ok (r, w1, evs) ->
  ∃ x, match c with
       | CreateProposal t u a d n =>
           createProposal env t u a d n w = Ok (x, w1, evs) ∧ r = Some x
       | Vote i b => vote env i b w = Ok (tt, w1, evs)
       | EndProposalAndExecute i => endProposalAndExecute env i w = Ok (tt, w1, evs)
       | ExecuteApprovedProposal i => executeApprovedProposal env i w = Ok (tt, w1, evs)
       | UpdateBlacklistRegistry a => updateBlacklistRegistry env a w = Ok (tt, w1, evs)
       | UpdateVotingParameters p v m =>
           updateVotingParameters env p v m w = Ok (tt, w1, evs)
       | UpdateMinProposerTokenHoldings n =>
           updateMinProposerTokenHoldings env n w = Ok (tt, w1, evs)
       | TransferOwnership a => transferOwnership env a w = Ok (tt, w1, evs)
       | Registry target rc => direct_registry env target rc w = Ok (tt, w1, evs)
       | TokenActivity token balances => token_activity token balances w = Ok (tt, w1, evs)
       end.
Proof.
  destruct c; simpl; intros H;
    apply bind_inv in H as (x & w2 & ev1 & ev2 & H & Hr & ->);
    apply ret_inv in Hr as (-> & -> & ->); rewrite app_nil_r;
    try destruct x; eauto.
Qed.

Lemma createProposal_guards env t u a d n w i w1 evs :
  createProposal env t u a d n w = Ok (i, w1, evs) ->
  guards env (CreateProposal t u a d n) w.
Proof.
  unfold createProposal, guards, balanceOf. intros H. minv;
    repeat match goal with
    | H : match tokens w !! ?k with _ => _ end = Ok _ |- _ =>
        destruct (tokens w !! k) eqn:?; [injection H as <- <- <-|done]
    end;
    repeat match goal with
    | H : context [decide (n < ?m)] |- _ => destruct (decide (n < m))
    end;
    destruct t; (split_and!; try done; try lia);
    try (intros; by destruct_or?; simplify_eq);
    try (intros; eexists; split; [done|lia]);
    try (by destruct_or?; simplify_eq).
Qed.

Lemma exec_guards env c w r w1 evs :
  exec env c w = Ok (r, w1, evs) -> guards env c w ∧ pv w1 = pv_after env c (pv w).
Proof.
  intros H. apply exec_inv in H as (x & H). destruct c.
  - destruct H as (H & _). split; [eauto using createProposal_guards|].
    by apply createProposal_inv in H as (-> & _ & -> & _).
  - apply vote_inv in H as (? & ? & ? & ? & _ & -> & _). by split.
  - apply endProposalAndExecute_inv in H as (? & ? & ? & -> & _). by split.
  - apply executeApprovedProposal_inv in H as (? & ? & ? & -> & _). by split.
  - unfold updateBlacklistRegistry, onlyOwner in H. minv. by split.
  - unfold updateVotingParameters, onlyOwner in H. minv. split; [|done].
    simpl. split_and!; try done; lia.
  - unfold updateMinProposerTokenHoldings, onlyOwner in H. minv. by split.
  - unfold transferOwnership, onlyOwner in H. minv. by split.
  - apply direct_registry_inv in H as ->. by split.
  - apply token_activity_inv in H as ->. by split.
Qed.

Lemma transact_pv env c w :
  pv (transact env c w) = pv w ∨
  (guards env c w ∧ pv (transact env c w) = pv_after env c (pv w)).
Proof.
  destruct (transact_cases env c w) as [->|(r & evs & Hex)]; [by left|].
  right. by apply exec_guards in Hex.
Qed.

Lemma run_step env c rest w :
  (run ((env, c) :: rest) w).1 = (run rest (transact env c w)).1.
Proof.
  simpl. unfold transact.
  destruct (exec env c w) as [[[[i|] w1] evs]|]; try done.
  by destruct (run rest w1).
Qed.

Lemma proposalAt_set_insert i p s j :
  proposalAt (set_proposals (insert i p) s) j
  = if decide (i = j) then p else proposalAt s j.
Proof. unfold proposalAt. simpl. rewrite lookup_insert. by case_decide. Qed.

(** An existing proposal after a successful call: the same, or voted on, or
    with a new status. *)
Lemma pv_after_existing env c s j :
  0 < j < nextProposalId s ->
  nextProposalId s <= nextProposalId (pv_after env c s) ∧
  (proposalAt (pv_after env c s) j = proposalAt s j ∨
   (∃ b, c = Vote j b ∧ proposalAt (pv_after env c s) j = voted env b (proposalAt s j)) ∨
   (∃ st, (c = EndProposalAndExecute j ∨ c = ExecuteApprovedProposal j) ∧
      proposalAt (pv_after env c s) j = with_status st (proposalAt s j))).
Proof.
  intros Hj. destruct c as [t u a d n|i b|i|i|a|p v m|n|a|target rc|token balances];
    simpl; (split; [lia|]); try (by left);
    rewrite proposalAt_set_insert; (case_decide; [subst|by left]).
  - lia.
  - right. left. by exists b.
  - right. right. eexists. split; [by left|done].
  - right. right. eexists. split; [by right|done].
Qed.

(** ** Fields written once *)

Lemma transact_static env c w j :
  0 < j < nextProposalId (pv w) ->
  0 < j < nextProposalId (pv (transact env c w)) ∧
  static_fields (proposal (transact env c w) j) = static_fields (proposal w j).
Proof.
  intros Hj. unfold proposal.
  destruct (transact_pv env c w) as [->|(_ & ->)]; [done|].
  destruct (pv_after_existing env c (pv w) j Hj)
    as (Hn & [->|[(b & _ & ->)|(st & _ & ->)]]); (split; [lia|done]).
Qed.

(** X1. Whatever transactions follow, an existing proposal keeps its
    identifier, type, URL, address, description, creation timestamp, end of
    voting period and proposer. *)
Theorem proposal_fields_are_written_once (txs : list (Env * Call)) (w : World) (j : Z) :
  0 < j < nextProposalId (pv w) ->
  0 < j < nextProposalId (pv (run txs w).1) ∧
  static_fields (proposal (run txs w).1 j) = static_fields (proposal w j).
Proof.
  revert w. induction txs as [|[env c] txs IH]; intros w Hj; [done|].
  rewrite run_step.
  destruct (transact_static env c w j Hj) as (Hj' & Heq).
  destruct (IH _ Hj') as (Hj'' & Heq'). split; [done|congruence].
Qed.

Lemma proposal_fields_are_written_once_witness :
  static_fields
    (proposal (run [ (Scenario.at_ Scenario.bob 1200, Vote 1 true);
                     (Scenario.at_ Scenario.alice 1300, UpdateVotingParameters 60 5 90);
                     (Scenario.at_ Scenario.carol 5000, EndProposalAndExecute 1) ]
                 Scenario.proposed).1 1)
  = static_fields (proposal Scenario.proposed 1).
Proof.
  apply proposal_fields_are_written_once. vm_compute. split; reflexivity.
Defined.

(** ** Tallies *)

Lemma transact_tallies env c w j :
  0 < j < nextProposalId (pv w) ->
  let p := proposal w j in
  let p' := proposal (transact env c w) j in
  0 < j < nextProposalId (pv (transact env c w)) ∧
  (status p ≠ Active -> status p' ≠ Active) ∧
  yesVotes p <= yesVotes p' ∧ noVotes p <= noVotes p' ∧
  totalVoters p <= totalVoters p' ∧ hasVoted p ⊆ hasVoted p' ∧
  (status p ≠ Active ->
     yesVotes p' = yesVotes p ∧ noVotes p' = noVotes p ∧
     totalVoters p' = totalVoters p ∧ hasVoted p' = hasVoted p).
Proof.
  intros Hj p p'. subst p p'.
  destruct (transact_status env c w j Hj) as (Hn & Hst).
  split; [lia|]. split.
  { intros Hne. destruct Hst as [->|[(_ & ? & _)|(_ & _ & ->)]]; done. }
  unfold proposal in *.
  destruct (transact_pv env c w) as [->|(Hg & ->)]; [done|].
  destruct (pv_after_existing env c (pv w) j Hj)
    as (_ & [->|[(b & -> & ->)|(st & _ & ->)]]); try done.
  simpl in Hg. destruct Hg as (_ & Hact & _).
  simpl. split_and!; try (destruct b; lia); [|done].
  apply union_subseteq_r.
Qed.

(** X2. Tallies and the record of voters only grow, and once a proposal is
    no longer Active (it was resolved) they never change again: the result a
    resolution was computed from stays on record. *)
Theorem tallies_grow_then_freeze (txs : list (Env * Call)) (w : World) (j : Z) :
  0 < j < nextProposalId (pv w) ->
  let p := proposal w j in
  let p' := proposal (run txs w).1 j in
  yesVotes p <= yesVotes p' ∧ noVotes p <= noVotes p' ∧
  totalVoters p <= totalVoters p' ∧ hasVoted p ⊆ hasVoted p' ∧
  (status p ≠ Active ->
     status p' ≠ Active ∧
     yesVotes p' = yesVotes p ∧ noVotes p' = noVotes p ∧
     totalVoters p' = totalVoters p ∧ hasVoted p' = hasVoted p).
Proof.
  revert w. induction txs as [|[env c] txs IH]; intros w Hj; simpl.
  { split_and!; done. }
  pose proof (run_step env c txs w) as Hrun. simpl in Hrun. rewrite Hrun.
  destruct (transact_tallies env c w j Hj) as (Hj' & Hst & Hy & Hn & Ht & Hv & Hfrozen).
  destruct (IH _ Hj') as (Hy' & Hn' & Ht' & Hv' & Hfrozen').
  split_and!; try lia; [by etrans|].
  intros Hne. destruct (Hfrozen Hne) as (<- & <- & <- & <-).
  apply Hfrozen'. by apply Hst.
Qed.

Lemma tallies_grow_then_freeze_witness :
  yesVotes (proposal (run [ (Scenario.at_ Scenario.carol 5100, Vote 1 true);
                            (Scenario.at_ Scenario.alice 5200,
                             ExecuteApprovedProposal 1) ]
                        Scenario.resolved).1 1)
  = yesVotes (proposal Scenario.resolved 1).
Proof.
  destruct (tallies_grow_then_freeze
              [ (Scenario.at_ Scenario.carol 5100, Vote 1 true);
                (Scenario.at_ Scenario.alice 5200, ExecuteApprovedProposal 1) ]
              Scenario.resolved 1) as (_ & _ & _ & _ & H).
  - vm_compute. split; reflexivity.
  - destruct H as (_ & Hy & _); [vm_compute; discriminate|exact Hy].
Defined.

(** ** Stored proposals and parameters *)

Lemma well_formed_proposal_static i p q :
  static_fields p = static_fields q ->
  well_formed_proposal i p -> well_formed_proposal i q.
Proof.
  unfold static_fields, well_formed_proposal. intros Heq Hwf.
  injection Heq as Hid Hty Hurl Haddr Hdesc Hcre Hend _.
  by rewrite <- Hid, <- Hty, <- Hurl, <- Haddr, <- Hdesc, <- Hcre, <- Hend.
Qed.

Lemma pv_after_well_formed env c w :
  guards env c w -> well_formed (pv w) -> well_formed (pv_after env c (pv w)).
Proof.
  intros Hg (Hmax & Hperiod & Hpct & Hall).
  assert (∀ i f, (∀ p, static_fields (f p) = static_fields p) ->
            well_formed (set_proposals (insert i (f (proposalAt (pv w) i))) (pv w)))
    as Hupdate.
  { intros i f Hf. split_and!; try done; try (simpl; lia). intros j Hj. simpl in *.
    destruct (Hall j Hj) as (p & Hp & Hwf).
    destruct (decide (i = j)) as [->|Hne].
    - rewrite lookup_insert_eq. eexists. split; [done|].
      unfold proposalAt. rewrite Hp. simpl.
      eapply well_formed_proposal_static; [|exact Hwf]. by rewrite Hf.
    - rewrite lookup_insert_ne by done. eauto. }
  destruct c as [t u a d n|i b|i|i|a|p v m|n|a|target rc|token balances];
    simpl in *; try (by apply Hupdate);
    try (by (split_and!; simpl; try done; try lia)).
  destruct Hg as (Hd & Hn & _ & _ & Hnext & Hend & Htype).
    split_and!; simpl; try done; try lia.
    intros j Hj. destruct (decide (nextProposalId (pv w) = j)) as [<-|Hne].
    + rewrite lookup_insert_eq. eexists. split; [done|].
      unfold well_formed_proposal, created. simpl.
      split_and!; try done; try (case_decide; lia); by destruct t.
    + rewrite lookup_insert_ne by done. apply Hall. clear -Hj Hne. lia.
Qed.

Lemma transact_well_formed env c w :
  well_formed (pv w) -> well_formed (pv (transact env c w)).
Proof.
  intros Hwf. destruct (transact_pv env c w) as [->|(Hg & ->)]; [done|].
  by apply pv_after_well_formed.
Qed.

Lemma reachable_well_formed w : reachable w -> well_formed (pv w).
Proof.
  induction 1 as [env reg tok period votes percentage holdings w0 w evs
                    _ _ _ _ _ _ _ _ Hctor|env c w _ IH _ _].
  - apply constructor_inv in Hctor as (Hn & Hp & Hperiod & _ & Hpct & _ & ? & ?).
    unfold well_formed. rewrite Hn, Hperiod, Hpct.
    split_and!; try done; try lia; try (unfold MAX_UINT256; lia).
  - by apply transact_well_formed.
Qed.

(** X3. Every identifier below [nextProposalId] holds a stored proposal that
    carries this identifier, a non-empty description, an end of voting period
    after its creation, and a target that matches its type: a non-empty URL
    and the zero address for the URL types, a non-zero address and the empty
    URL for the address types. *)
Theorem stored_proposals_are_well_formed (w : World) (i : Z) :
  reachable w -> 0 < i < nextProposalId (pv w) ->
  proposals (pv w) !! i = Some (proposal w i) ∧
  well_formed_proposal i (proposal w i).
Proof.
  intros Hr Hi. destruct (reachable_well_formed w Hr) as (_ & _ & _ & Hall).
  destruct (Hall i Hi) as (p & Hp & Hwf). unfold proposal, proposalAt.
  by rewrite Hp.
Qed.

Lemma stored_proposals_are_well_formed_witness :
  well_formed_proposal 1 (proposal Scenario.voted_once 1).
Proof.
  apply (stored_proposals_are_well_formed Scenario.voted_once 1
           scenario_voted_once_reachable).
  vm_compute. split; reflexivity.
Defined.

(** X4. The voting parameters stay in the range the constructor checked:
    the minimum voting period is positive and the approval percentage is
    between 1 and 100.  Hence a proposal without a yes vote is rejected
    whatever the minimum of yes votes is, and a proposal with only yes votes
    that reach this minimum is approved. *)
Theorem voting_parameters_stay_valid (w : World) :
  reachable w ->
  0 < minVotingPeriod (pv w) ∧
  1 <= approvalMajorityPercentage (pv w) <= 100 ∧
  1 <= nextProposalId (pv w) <= MAX_UINT256 ∧
  (∀ total, 0 <= total ->
     spec_decision 0 total (minVotesForApproval (pv w))
       (approvalMajorityPercentage (pv w)) = Rejected) ∧
  (∀ yes, 0 < yes -> minVotesForApproval (pv w) <= yes ->
     spec_decision yes yes (minVotesForApproval (pv w))
       (approvalMajorityPercentage (pv w)) = Approved).
Proof.
  intros Hr. destruct (reachable_well_formed w Hr) as (Hmax & Hperiod & Hpct & _).
  destruct (reachable_consistent w Hr) as (Hone & _).
  split_and!; try lia.
  - intros total Htot. unfold spec_decision. rewrite decide_False; [done|].
    rewrite Z.mul_0_l, Zdiv_0_l. lia.
  - intros yes Hyes Hmin. unfold spec_decision. rewrite decide_True; [done|].
    rewrite (Z.mul_comm yes 100), Z.div_mul by lia. lia.
Qed.

Lemma voting_parameters_stay_valid_witness :
  1 <= approvalMajorityPercentage (pv Scenario.voted_once) <= 100.
Proof.
  destruct (voting_parameters_stay_valid Scenario.voted_once
              scenario_voted_once_reachable) as (_ & H & _).
  exact H.
Defined.

(** ** Who may create a proposal *)

(** Resolves the next guard of the goal, true or false. *)
Ltac mguard :=
  match goal with
  | |- context [decide ?P] =>
      first [ rewrite (decide_True (P := P))
                by first [ done | lia | by left | by right ]
            | rewrite (decide_False (P := P))
                by first [ done | lia | by intros [|] ] ]
  end.

(** X5. Creation is gated.  A successful [createProposal] of an Add type
    means the sender holds at least [minProposerTokenHoldings] of the
    governance token at that moment, and of a Remove type that the sender is
    the owner.  Conversely, with a valid description and duration, an Add
    proposal of a sender below the minimum fails with the token reason, an Add
    proposal fails when the token address holds no contract, and a Remove
    proposal of anybody but the owner fails with the owner reason. *)
Theorem creation_is_gated (env : Env) (t : ProposalType) (u : string) (a : Z)
    (d : string) (n : Z) (w : World) :
  let s := pv w in
  let add := t = AddURL ∨ t = AddAddress in
  let remove := t = RemoveURL ∨ t = RemoveAddress in
  (∀ i w1 evs, createProposal env t u a d n w = Ok (i, w1, evs) ->
     (add -> ∃ balances, tokens w !! governanceTokenContract s = Some balances ∧
               minProposerTokenHoldings s <= default 0 (balances !! msg_sender env)) ∧
     (remove -> msg_sender env = owner s)) ∧
  (0 < Z.of_nat (String.length d) -> 0 < n ->
     (add -> ∀ balances, tokens w !! governanceTokenContract s = Some balances ->
        default 0 (balances !! msg_sender env) < minProposerTokenHoldings s ->
        createProposal env t u a d n w
        = Fail (Revert "Insufficient APGT to create Add proposal")) ∧
     (add -> tokens w !! governanceTokenContract s = None ->
        createProposal env t u a d n w = Fail NoContractCode) ∧
     (remove -> msg_sender env ≠ owner s ->
        createProposal env t u a d n w
        = Fail (Revert "Only owner can create Remove proposals"))).
Proof.
  intros s add remove. subst s add remove. split.
  - intros i w1 evs H. apply createProposal_guards in H.
    destruct H as (_ & _ & Hadd & Hrem & _). by split.
  - intros Hd Hn. split_and!.
    + intros Hadd balances Hb Hlow. unfold createProposal, balanceOf. munfold.
      destruct Hadd as [-> | ->]; repeat (cbn; mguard); cbn; rewrite Hb; cbn;
        by mguard.
    + intros Hadd Hb. unfold createProposal, balanceOf. munfold.
      destruct Hadd as [-> | ->]; repeat (cbn; mguard); cbn; by rewrite Hb.
    + intros Hrem Hne. unfold createProposal, balanceOf. munfold.
      destruct Hrem as [-> | ->]; repeat (cbn; mguard); done.
Qed.

Lemma creation_is_gated_witness :
  createProposal (Scenario.at_ Scenario.carol 1150) AddURL "https://other.example" 0
    "no tokens" 60 Scenario.deployed
  = Fail (Revert "Insufficient APGT to create Add proposal").
Proof.
  destruct (creation_is_gated (Scenario.at_ Scenario.carol 1150) AddURL
              "https://other.example" 0 "no tokens" 60 Scenario.deployed)
    as (_ & H).
  destruct H as (Hlow & _); [vm_compute; reflexivity|vm_compute; reflexivity|].
  apply (Hlow (or_introl eq_refl) {[ Scenario.alice := 1000; Scenario.bob := 200 ]}).
  - vm_compute. reflexivity.
  - vm_compute. reflexivity.
Defined.

(** ** The lists of active proposals and of proposals ready to resolve *)

Lemma countLoop_spec cond (n : nat) (i count : Z) (w : World) :
  0 <= count -> count + Z.of_nat n <= MAX_UINT256 -> i + Z.of_nat n <= MAX_UINT256 ->
  countLoop cond n i count w
  = Ok (count + Z.of_nat (length (List.filter (cond (pv w)) (seqZ i (Z.of_nat n)))),
        w, []).
Proof.
  revert i count. induction n as [|n IH]; intros i count Hc Hcount Hi.
  - simpl. unfold ret. do 3 f_equal. lia.
  - rewrite seqZ_cons by lia.
    replace (Z.pred (Z.of_nat (S n))) with (Z.of_nat n) by lia.
    replace (Z.succ i) with (i + 1) by lia.
    simpl. unfold bind, storage. simpl.
    destruct (cond (pv w) i); unfold checked_add, ret; simpl;
      repeat (rewrite decide_True by lia; simpl);
      rewrite IH by lia; do 3 f_equal; lia.
Qed.

Lemma fillLoop_spec cond (n : nat) (i index : Z) (result : list Z) (w : World) :
  let found := List.filter (cond (pv w)) (seqZ i (Z.of_nat n)) in
  0 <= index -> index + Z.of_nat (length found) <= Z.of_nat (length result) ->
  Z.of_nat (length result) <= MAX_UINT256 -> i + Z.of_nat n <= MAX_UINT256 ->
  fillLoop cond n i index result w
  = Ok (take (Z.to_nat index) result ++ found
          ++ drop (Z.to_nat index + length found) result, w, []).
Proof.
  revert i index result. induction n as [|n IH]; intros i index result found.
  - subst found. simpl. intros. unfold ret. do 3 f_equal.
    rewrite Nat.add_0_r. by rewrite take_drop.
  - subst found. rewrite seqZ_cons by lia.
    replace (Z.pred (Z.of_nat (S n))) with (Z.of_nat n) by lia.
    replace (Z.succ i) with (i + 1) by lia.
    simpl. intros Hidx Hfit Hlen Hi. unfold bind at 1, storage. simpl.
    destruct (cond (pv w) i) eqn:Hcond; simpl in *.
    + rewrite decide_True by lia. unfold bind, checked_add, ret. simpl.
      repeat (rewrite decide_True by lia; simpl).
      rewrite IH by (rewrite ?length_insert; lia).
      do 3 f_equal.
      replace (Z.to_nat (index + 1)) with (S (Z.to_nat index)) by lia.
      erewrite take_S_r by (apply list_lookup_insert_eq; lia).
      rewrite take_insert_ge by lia.
      rewrite drop_insert_lt by lia.
      rewrite <- app_assoc. simpl. by rewrite Nat.add_succ_r.
    + unfold bind, checked_add, ret. simpl.
      repeat (rewrite decide_True by lia; simpl).
      by rewrite IH by lia.
Qed.

Lemma filter_length_le {A} (f : A -> bool) (l : list A) :
  (length (List.filter f l) <= length l)%nat.
Proof. induction l as [|x l IH]; simpl; [done|]. destruct (f x); simpl; lia. Qed.

Lemma listLoops_spec cond (w : World) :
  nextProposalId (pv w) <= MAX_UINT256 ->
  (let! s := storage in
   let! count := countLoop cond (iterations s) 1 0 in
   fillLoop cond (iterations s) 1 0 (replicate (Z.to_nat count) 0)) w
  = Ok (List.filter (cond (pv w)) (existing_ids (pv w)), w, []).
Proof.
  intros Hmax. unfold bind at 1, storage. simpl. unfold bind, iterations, existing_ids.
  set (n := Z.to_nat (nextProposalId (pv w) - 1)).
  assert (Z.of_nat n <= MAX_UINT256) as Hn by (unfold MAX_UINT256 in *; lia).
  pose proof (filter_length_le (cond (pv w)) (seqZ 1 (Z.of_nat n))) as Hle.
  rewrite length_seqZ in Hle.
  rewrite countLoop_spec by (unfold MAX_UINT256 in *; lia). simpl.
  rewrite fillLoop_spec;
    rewrite ?length_replicate; try (unfold MAX_UINT256 in *; lia).
  assert (seqZ 1 (Z.of_nat n) = seqZ 1 (nextProposalId (pv w) - 1)) as Hseq.
  { destruct (decide (0 <= nextProposalId (pv w) - 1)).
    - subst n. by rewrite Z2Nat.id.
    - subst n. rewrite !seqZ_nil; [done|lia|lia]. }
  rewrite Z.add_0_l, Nat2Z.id. change (Z.to_nat 0) with 0%nat.
  rewrite Nat.add_0_l, drop_replicate, Nat.sub_diag. simpl.
  by rewrite app_nil_r, Hseq.
Qed.

Lemma seqZ_sorted (m : Z) (n : nat) : StronglySorted Z.lt (seqZ m (Z.of_nat n)).
Proof.
  revert m. induction n as [|n IH]; intros m.
  - simpl. constructor.
  - rewrite seqZ_cons by lia.
    replace (Z.pred (Z.of_nat (S n))) with (Z.of_nat n) by lia.
    constructor; [apply IH|].
    apply Forall_forall. intros x Hx. apply elem_of_seqZ in Hx. lia.
Qed.

Lemma filter_sorted {A} (R : A -> A -> Prop) (f : A -> bool) (l : list A) :
  StronglySorted R l -> StronglySorted R (List.filter f l).
Proof.
  induction 1 as [|x l Hs IH Hall]; simpl; [constructor|].
  destruct (f x); [|done]. constructor; [done|].
  apply Forall_forall. intros y Hy.
  apply list_elem_of_In, filter_In in Hy as [Hy _].
  rewrite Forall_forall in Hall. by apply Hall, list_elem_of_In.
Qed.

Lemma existing_ids_sorted s : StronglySorted Z.lt (existing_ids s).
Proof.
  unfold existing_ids. destruct (decide (0 <= nextProposalId s - 1)).
  - rewrite <- (Z2Nat.id (nextProposalId s - 1)) by done. apply seqZ_sorted.
  - rewrite seqZ_nil by lia. constructor.
Qed.

Lemma elem_of_existing_filter (f : Z -> bool) s i :
  i ∈ List.filter f (existing_ids s) ↔ 0 < i < nextProposalId s ∧ f i = true.
Proof.
  rewrite list_elem_of_In, filter_In, <- list_elem_of_In.
  unfold existing_ids. rewrite elem_of_seqZ. intuition lia.
Qed.

Lemma elem_of_active env w i :
  i ∈ List.filter (activeCondition env (pv w)) (existing_ids (pv w)) ↔
  0 < i < nextProposalId (pv w) ∧ status (proposal w i) = Active ∧
  block_timestamp env < votingPeriodEnd (proposal w i).
Proof.
  rewrite elem_of_existing_filter. unfold activeCondition.
  rewrite bool_decide_eq_true. by unfold proposal.
Qed.

Lemma elem_of_ready env w i :
  i ∈ List.filter (readyCondition env (pv w)) (existing_ids (pv w)) ↔
  0 < i < nextProposalId (pv w) ∧ status (proposal w i) = Active ∧
  votingPeriodEnd (proposal w i) <= block_timestamp env.
Proof.
  rewrite elem_of_existing_filter. unfold readyCondition.
  rewrite bool_decide_eq_true. by unfold proposal.
Qed.

(** X6. [getActiveProposals] and [getProposalsReadyToResolve] never fail
    (no index leaves the array they fill) and return, in increasing order and
    without repetition, exactly the existing identifiers whose proposal is
    Active with the voting period still running, respectively over.  The two
    lists are disjoint and together hold every Active proposal. *)
Theorem proposal_lists_are_exact (env : Env) (w : World) :
  nextProposalId (pv w) <= MAX_UINT256 ->
  let active := List.filter (activeCondition env (pv w)) (existing_ids (pv w)) in
  let ready := List.filter (readyCondition env (pv w)) (existing_ids (pv w)) in
  getActiveProposals env w = Ok (active, w, []) ∧
  getProposalsReadyToResolve env w = Ok (ready, w, []) ∧
  (∀ i, i ∈ active ↔
        0 < i < nextProposalId (pv w) ∧ status (proposal w i) = Active ∧
        block_timestamp env < votingPeriodEnd (proposal w i)) ∧
  (∀ i, i ∈ ready ↔
        0 < i < nextProposalId (pv w) ∧ status (proposal w i) = Active ∧
        votingPeriodEnd (proposal w i) <= block_timestamp env) ∧
  StronglySorted Z.lt active ∧ StronglySorted Z.lt ready ∧
  (∀ i, i ∈ active -> i ∈ ready -> False) ∧
  (∀ i, 0 < i < nextProposalId (pv w) -> status (proposal w i) = Active ->
        i ∈ active ∨ i ∈ ready).
Proof.
  intros Hmax active ready.
  assert (∀ i, i ∈ active ↔
            0 < i < nextProposalId (pv w) ∧ status (proposal w i) = Active ∧
            block_timestamp env < votingPeriodEnd (proposal w i)) as Hactive.
  { intros i. apply elem_of_active. }
  assert (∀ i, i ∈ ready ↔
            0 < i < nextProposalId (pv w) ∧ status (proposal w i) = Active ∧
            votingPeriodEnd (proposal w i) <= block_timestamp env) as Hready.
  { intros i. apply elem_of_ready. }
  split_and!.
  - by apply listLoops_spec.
  - by apply listLoops_spec.
  - exact Hactive.
  - exact Hready.
  - apply filter_sorted, existing_ids_sorted.
  - apply filter_sorted, existing_ids_sorted.
  - intros i Ha Hr. apply Hactive in Ha. apply Hready in Hr. lia.
  - intros i Hi Hst.
    destruct (decide (block_timestamp env < votingPeriodEnd (proposal w i))).
    + left. by apply Hactive.
    + right. apply Hready. split_and!; [lia|lia|done|lia].
Qed.

Lemma proposal_lists_are_exact_witness :
  getActiveProposals (Scenario.at_ Scenario.carol 1300) Scenario.voted_once
    = Ok ([1], Scenario.voted_once, []) ∧
  getProposalsReadyToResolve (Scenario.at_ Scenario.carol 5000) Scenario.voted_once
    = Ok ([1], Scenario.voted_once, []).
Proof.
  split.
  - destruct (proposal_lists_are_exact (Scenario.at_ Scenario.carol 1300)
                Scenario.voted_once) as (H & _).
    + vm_compute. discriminate.
    + rewrite H. vm_compute. reflexivity.
  - destruct (proposal_lists_are_exact (Scenario.at_ Scenario.carol 5000)
                Scenario.voted_once) as (_ & H & _).
    + vm_compute. discriminate.
    + rewrite H. vm_compute. reflexivity.
Defined.

Lemma vote_ok env i b w :
  let p := proposal w i in
  0 < i < nextProposalId (pv w) -> status p = Active ->
  block_timestamp env < votingPeriodEnd p -> msg_sender env ∉ hasVoted p ->
  totalVoters p + 1 <= MAX_UINT256 -> yesVotes p + 1 <= MAX_UINT256 ->
  noVotes p + 1 <= MAX_UINT256 ->
  vote env i b w
  = Ok (tt, put_proposal i (voted env b p) w,
        [VoteCast i (msg_sender env) b (yesVotes (voted env b p))
           (noVotes (voted env b p))]).
Proof.
  intros p Hi Hst Hend Hnew Ht Hy Hn. subst p.
  unfold vote, proposalExists, proposalActive, proposal in *. munfold.
  destruct b;
    repeat (cbn; rewrite ?put_proposal_twice, ?proposalAt_put_eq,
              ?proposalAt_insert_eq; mguard);
    cbn; rewrite ?put_proposal_twice, ?proposalAt_put_eq, ?proposalAt_insert_eq;
    reflexivity.
Qed.

(** X7. In every reachable world the two lists tell what can be done: the
    resolution of a proposal succeeds exactly when the proposal is in the
    list of proposals ready to resolve, and a vote succeeds exactly when the
    proposal is in the list of active proposals and the sender has not voted
    on it; so no proposal can be voted on and resolved at the same time. *)
Theorem lists_tell_what_succeeds (w : World) (env : Env) (i : Z) (b : bool) :
  reachable w ->
  let active := List.filter (activeCondition env (pv w)) (existing_ids (pv w)) in
  let ready := List.filter (readyCondition env (pv w)) (existing_ids (pv w)) in
  (is_ok (endProposalAndExecute env i w) = true ↔ i ∈ ready) ∧
  (is_ok (vote env i b w) = true ↔
     i ∈ active ∧ (msg_sender env ∉ hasVoted (proposal w i))) ∧
  (is_ok (vote env i b w) = true ->
     is_ok (endProposalAndExecute env i w) = false).
Proof.
  intros Hr active ready.
  destruct (reachable_well_formed w Hr) as (Hmax & _).
  pose proof (elem_of_active env w) as Ha. pose proof (elem_of_ready env w) as Hrd.
  fold active in Ha. fold ready in Hrd.
  pose proof (tallies_bound _
    (consistent_proposalAt _ i (reachable_consistent w Hr))) as (Hy & Hmul & Htot).
  destruct (consistent_proposalAt _ i (reachable_consistent w Hr))
    as (Hsum & _ & Hno & Hsize & Haddr).
  assert (Z.of_nat (size (hasVoted (proposalAt (pv w) i))) <= ADDRESS_LIMIT) as Hb.
  { apply gset_size_bound; [unfold ADDRESS_LIMIT; lia|]. intros a Hin. by apply Haddr. }
  assert (is_ok (endProposalAndExecute env i w) = true ↔ i ∈ ready) as Hresolve.
  { rewrite Hrd. split.
    - destruct (endProposalAndExecute env i w) as [[[u w1] evs]|] eqn:H; [|done].
      intros _. by apply endProposalAndExecute_inv in H as (? & ? & ? & _).
    - intros (Hi & Hst & Hend).
      by rewrite (endProposalAndExecute_ok env i w Hi Hst Hend Hmul). }
  assert (is_ok (vote env i b w) = true ↔
            i ∈ active ∧ (msg_sender env ∉ hasVoted (proposal w i))) as Hvote.
  { rewrite Ha. split.
    - destruct (vote env i b w) as [[[u w1] evs]|] eqn:H; [|done].
      intros _. by apply vote_inv in H as (? & ? & ? & ? & _).
    - intros ((Hi & Hst & Hend) & Hnew).
      rewrite (vote_ok env i b w Hi Hst Hend Hnew); [done| | |];
        unfold proposal, ADDRESS_LIMIT, MAX_UINT256 in *; lia. }
  split_and!; [done|done|].
  intros Hv. apply Hvote in Hv as (Hin & _).
  destruct Hresolve as [Hres _].
  destruct (is_ok (endProposalAndExecute env i w)); [|done].
  specialize (Hres eq_refl). apply Ha in Hin. apply Hrd in Hres. lia.
Qed.

Lemma lists_tell_what_succeeds_witness :
  is_ok (endProposalAndExecute (Scenario.at_ Scenario.carol 5000) 1
           Scenario.voted_once) = true.
Proof.
  destruct (lists_tell_what_succeeds Scenario.voted_once
              (Scenario.at_ Scenario.carol 5000) 1 true
              scenario_voted_once_reachable) as (H & _).
  apply H. vm_compute. left.
Defined.

(** ** Read-only queries *)

(** X8. For an existing proposal of a reachable world [getVotingResults]
    succeeds and returns the three tallies, which satisfy
    yes + no = total, and the percentage of yes votes rounded down, which is
    0 when nobody voted and never above 100; for any other identifier it
    fails. *)
Theorem voting_results_are_percentages (w : World) (i : Z) :
  reachable w ->
  let p := proposal w i in
  (0 < i < nextProposalId (pv w) ->
     ∃ percentage,
       getVotingResults i w
         = Ok ((yesVotes p, noVotes p, totalVoters p, percentage), w, []) ∧
       yesVotes p + noVotes p = totalVoters p ∧
       0 <= percentage <= 100 ∧
       (totalVoters p = 0 -> percentage = 0) ∧
       (0 < totalVoters p -> percentage = (yesVotes p * 100) / totalVoters p)) ∧
  (¬ 0 < i < nextProposalId (pv w) ->
     getVotingResults i w = Fail (Revert "Proposal does not exist")).
Proof.
  intros Hr p. subst p.
  pose proof (consistent_proposalAt _ i (reachable_consistent w Hr)) as Hc.
  pose proof (tallies_bound _ Hc) as (Hy & Hmul & Htot).
  destruct Hc as (Hsum & _ & Hno & _).
  unfold proposal in *. split.
  - intros Hi. unfold getVotingResults, proposalExists. munfold. cbn.
    rewrite decide_True by done. cbn.
    destruct (decide (0 < totalVoters (proposalAt (pv w) i))) as [Hpos|Hzero]; cbn.
    + rewrite decide_True by done. cbn. rewrite decide_False by lia. cbn.
      eexists. split; [reflexivity|].
      assert (0 <= yesVotes (proposalAt (pv w) i) * 100 / totalVoters (proposalAt (pv w) i))
        by (apply Z.div_pos; lia).
      assert (yesVotes (proposalAt (pv w) i) * 100 / totalVoters (proposalAt (pv w) i) <= 100)
        by (apply Z.div_le_upper_bound; lia).
      split_and!; try lia; done.
    + eexists. split; [reflexivity|]. split_and!; try lia; done.
  - intros Hi. unfold getVotingResults, proposalExists. munfold. cbn.
    by rewrite decide_False.
Qed.

Lemma voting_results_are_percentages_witness :
  getVotingResults 1 Scenario.tied = Ok ((1, 1, 2, 50), Scenario.tied, []).
Proof.
  assert (reachable Scenario.tied) as Hr.
  { do 2 (apply reachable_transact;
            [|apply scenario_wf_env;
               unfold Scenario.alice, Scenario.bob, Scenario.carol; lia
             |unfold wf_call, is_uint256, MAX_UINT256; lia]).
    apply scenario_voted_once_reachable. }
  destruct (voting_results_are_percentages Scenario.tied 1 Hr) as (H & _).
  destruct H as (pct & Hq & _ & _ & _ & Hpct); [vm_compute; split; reflexivity|].
  rewrite Hq, Hpct; [|vm_compute; reflexivity]. vm_compute. reflexivity.
Defined.

(** X9. A created proposal starts with an empty record of voters and zero
    tallies (its identifier was never used before), so [hasVotedOnProposal]
    is false for everybody; after a successful vote it is true for the voter
    and as before for everybody else. *)
Theorem voter_record_starts_empty (w : World) (env : Env) :
  reachable w ->
  (∀ t u a d n i w1 evs,
     createProposal env t u a d n w = Ok (i, w1, evs) ->
     hasVoted (proposal w1 i) = ∅ ∧
     (yesVotes (proposal w1 i), noVotes (proposal w1 i), totalVoters (proposal w1 i))
       = (0, 0, 0) ∧
     ∀ v, hasVotedOnProposal i v w1 = Ok (false, w1, [])) ∧
  (∀ i b u w1 evs,
     vote env i b w = Ok (u, w1, evs) ->
     hasVotedOnProposal i (msg_sender env) w1 = Ok (true, w1, []) ∧
     ∀ v, v ≠ msg_sender env ->
       ∃ voted_before,
         hasVotedOnProposal i v w = Ok (voted_before, w, []) ∧
         hasVotedOnProposal i v w1 = Ok (voted_before, w1, [])).
Proof.
  intros Hr. destruct (reachable_consistent w Hr) as (Hone & Hfresh & _). split.
  - intros t u a d n i w1 evs H.
    apply createProposal_inv in H as (-> & Hmax & -> & _).
    pose proof (Hfresh (nextProposalId (pv w)) (Z.le_refl _)) as Hslot.
    rewrite proposal_put_eq. simpl. unfold proposalAt.
    rewrite Hslot. simpl. split_and!; try done.
    intros v. unfold hasVotedOnProposal, proposalExists. munfold. cbn.
    rewrite decide_True by (simpl; lia). cbn. rewrite proposalAt_put_eq. simpl.
    unfold proposalAt. rewrite Hslot. simpl.
    by rewrite bool_decide_eq_false_2 by apply not_elem_of_empty.
  - intros i b u w1 evs H.
    apply vote_inv in H as (Hi & _ & _ & Hnew & _ & -> & _).
    unfold hasVotedOnProposal, proposalExists. munfold. cbn.
    rewrite !decide_True by done. cbn. rewrite proposalAt_put_eq. simpl.
    split.
    + rewrite bool_decide_eq_true_2; [done|].
      apply elem_of_union. left. by apply elem_of_singleton.
    + intros v Hv. eexists. split; [reflexivity|]. do 3 f_equal.
      apply bool_decide_ext. rewrite elem_of_union, elem_of_singleton.
      unfold proposal. intuition congruence.
Qed.

Lemma voter_record_starts_empty_witness :
  hasVotedOnProposal 1 Scenario.bob Scenario.proposed
  = Ok (false, Scenario.proposed, []).
Proof.
  destruct (voter_record_starts_empty Scenario.deployed (Scenario.at_ Scenario.bob 1100)
              scenario_deployed_reachable) as (H & _).
  destruct (H AddURL "https://scam.example" 0 "phishing site" 60 1 Scenario.proposed
              [ProposalCreated 1 AddURL "https://scam.example" 0 "phishing site"
                 Scenario.bob 1100 4700]) as (_ & _ & Hv).
  - vm_compute. reflexivity.
  - apply Hv.
Defined.

(** ** The registry *)

Lemma addURL_inv env u p s x s' evs :
  BlacklistRegistry.addURL env u p s = Ok (x, s', evs) ->
  msg_sender env = BlacklistRegistry.proposalVotingContract s ∧
  0 < Z.of_nat (String.length u) ∧
  BlacklistRegistry.exists_ (BlacklistRegistry.urlEntry s u) = false ∧ p ≠ 0 ∧
  s' = BlacklistRegistry.set_blacklistedURLs
         (insert u {| BlacklistRegistry.entryType := URL;
                      BlacklistRegistry.timestamp := block_timestamp env;
                      BlacklistRegistry.proposer := p;
                      BlacklistRegistry.exists_ := true |}) s ∧
  evs = [EntryAdded URL u 0 (block_timestamp env) p].
Proof.
  unfold BlacklistRegistry.addURL, BlacklistRegistry.onlyProposalVotingContract.
  intros H. minv. by split_and!.
Qed.

Lemma addAddress_inv env a p s x s' evs :
  BlacklistRegistry.addAddress env a p s = Ok (x, s', evs) ->
  msg_sender env = BlacklistRegistry.proposalVotingContract s ∧ a ≠ 0 ∧
  BlacklistRegistry.exists_ (BlacklistRegistry.addressEntry s a) = false ∧ p ≠ 0 ∧
  s' = BlacklistRegistry.set_blacklistedAddresses
         (insert a {| BlacklistRegistry.entryType := Address;
                      BlacklistRegistry.timestamp := block_timestamp env;
                      BlacklistRegistry.proposer := p;
                      BlacklistRegistry.exists_ := true |}) s ∧
  evs = [EntryAdded Address "" a (block_timestamp env) p].
Proof.
  unfold BlacklistRegistry.addAddress, BlacklistRegistry.onlyProposalVotingContract.
  intros H. minv. by split_and!.
Qed.

Lemma removeURL_inv env u r s x s' evs :
  BlacklistRegistry.removeURL env u r s = Ok (x, s', evs) ->
  msg_sender env = BlacklistRegistry.proposalVotingContract s ∧
  0 < Z.of_nat (String.length u) ∧
  BlacklistRegistry.exists_ (BlacklistRegistry.urlEntry s u) = true ∧ r ≠ 0 ∧
  s' = BlacklistRegistry.set_blacklistedURLs (delete u) s ∧
  evs = [EntryRemoved URL u 0 (block_timestamp env) r].
Proof.
  unfold BlacklistRegistry.removeURL, BlacklistRegistry.onlyProposalVotingContract.
  intros H. minv. by split_and!.
Qed.

Lemma removeAddress_inv env a r s x s' evs :
  BlacklistRegistry.removeAddress env a r s = Ok (x, s', evs) ->
  msg_sender env = BlacklistRegistry.proposalVotingContract s ∧ a ≠ 0 ∧
  BlacklistRegistry.exists_ (BlacklistRegistry.addressEntry s a) = true ∧ r ≠ 0 ∧
  s' = BlacklistRegistry.set_blacklistedAddresses (delete a) s ∧
  evs = [EntryRemoved Address "" a (block_timestamp env) r].
Proof.
  unfold BlacklistRegistry.removeAddress, BlacklistRegistry.onlyProposalVotingContract.
  intros H. minv. by split_and!.
Qed.

Lemma updateProposalVotingContract_inv env a s x s' evs :
  BlacklistRegistry.updateProposalVotingContract env a s = Ok (x, s', evs) ->
  msg_sender env = BlacklistRegistry.owner s ∧ a ≠ 0 ∧
  a ≠ BlacklistRegistry.proposalVotingContract s ∧
  s' = BlacklistRegistry.set_proposalVotingContract a s ∧
  evs = [ProposalVotingContractUpdated (BlacklistRegistry.proposalVotingContract s) a
           (block_timestamp env)].
Proof.
  unfold BlacklistRegistry.updateProposalVotingContract, BlacklistRegistry.onlyOwner.
  intros H. minv. by split_and!.
Qed.

Lemma registry_transferOwnership_inv env a s x s' evs :
  BlacklistRegistry.transferOwnership env a s = Ok (x, s', evs) ->
  msg_sender env = BlacklistRegistry.owner s ∧ a ≠ 0 ∧ a ≠ BlacklistRegistry.owner s ∧
  s' = BlacklistRegistry.set_owner a s ∧
  evs = [RegistryOwnershipTransferred (BlacklistRegistry.owner s) a].
Proof.
  unfold BlacklistRegistry.transferOwnership, BlacklistRegistry.onlyOwner.
  intros H. minv. by split_and!.
Qed.

(** Takes a successful call of a registry entry point apart. *)
Ltac rinv H :=
  first
    [ apply addURL_inv in H as (? & ? & ? & ? & -> & ->)
    | apply addAddress_inv in H as (? & ? & ? & ? & -> & ->)
    | apply removeURL_inv in H as (? & ? & ? & ? & -> & ->)
    | apply removeAddress_inv in H as (? & ? & ? & ? & -> & ->)
    | apply updateProposalVotingContract_inv in H as (? & ? & ? & -> & ->)
    | apply registry_transferOwnership_inv in H as (? & ? & ? & -> & ->) ].

Lemma registry_constructor_well_formed env a s :
  BlacklistRegistry.constructor env a = Ok s -> registry_well_formed s.
Proof.
  unfold BlacklistRegistry.constructor. case_decide; [|done]. intros [= <-].
  split_and!; simpl; [done| |]; intros k e; by rewrite lookup_empty.
Qed.

Lemma registry_entry_well_formed env c s u s' evs :
  registry_well_formed s -> registry_entry env c s = Ok (u, s', evs) ->
  registry_well_formed s'.
Proof.
  intros (Hpvc & Hurls & Haddrs) H.
  destruct c; simpl in H; rinv H; (split_and!; simpl; [done| |]); try done.
  - intros k e [[<- <-]|[_ ?]]%lookup_insert_Some; [by split_and!|eauto].
  - intros k e [[<- <-]|[_ ?]]%lookup_insert_Some; [by split_and!|eauto].
  - intros k e [_ ?]%lookup_delete_Some. eauto.
  - intros k e [_ ?]%lookup_delete_Some. eauto.
Qed.

Lemma registry_reachable_well_formed s : registry_reachable s -> registry_well_formed s.
Proof.
  induction 1; eauto using registry_constructor_well_formed, registry_entry_well_formed.
Qed.

Lemma urlEntry_absent s u :
  registry_well_formed s ->
  BlacklistRegistry.exists_ (BlacklistRegistry.urlEntry s u) = false ->
  BlacklistRegistry.blacklistedURLs s !! u = None.
Proof.
  intros (_ & Hurls & _). unfold BlacklistRegistry.urlEntry.
  destruct (BlacklistRegistry.blacklistedURLs s !! u) as [e|] eqn:He; [|done].
  simpl. destruct (Hurls u e He) as (-> & _). done.
Qed.

Lemma addressEntry_absent s a :
  registry_well_formed s ->
  BlacklistRegistry.exists_ (BlacklistRegistry.addressEntry s a) = false ->
  BlacklistRegistry.blacklistedAddresses s !! a = None.
Proof.
  intros (_ & _ & Haddrs). unfold BlacklistRegistry.addressEntry.
  destruct (BlacklistRegistry.blacklistedAddresses s !! a) as [e|] eqn:He; [|done].
  simpl. destruct (Haddrs a e He) as (-> & _). done.
Qed.

(** X10. In every registry that the constructor and the entry points
    produce, the authorised voting contract is not the zero address, the
    empty URL and the zero address are never blacklisted, and the details
    returned for a blacklisted URL (address) are an entry of type URL
    (Address) with a proposer that is not the zero address; the details of a
    value that is not blacklisted cannot be read. *)
Theorem registry_entries_are_well_formed (s : BlacklistRegistry.Storage) :
  registry_reachable s ->
  BlacklistRegistry.proposalVotingContract s ≠ 0 ∧
  BlacklistRegistry.isURLBlacklisted "" s = Ok (false, s, []) ∧
  BlacklistRegistry.isAddressBlacklisted 0 s = Ok (false, s, []) ∧
  (∀ u,
     (BlacklistRegistry.isURLBlacklisted u s = Ok (true, s, []) ∧
      ∃ e, BlacklistRegistry.getURLDetails u s = Ok (e, s, []) ∧
           BlacklistRegistry.entryType e = URL ∧
           BlacklistRegistry.exists_ e = true ∧ BlacklistRegistry.proposer e ≠ 0) ∨
     (BlacklistRegistry.isURLBlacklisted u s = Ok (false, s, []) ∧
      BlacklistRegistry.getURLDetails u s = Fail (Revert "URL is not blacklisted"))) ∧
  (∀ a,
     (BlacklistRegistry.isAddressBlacklisted a s = Ok (true, s, []) ∧
      ∃ e, BlacklistRegistry.getAddressDetails a s = Ok (e, s, []) ∧
           BlacklistRegistry.entryType e = Address ∧
           BlacklistRegistry.exists_ e = true ∧ BlacklistRegistry.proposer e ≠ 0) ∨
     (BlacklistRegistry.isAddressBlacklisted a s = Ok (false, s, []) ∧
      BlacklistRegistry.getAddressDetails a s
        = Fail (Revert "Address is not blacklisted"))).
Proof.
  intros Hr. pose proof (registry_reachable_well_formed s Hr) as Hwf.
  destruct Hwf as (Hpvc & Hurls & Haddrs).
  unfold BlacklistRegistry.isURLBlacklisted, BlacklistRegistry.isAddressBlacklisted,
    BlacklistRegistry.getURLDetails, BlacklistRegistry.getAddressDetails,
    BlacklistRegistry.urlEntry, BlacklistRegistry.addressEntry.
  munfold. cbn. split_and!; [done| | | |].
  - destruct (BlacklistRegistry.blacklistedURLs s !! "") as [e|] eqn:He; [|done].
    destruct (Hurls _ _ He) as (_ & _ & _ & Hlen). simpl in Hlen. lia.
  - destruct (BlacklistRegistry.blacklistedAddresses s !! 0) as [e|] eqn:He; [|done].
    by destruct (Haddrs _ _ He) as (_ & _ & _ & ?).
  - intros u.
    destruct (BlacklistRegistry.blacklistedURLs s !! u) as [e|] eqn:He; simpl.
    + destruct (Hurls _ _ He) as (Hex & ? & ? & _). rewrite Hex. left.
      split; [done|]. exists e. by rewrite decide_True.
    + by right.
  - intros a.
    destruct (BlacklistRegistry.blacklistedAddresses s !! a) as [e|] eqn:He; simpl.
    + destruct (Haddrs _ _ He) as (Hex & ? & ? & _). rewrite Hex. left.
      split; [done|]. exists e. by rewrite decide_True.
    + by right.
Qed.

Lemma scenario_listed_reachable : registry_reachable Scenario.listedRegistry.
Proof.
  eapply (registry_called (Scenario.at_ Scenario.votingAddress 5100)
            (RegistryAddURL "https://scam.example" Scenario.bob)
            Scenario.emptyRegistry).
  - by apply (registry_constructed (Scenario.at_ Scenario.alice 900)
                Scenario.votingAddress).
  - vm_compute. reflexivity.
Qed.

Lemma registry_entries_are_well_formed_witness :
  BlacklistRegistry.isURLBlacklisted "" Scenario.listedRegistry
  = Ok (false, Scenario.listedRegistry, []).
Proof.
  apply (registry_entries_are_well_formed _ scenario_listed_reachable).
Defined.

Lemma not_voting_contract_fails env c s :
  msg_sender env ≠ BlacklistRegistry.proposalVotingContract s ->
  changes_blacklist c ->
  registry_entry env c s
  = Fail (Revert "Only ProposalVoting contract can call this function").
Proof.
  intros Hs Hc. destruct c; try done; simpl;
    unfold BlacklistRegistry.addURL, BlacklistRegistry.addAddress,
      BlacklistRegistry.removeURL, BlacklistRegistry.removeAddress,
      BlacklistRegistry.onlyProposalVotingContract;
    munfold; cbn; by rewrite decide_False.
Qed.

Lemma not_registry_owner_fails env c s :
  msg_sender env ≠ BlacklistRegistry.owner s ->
  ¬ changes_blacklist c ->
  registry_entry env c s = Fail (Revert "Only owner can call this function").
Proof.
  intros Hs Hc. destruct c; try (by destruct Hc); simpl;
    unfold BlacklistRegistry.updateProposalVotingContract,
      BlacklistRegistry.transferOwnership, BlacklistRegistry.onlyOwner;
    munfold; cbn; by rewrite decide_False.
Qed.

(** X11. Access control of the registry.  A call of [addURL], [addAddress],
    [removeURL] or [removeAddress] by anyone but the authorised voting
    contract fails, and so does a call of [updateProposalVotingContract] or
    [transferOwnership] by anyone but the owner; so a caller that is neither
    changes nothing, and no call by a caller other than the voting contract
    changes the blacklist, not even a call by the owner. *)
Theorem registry_access_is_controlled (env : Env) (c : RegistryCall)
    (s : BlacklistRegistry.Storage) :
  (msg_sender env ≠ BlacklistRegistry.proposalVotingContract s ->
     (changes_blacklist c ->
        registry_entry env c s
        = Fail (Revert "Only ProposalVoting contract can call this function")) ∧
     ∀ u s' evs, registry_entry env c s = Ok (u, s', evs) ->
       BlacklistRegistry.blacklistedURLs s' = BlacklistRegistry.blacklistedURLs s ∧
       BlacklistRegistry.blacklistedAddresses s'
         = BlacklistRegistry.blacklistedAddresses s) ∧
  (msg_sender env ≠ BlacklistRegistry.owner s ->
     (¬ changes_blacklist c ->
        registry_entry env c s = Fail (Revert "Only owner can call this function")) ∧
     ∀ u s' evs, registry_entry env c s = Ok (u, s', evs) ->
       BlacklistRegistry.owner s' = BlacklistRegistry.owner s ∧
       BlacklistRegistry.proposalVotingContract s'
         = BlacklistRegistry.proposalVotingContract s) ∧
  (msg_sender env ≠ BlacklistRegistry.proposalVotingContract s ->
   msg_sender env ≠ BlacklistRegistry.owner s ->
     ∃ reason, registry_entry env c s = Fail (Revert reason)).
Proof.
  split_and!.
  - intros Hs. split; [by apply not_voting_contract_fails|].
    intros u s' evs H. destruct c; simpl in H; rinv H; done.
  - intros Hs. split; [by apply not_registry_owner_fails|].
    intros u s' evs H. destruct c; simpl in H; rinv H; done.
  - intros Hv Ho. destruct c;
      try (by (eexists; apply not_voting_contract_fails; [done|exact I]));
      eexists; (apply not_registry_owner_fails; [done|by intros []]).
Qed.

Lemma registry_access_is_controlled_witness :
  registry_entry (Scenario.at_ Scenario.alice 6000)
    (RegistryRemoveURL "https://scam.example" Scenario.alice) Scenario.listedRegistry
  = Fail (Revert "Only ProposalVoting contract can call this function").
Proof.
  destruct (registry_access_is_controlled (Scenario.at_ Scenario.alice 6000)
              (RegistryRemoveURL "https://scam.example" Scenario.alice)
              Scenario.listedRegistry) as (H & _).
  apply H; vm_compute; done.
Defined.

(** X12. When the owner of a registry names a new voting contract, the new
    address is not zero, the blacklist and the owner are as before, the
    contract named before can no longer add or remove entries, and the new
    one passes the check of the caller: its additions and removals fail for
    a reason in the arguments or in the blacklist only.  When the owner
    hands the ownership over, the previous owner can no longer name a voting
    contract or a new owner. *)
Theorem registry_authority_is_handed_over (env : Env) (a : Z)
    (s s' : BlacklistRegistry.Storage) (x : unit) (evs : list Event) :
  (BlacklistRegistry.updateProposalVotingContract env a s = Ok (x, s', evs) ->
     BlacklistRegistry.proposalVotingContract s' = a ∧ a ≠ 0 ∧
     BlacklistRegistry.owner s' = BlacklistRegistry.owner s ∧
     BlacklistRegistry.blacklistedURLs s' = BlacklistRegistry.blacklistedURLs s ∧
     BlacklistRegistry.blacklistedAddresses s'
       = BlacklistRegistry.blacklistedAddresses s ∧
     (∀ env' c, msg_sender env' = BlacklistRegistry.proposalVotingContract s ->
        changes_blacklist c ->
        registry_entry env' c s'
        = Fail (Revert "Only ProposalVoting contract can call this function")) ∧
     (∀ env' c, msg_sender env' = a -> changes_blacklist c ->
        registry_entry env' c s'
        ≠ Fail (Revert "Only ProposalVoting contract can call this function"))) ∧
  (BlacklistRegistry.transferOwnership env a s = Ok (x, s', evs) ->
     BlacklistRegistry.owner s' = a ∧ a ≠ 0 ∧
     BlacklistRegistry.proposalVotingContract s'
       = BlacklistRegistry.proposalVotingContract s ∧
     ∀ env' c, msg_sender env' = BlacklistRegistry.owner s ->
       ¬ changes_blacklist c ->
       registry_entry env' c s' = Fail (Revert "Only owner can call this function")).
Proof.
  split; intros H; rinv H; simpl.
  - split_and!; try done.
    + intros env' c Hs Hc. apply not_voting_contract_fails; [|done].
      simpl. congruence.
    + intros env' c Hs Hc. destruct c; try done; simpl;
        unfold BlacklistRegistry.addURL, BlacklistRegistry.addAddress,
          BlacklistRegistry.removeURL, BlacklistRegistry.removeAddress,
          BlacklistRegistry.onlyProposalVotingContract;
        munfold; cbn; rewrite (decide_True (P := msg_sender env' = a)) by done; cbn;
        repeat (case_decide; cbn; try done).
  - split_and!; try done.
    intros env' c Hs Hc. apply not_registry_owner_fails; [|done].
    simpl. congruence.
Qed.

Lemma registry_authority_is_handed_over_witness :
  registry_entry (Scenario.at_ Scenario.votingAddress 7000)
    (RegistryRemoveURL "https://scam.example" Scenario.alice)
    (BlacklistRegistry.set_proposalVotingContract 701 Scenario.listedRegistry)
  = Fail (Revert "Only ProposalVoting contract can call this function").
Proof.
  destruct (registry_authority_is_handed_over (Scenario.at_ Scenario.alice 6500) 701
              Scenario.listedRegistry
              (BlacklistRegistry.set_proposalVotingContract 701 Scenario.listedRegistry)
              tt [ProposalVotingContractUpdated Scenario.votingAddress 701 6500])
    as (H & _).
  destruct H as (_ & _ & _ & _ & _ & Hold & _); [vm_compute; reflexivity|].
  apply Hold; vm_compute; done.
Defined.

(** X13. A removal undoes an addition: in a registry that the constructor
    and the entry points produce, when a URL (an address) is added and then
    removed by the voting contract, the removal succeeds and the storage of
    the registry is what it was before the addition. *)
Theorem removal_undoes_addition (s s1 : BlacklistRegistry.Storage) (env env' : Env)
    (p r : Z) (x : unit) (evs : list Event) :
  registry_reachable s ->
  msg_sender env' = msg_sender env -> r ≠ 0 ->
  (∀ u, BlacklistRegistry.addURL env u p s = Ok (x, s1, evs) ->
     BlacklistRegistry.removeURL env' u r s1
     = Ok (tt, s, [EntryRemoved URL u 0 (block_timestamp env') r])) ∧
  (∀ a, BlacklistRegistry.addAddress env a p s = Ok (x, s1, evs) ->
     BlacklistRegistry.removeAddress env' a r s1
     = Ok (tt, s, [EntryRemoved Address "" a (block_timestamp env') r])).
Proof.
  intros Hr Hsender Hrem.
  pose proof (registry_reachable_well_formed s Hr) as Hwf. split.
  - intros u H. rinv H.
    match goal with H : BlacklistRegistry.exists_ _ = false |- _ =>
      apply (urlEntry_absent s u Hwf) in H as Habsent end.
    unfold BlacklistRegistry.removeURL, BlacklistRegistry.onlyProposalVotingContract,
      BlacklistRegistry.urlEntry.
    munfold. cbn. rewrite !decide_True by (done || congruence). cbn.
    rewrite lookup_insert_eq. cbn. rewrite ?decide_True by done. cbn.
    do 3 f_equal. destruct s. unfold BlacklistRegistry.set_blacklistedURLs. simpl in *.
    f_equal. by apply delete_insert_id.
  - intros a H. rinv H.
    match goal with H : BlacklistRegistry.exists_ _ = false |- _ =>
      apply (addressEntry_absent s a Hwf) in H as Habsent end.
    unfold BlacklistRegistry.removeAddress, BlacklistRegistry.onlyProposalVotingContract,
      BlacklistRegistry.addressEntry.
    munfold. cbn. rewrite !decide_True by (done || congruence). cbn.
    rewrite lookup_insert_eq. cbn. rewrite ?decide_True by done. cbn.
    do 3 f_equal. destruct s. unfold BlacklistRegistry.set_blacklistedAddresses.
    simpl in *. f_equal. by apply delete_insert_id.
Qed.

Lemma removal_undoes_addition_witness :
  BlacklistRegistry.removeURL (Scenario.at_ Scenario.votingAddress 8000)
    "https://scam.example" Scenario.alice Scenario.listedRegistry
  = Ok (tt, Scenario.emptyRegistry,
        [EntryRemoved URL "https://scam.example" 0 8000 Scenario.alice]).
Proof.
  destruct (removal_undoes_addition Scenario.emptyRegistry Scenario.listedRegistry
              (Scenario.at_ Scenario.votingAddress 5100)
              (Scenario.at_ Scenario.votingAddress 8000)
              Scenario.bob Scenario.alice tt
              [EntryAdded URL "https://scam.example" 0 5100 Scenario.bob]) as (H & _).
  - by apply (registry_constructed (Scenario.at_ Scenario.alice 900)
                Scenario.votingAddress).
  - reflexivity.
  - unfold Scenario.alice. lia.
  - apply H. vm_compute. reflexivity.
Defined.

(** ** Execution and the registry *)

Lemma executeApprovedProposal_registry env i w u w1 evs :
  executeApprovedProposal env i w = Ok (u, w1, evs) ->
  let p := proposal w i in
  ∃ r r' revs,
    registries w !! blacklistRegistry (pv w) = Some r ∧
    registry_operation p
      {| msg_sender := this w; block_timestamp := block_timestamp env |} r
      = Ok (tt, r', revs) ∧
    w1 = put_proposal i (with_status Executed p)
           (set_registries (insert (blacklistRegistry (pv w)) r') w) ∧
    evs = revs ++ [ProposalExecuted i (proposalType p) (urlValue p) (addressValue p)
                     (msg_sender env);
                   ProposalStatusUpdated i Approved Executed].
Proof.
  unfold executeApprovedProposal, onlyOwner, proposalExists, proposal, registry_operation.
  intros H. minv;
    repeat match goal with
    | H : call_registry _ _ _ _ = Ok _ |- _ =>
        apply call_registry_inv in H as (r & r' & Hr & Hop & ->)
    end;
    try (by match goal with
            | H1 : proposalType ?p ≠ AddURL, H2 : proposalType ?p ≠ AddAddress,
              H3 : proposalType ?p ≠ RemoveURL, H4 : proposalType ?p ≠ RemoveAddress
              |- _ => destruct (proposalType p)
            end);
    exists r, r'; eexists; (split; [exact Hr|]);
    match goal with H : proposalType _ = _ |- _ => rewrite H in * end;
    (split; [exact Hop|]); mclean; simpl;
    match goal with H : status _ = Approved |- _ => rewrite H end;
    (split; [done|]);
    by match goal with H : proposalType _ = _ |- _ => rewrite H end.
Qed.

(** X14. A successful [executeApprovedProposal] calls, with the voting
    contract as the caller, the registry the voting contract points to, and
    that registry is the only one to change: after the execution of an Add
    proposal the value, which was not blacklisted, is, with the proposer of
    the proposal (not the executor) and the time of the execution as its
    details; after that of a Remove proposal the value, which was
    blacklisted, is not.  The other entries are as before, and the events
    are that of the registry, [ProposalExecuted] and [ProposalStatusUpdated]
    from Approved to Executed, in this order. *)
Theorem execution_applies_the_proposal (env : Env) (i : Z) (w w1 : World) (u : unit)
    (evs : list Event) :
  executeApprovedProposal env i w = Ok (u, w1, evs) ->
  let p := proposal w i in
  let target := blacklistRegistry (pv w) in
  ∃ r r' e,
    registries w !! target = Some r ∧
    registries w1 = <[target := r']> (registries w) ∧
    BlacklistRegistry.proposalVotingContract r = this w ∧
    BlacklistRegistry.proposalVotingContract r' = this w ∧
    BlacklistRegistry.owner r' = BlacklistRegistry.owner r ∧
    evs = [e;
           ProposalExecuted i (proposalType p) (urlValue p) (addressValue p)
             (msg_sender env);
           ProposalStatusUpdated i Approved Executed] ∧
    let entry t :=
      {| BlacklistRegistry.entryType := t;
         BlacklistRegistry.timestamp := block_timestamp env;
         BlacklistRegistry.proposer := proposer p;
         BlacklistRegistry.exists_ := true |} in
    match proposalType p with
    | AddURL =>
        BlacklistRegistry.isURLBlacklisted (urlValue p) r = Ok (false, r, []) ∧
        BlacklistRegistry.getURLDetails (urlValue p) r' = Ok (entry URL, r', []) ∧
        e = EntryAdded URL (urlValue p) 0 (block_timestamp env) (proposer p) ∧
        (∀ v, v ≠ urlValue p ->
           BlacklistRegistry.urlEntry r' v = BlacklistRegistry.urlEntry r v) ∧
        BlacklistRegistry.blacklistedAddresses r'
          = BlacklistRegistry.blacklistedAddresses r
    | AddAddress =>
        BlacklistRegistry.isAddressBlacklisted (addressValue p) r = Ok (false, r, []) ∧
        BlacklistRegistry.getAddressDetails (addressValue p) r'
          = Ok (entry Address, r', []) ∧
        e = EntryAdded Address "" (addressValue p) (block_timestamp env) (proposer p) ∧
        (∀ a, a ≠ addressValue p ->
           BlacklistRegistry.addressEntry r' a = BlacklistRegistry.addressEntry r a) ∧
        BlacklistRegistry.blacklistedURLs r' = BlacklistRegistry.blacklistedURLs r
    | RemoveURL =>
        BlacklistRegistry.isURLBlacklisted (urlValue p) r = Ok (true, r, []) ∧
        BlacklistRegistry.isURLBlacklisted (urlValue p) r' = Ok (false, r', []) ∧
        e = EntryRemoved URL (urlValue p) 0 (block_timestamp env) (proposer p) ∧
        (∀ v, v ≠ urlValue p ->
           BlacklistRegistry.urlEntry r' v = BlacklistRegistry.urlEntry r v) ∧
        BlacklistRegistry.blacklistedAddresses r'
          = BlacklistRegistry.blacklistedAddresses r
    | RemoveAddress =>
        BlacklistRegistry.isAddressBlacklisted (addressValue p) r = Ok (true, r, []) ∧
        BlacklistRegistry.isAddressBlacklisted (addressValue p) r' = Ok (false, r', []) ∧
        e = EntryRemoved Address "" (addressValue p) (block_timestamp env) (proposer p) ∧
        (∀ a, a ≠ addressValue p ->
           BlacklistRegistry.addressEntry r' a = BlacklistRegistry.addressEntry r a) ∧
        BlacklistRegistry.blacklistedURLs r' = BlacklistRegistry.blacklistedURLs r
    end.
Proof.
  intros H p target.
  apply executeApprovedProposal_registry in H as (r & r' & revs & Hr & Hop & -> & ->).
  fold p in Hop |- *. unfold registry_operation in Hop.
  exists r, r'.
  unfold BlacklistRegistry.isURLBlacklisted, BlacklistRegistry.isAddressBlacklisted,
    BlacklistRegistry.getURLDetails, BlacklistRegistry.getAddressDetails.
  destruct (proposalType p) eqn:Ht; rinv Hop; simpl in *;
    eexists; (split_and!; try done; try (simpl; congruence)); munfold; cbn.
  - by match goal with H : _ = false |- _ => rewrite H end.
  - unfold BlacklistRegistry.urlEntry. simpl. by rewrite lookup_insert_eq.
  - intros v Hv. unfold BlacklistRegistry.urlEntry. simpl.
    by rewrite lookup_insert_ne.
  - by match goal with H : _ = false |- _ => rewrite H end.
  - unfold BlacklistRegistry.addressEntry. simpl. by rewrite lookup_insert_eq.
  - intros a Ha. unfold BlacklistRegistry.addressEntry. simpl.
    by rewrite lookup_insert_ne.
  - by match goal with H : _ = true |- _ => rewrite H end.
  - unfold BlacklistRegistry.urlEntry. simpl. by rewrite lookup_delete_eq.
  - intros v Hv. unfold BlacklistRegistry.urlEntry. simpl.
    by rewrite lookup_delete_ne.
  - by match goal with H : _ = true |- _ => rewrite H end.
  - unfold BlacklistRegistry.addressEntry. simpl. by rewrite lookup_delete_eq.
  - intros a Ha. unfold BlacklistRegistry.addressEntry. simpl.
    by rewrite lookup_delete_ne.
Qed.

Lemma execution_applies_the_proposal_witness :
  ∃ r',
    registries Scenario.executed
    = <[blacklistRegistry (pv Scenario.resolved) := r']> (registries Scenario.resolved) ∧
    BlacklistRegistry.proposalVotingContract r' = this Scenario.resolved.
Proof.
  destruct (execution_applies_the_proposal (Scenario.at_ Scenario.alice 5100) 1
              Scenario.resolved Scenario.executed tt
              [EntryAdded URL "https://scam.example" 0 5100 Scenario.bob;
               ProposalExecuted 1 AddURL "https://scam.example" 0 Scenario.alice;
               ProposalStatusUpdated 1 Approved Executed])
    as (r & r' & e & _ & Hregs & _ & Hpvc & _).
  - vm_compute. reflexivity.
  - exists r'. split; [exact Hregs|exact Hpvc].
Defined.

Lemma direct_registry_world env target c w u w1 evs :
  direct_registry env target c w = Ok (u, w1, evs) ->
  ∃ r r', registries w !! target = Some r ∧
          registry_entry env c r = Ok (tt, r', evs) ∧
          w1 = set_registries (insert target r') w.
Proof.
  unfold direct_registry. intros H.
  destruct (registries w !! target) as [r|]; [|done].
  destruct (registry_entry env c r) as [[[[] r'] evs']|] eqn:Hc; [|done].
  injection H as <- <- <-. by exists r, r'.
Qed.

Lemma token_activity_world token balances w u w1 evs :
  token_activity token balances w = Ok (u, w1, evs) ->
  w1 = set_tokens (insert token balances) w ∧ evs = [].
Proof.
  unfold token_activity. intros H.
  destruct (tokens w !! token); [|done]. by injection H as <- <-.
Qed.

(** X15. What a transaction can reach.  The address of the voting contract
    never changes; only [executeApprovedProposal] and direct calls of a
    registry change a registry, and they change only the registry they call;
    in particular [createProposal], [vote] and [endProposalAndExecute] (which,
    despite its name, executes nothing) leave every blacklist as it is.  No
    call of the voting contract or of a registry changes a token balance. *)
Theorem only_execution_reaches_the_registry (env : Env) (c : Call) (w : World) :
  let w1 := transact env c w in
  this w1 = this w ∧
  match c with
  | ExecuteApprovedProposal _ =>
      ∀ a, a ≠ blacklistRegistry (pv w) -> registries w1 !! a = registries w !! a
  | Registry target _ =>
      pv w1 = pv w ∧ ∀ a, a ≠ target -> registries w1 !! a = registries w !! a
  | TokenActivity token _ =>
      pv w1 = pv w ∧ registries w1 = registries w ∧
      ∀ a, a ≠ token -> tokens w1 !! a = tokens w !! a
  | _ => registries w1 = registries w
  end ∧
  match c with
  | TokenActivity _ _ => True
  | _ => tokens w1 = tokens w
  end.
Proof.
  intros w1. subst w1.
  destruct (transact_cases env c w) as [->|(r & evs & Hex)];
    [by destruct c|].
  apply exec_inv in Hex as (x & Hex). destruct c.
  - destruct Hex as (Hex & _).
    by apply createProposal_inv in Hex as (_ & _ & -> & _).
  - by apply vote_inv in Hex as (_ & _ & _ & _ & _ & -> & _).
  - by apply endProposalAndExecute_inv in Hex as (_ & _ & _ & -> & _).
  - apply executeApprovedProposal_registry in Hex as (? & ? & ? & _ & _ & -> & _).
    split_and!; try done. intros a Ha. unfold put_proposal. simpl.
    by rewrite lookup_insert_ne.
  - by apply updateBlacklistRegistry_inv in Hex as (_ & ->).
  - by apply updateVotingParameters_inv in Hex as (_ & ->).
  - by apply updateMinProposerTokenHoldings_inv in Hex as (_ & ->).
  - by apply transferOwnership_inv in Hex as (_ & ->).
  - apply direct_registry_world in Hex as (? & ? & _ & _ & ->).
    split_and!; try done. intros a Ha. simpl. by rewrite lookup_insert_ne.
  - apply token_activity_world in Hex as (-> & _).
    split_and!; try done. intros a Ha. simpl. by rewrite lookup_insert_ne.
Qed.

(** ** The owner of the voting contract *)

Lemma not_owner_fails env c w :
  owner_only c -> msg_sender env ≠ owner (pv w) ->
  exec env c w = Fail (Revert "Only owner can call this function").
Proof.
  intros Hc Hs. destruct c; try done; simpl;
    unfold executeApprovedProposal, updateBlacklistRegistry, updateVotingParameters,
      updateMinProposerTokenHoldings, transferOwnership, onlyOwner;
    munfold; cbn; by rewrite decide_False.
Qed.

(** X16. The calls reserved to the owner ([executeApprovedProposal], the
    three updates of parameters and [transferOwnership]) fail for every other
    caller, whatever their arguments, and succeed for the owner only.  When
    the owner hands the ownership over, the new owner is not the zero address
    and not the previous owner, who can make none of these calls any more;
    proposals, parameters and registries are untouched. *)
Theorem owner_calls_are_reserved (env : Env) (c : Call) (w : World) :
  owner_only c ->
  (msg_sender env ≠ owner (pv w) ->
     exec env c w = Fail (Revert "Only owner can call this function")) ∧
  (is_ok (exec env c w) = true -> msg_sender env = owner (pv w)) ∧
  (∀ a u w1 evs,
     transferOwnership env a w = Ok (u, w1, evs) ->
     owner (pv w1) = a ∧ a ≠ 0 ∧ a ≠ msg_sender env ∧
     w1 = set_pv (set_owner a) w ∧
     ∀ env', msg_sender env' = msg_sender env ->
       exec env' c w1 = Fail (Revert "Only owner can call this function")).
Proof.
  intros Hc. split_and!.
  - by apply not_owner_fails.
  - intros Hok. destruct (decide (msg_sender env = owner (pv w))) as [|Hne]; [done|].
    by rewrite (not_owner_fails env c w Hc Hne) in Hok.
  - intros a u w1 evs H.
    pose proof H as Hg.
    assert (exec env (TransferOwnership a) w = Ok (None, w1, evs ++ [])) as Hex.
    { simpl. munfold. by rewrite H. }
    apply exec_guards in Hex as ((Hs & Hz & Hne) & _).
    apply transferOwnership_inv in H as (_ & ->).
    split_and!; try done; [congruence|].
    intros env' Hs'. apply not_owner_fails; [done|]. simpl. congruence.
Qed.

Lemma owner_calls_are_reserved_witness :
  exec (Scenario.at_ Scenario.bob 5100) (ExecuteApprovedProposal 1) Scenario.resolved
  = Fail (Revert "Only owner can call this function").
Proof.
  destruct (owner_calls_are_reserved (Scenario.at_ Scenario.bob 5100)
              (ExecuteApprovedProposal 1) Scenario.resolved I) as (H & _).
  apply H. vm_compute. done.
Defined.

Lemma only_execution_reaches_the_registry_witness :
  registries Scenario.resolved = registries Scenario.voted_once ∧
  tokens Scenario.resolved = tokens Scenario.voted_once.
Proof.
  destruct (only_execution_reaches_the_registry (Scenario.at_ Scenario.carol 5000)
              (EndProposalAndExecute 1) Scenario.voted_once) as (_ & Hr & Ht).
  split; [exact Hr|exact Ht].
Defined.

(** ** The mirror of the proposals *)

Section UniqueKey.
Context {D K : Type} (key : D -> K) (filter : D -> bool) (k : K).
Hypothesis filter_key : ∀ d, filter d = true ↔ key d = k.

Lemma updateFirst_absent (update : D -> D) (c : list D) :
  k ∉ key <$> c -> updateFirst filter update c = None.
Proof.
  induction c as [|x c IH]; [done|].
  rewrite fmap_cons, not_elem_of_cons. intros [Hx Hc]. simpl.
  destruct (filter x) eqn:Hf; [by apply filter_key in Hf|].
  by rewrite IH.
Qed.

Lemma update_others (update : D -> D) (c : list D) :
  k ∉ key <$> c -> (fun d => if filter d then update d else d) <$> c = c.
Proof.
  induction c as [|x c IH]; [done|].
  rewrite !fmap_cons, not_elem_of_cons. intros [Hx Hc].
  destruct (filter x) eqn:Hf; [by apply filter_key in Hf|].
  by rewrite IH.
Qed.

Lemma updateFirst_present (update : D -> D) (c : list D) :
  NoDup (key <$> c) -> k ∈ key <$> c ->
  updateFirst filter update c
  = Some ((fun d => if filter d then update d else d) <$> c).
Proof.
  induction c as [|x c IH]; [by intros _ ?%elem_of_nil|].
  rewrite !fmap_cons, NoDup_cons, elem_of_cons. intros [Hx Hc] Hk. simpl.
  destruct (filter x) eqn:Hf.
  - apply filter_key in Hf. rewrite Hf in Hx. by rewrite update_others.
  - destruct Hk as [Hk|Hk]; [symmetry in Hk; apply filter_key in Hk; congruence|].
    by rewrite IH.
Qed.

(** With a filter on a unique key, [findOneAndUpdate] rewrites the document
    that has the key, or inserts one when there is none. *)
Lemma findOneAndUpdate_unique `{EqDecision K} (update : D -> D) (upsert : option D)
    (c : list D) :
  NoDup (key <$> c) ->
  findOneAndUpdate filter update upsert c
  = if decide (k ∈ key <$> c)
    then (fun d => if filter d then update d else d) <$> c
    else match upsert with Some d => c ++ [d] | None => c end.
Proof.
  intros Hnd. unfold findOneAndUpdate. case_decide.
  - by rewrite updateFirst_present.
  - by rewrite updateFirst_absent.
Qed.

Lemma update_keeps_keys (update : D -> D) (c : list D) :
  (∀ d, key d = k -> key (update d) = k) ->
  key <$> ((fun d => if filter d then update d else d) <$> c) = key <$> c.
Proof.
  intros Hkey. rewrite <- list_fmap_compose. apply list_fmap_ext.
  intros _ d _. simpl. destruct (filter d) eqn:Hf; [|done].
  apply filter_key in Hf. by rewrite Hf, Hkey.
Qed.

Lemma findOneAndUpdate_keeps_unique `{EqDecision K} (update : D -> D)
    (upsert : option D) (c : list D) :
  (∀ d, key d = k -> key (update d) = k) ->
  (∀ d, upsert = Some d -> key d = k) ->
  NoDup (key <$> c) ->
  NoDup (key <$> findOneAndUpdate filter update upsert c).
Proof.
  intros Hkey Hins Hnd. rewrite findOneAndUpdate_unique by done. case_decide.
  - by rewrite update_keeps_keys.
  - destruct upsert as [d|]; [|done].
    rewrite fmap_app. simpl. rewrite (Hins d eq_refl).
    apply NoDup_app. split_and!; [done| |apply NoDup_singleton].
    intros y Hy ->%list_elem_of_singleton. done.
Qed.

End UniqueKey.

Lemma proposal_filter_key i d : (p_proposalId d =? i) = true ↔ p_proposalId d = i.
Proof. apply Z.eqb_eq. Qed.

Lemma existing_ids_next s :
  1 <= nextProposalId s ->
  existing_ids (set_nextProposalId (nextProposalId s + 1) s)
  = existing_ids s ++ [nextProposalId s].
Proof.
  intros Hn. unfold existing_ids. simpl.
  replace (nextProposalId s + 1 - 1) with ((nextProposalId s - 1) + 1) by lia.
  rewrite seqZ_app by lia. f_equal.
  replace (1 + (nextProposalId s - 1)) with (nextProposalId s) by lia.
  by rewrite seqZ_cons, seqZ_nil by lia.
Qed.


Section FindAfterUpdate.
Context {D : Type} (filter query : D -> bool).

Lemma find_upserted (update : D -> D) (d0 : D) (c : list D) :
  (∀ d, query d = true -> filter d = true) ->
  (∀ d, filter d = true -> query (update d) = true) ->
  query d0 = true ->
  ∃ e, find query (findOneAndUpdate filter update (Some d0) c) = Some e ∧
       (e = d0 ∨ ∃ d, e = update d).
Proof.
  intros Hq Hu H0. unfold findOneAndUpdate.
  induction c as [|x c IH]; simpl.
  - rewrite H0. eauto.
  - destruct (filter x) eqn:Hf; simpl.
    + rewrite (Hu x Hf). eauto.
    + assert (query x = false) as Hx.
      { destruct (query x) eqn:Hx; [|done]. apply Hq in Hx. congruence. }
      destruct (updateFirst filter update c) as [c'|]; simpl; by rewrite Hx.
Qed.

Lemma find_none_all (c : list D) :
  (∀ d, d ∈ c -> query d = false) -> find query c = None.
Proof.
  induction c as [|x c IH]; intros Hall; simpl; [done|].
  rewrite (Hall x) by apply list_elem_of_here.
  apply IH. intros d Hd. apply Hall. by apply list_elem_of_further.
Qed.

Lemma find_other (update : D -> D) (upsert : option D) (c : list D) :
  (∀ d, filter d = true -> query d = false ∧ query (update d) = false) ->
  (∀ d, upsert = Some d -> query d = false) ->
  find query (findOneAndUpdate filter update upsert c) = find query c.
Proof.
  intros Hu H0. unfold findOneAndUpdate.
  induction c as [|x c IH]; simpl.
  - destruct upsert as [d|]; [|done]. simpl. by rewrite (H0 d).
  - destruct (filter x) eqn:Hf; simpl.
    + destruct (Hu x Hf) as [-> ->]. done.
    + destruct (updateFirst filter update c) as [c'|]; simpl in *.
      * by destruct (query x).
      * destruct upsert as [d|]; simpl in *; by destruct (query x).
Qed.


End FindAfterUpdate.











Global Arguments toNumber : simpl never.



Section WritesOfProposals.
Variable addressString : Z -> string.


(** A handler is the sequence of its writes. *)
Lemma handle_is_writes d db :
  handle addressString (d_runtime d) (d_event d) (d_blockNumber d) db
  = write addressString d Proposals
      (write addressString d Votes (write addressString d Entries db)).
Proof. destruct d as [rt e bn], db as [es ps vs]. by destruct e. Qed.

Lemma settle_in_order ds : ∀ db,
  settle addressString (in_order ds) db = replay addressString ds db.
Proof.
  induction ds as [|d ds IH]; intros db; [done|].
  change (settle addressString (in_order (d :: ds)) db)
    with (settle addressString (in_order ds)
            (write addressString d Proposals
               (write addressString d Votes (write addressString d Entries db)))).
  by rewrite IH, <- handle_is_writes.
Qed.

Lemma proposal_writes_cons i d c schedule :
  proposal_writes i ((d, c) :: schedule)
  = if match c with Proposals => about i (d_event d) | _ => false end
    then d :: proposal_writes i schedule else proposal_writes i schedule.
Proof.
  unfold proposal_writes. simpl. destruct c; try done.
  by destruct (about i (d_event d)).
Qed.

Lemma proposal_writes_in_order i ds :
  proposal_writes i (in_order ds) = List.filter (fun d => about i (d_event d)) ds.
Proof.
  induction ds as [|d ds IH]; [done|].
  change (in_order (d :: ds))
    with ((d, Entries) :: (d, Votes) :: (d, Proposals) :: in_order ds).
  rewrite !proposal_writes_cons, IH. simpl. by destruct (about i (d_event d)).
Qed.















End WritesOfProposals.

(** When two writes to the tallies of one document land in the other order,
    the earlier tallies stay: after two votes the contract counts two voters
    and the mirror one. *)
Example late_tally_write_is_kept :
  let w := (run_log two_votes Scenario.deployed).1 in
  let db := settle hexAddress second_vote_first emptyMirror in
  (yesVotes (proposal w 1), noVotes (proposal w 1), totalVoters (proposal w 1))
  = (2, 0, 2) ∧
  ∃ d, ReadApi.getProposalById (Some 1) db = ReadApi.Status200 d ∧
       (p_yesVotes d, p_noVotes d, p_totalVoters d) = (1, 0, 1).
Proof. split; [vm_compute; reflexivity|]. eexists. split; vm_compute; reflexivity. Qed.



(** ** The unique indexes of the mirror *)

Lemma entry_filter_key value d : String.eqb (be_value d) value = true ↔ be_value d = value.
Proof. apply String.eqb_eq. Qed.

Lemma vote_filter_key i voter d :
  (v_proposalId d =? i) && String.eqb (v_voter d) voter = true
  ↔ (v_proposalId d, v_voter d) = (i, voter).
Proof.
  rewrite andb_true_iff, Z.eqb_eq, String.eqb_eq. split; [by intros [-> ->]|].
  by intros [= -> ->].
Qed.

Lemma findOneAndUpdate_keys_grow {D K} `{EqDecision K} (key : D -> K)
    (filter : D -> bool) (k : K) (update : D -> D) (upsert : option D) (c : list D) :
  (∀ d, filter d = true ↔ key d = k) ->
  (∀ d, key d = k -> key (update d) = k) ->
  NoDup (key <$> c) ->
  (key <$> c) `prefix_of` (key <$> findOneAndUpdate filter update upsert c).
Proof.
  intros Hf Hkey Hnd. rewrite (findOneAndUpdate_unique key filter k Hf) by done.
  case_decide.
  - by rewrite (update_keeps_keys key filter k Hf).
  - destruct upsert as [d|]; [|done]. rewrite fmap_app. by eexists.
Qed.

(** X18. The handlers respect the unique indexes of the three schemas
    (the value of a blacklist entry, the identifier of a proposal, the pair
    of proposal and voter of a vote): when the keys of the mirror are unique
    they are unique after any event was handled, so no write of a handler
    meets a duplicate key; and a handler never deletes or reorders documents,
    the keys before are a prefix of the keys after. *)
Theorem handlers_keep_keys_unique (addressString : Z -> string) (rt : Runtime)
    (e : Event) (blockNumber : option Z) (db : Mirror) :
  unique_keys db ->
  let db' := handle addressString rt e blockNumber db in
  unique_keys db' ∧
  entryKeys db `prefix_of` entryKeys db' ∧
  proposalKeys db `prefix_of` proposalKeys db' ∧
  voteKeys db `prefix_of` voteKeys db'.
Proof.
  intros (He & Hp & Hv) db'. subst db'.
  unfold unique_keys, entryKeys, proposalKeys, voteKeys in *.
  destruct e; simpl; try (by split_and!); split_and!; try done;
    first
      [ eapply (findOneAndUpdate_keeps_unique be_value)
      | eapply (findOneAndUpdate_keys_grow be_value)
      | eapply (findOneAndUpdate_keeps_unique p_proposalId)
      | eapply (findOneAndUpdate_keys_grow p_proposalId)
      | eapply (findOneAndUpdate_keeps_unique (fun d => (v_proposalId d, v_voter d)))
      | eapply (findOneAndUpdate_keys_grow (fun d => (v_proposalId d, v_voter d))) ];
    first
      [ apply entry_filter_key | apply proposal_filter_key | apply vote_filter_key
      | apply _ | done | by intros ? [= <-] ].
Qed.

Lemma handlers_keep_keys_unique_witness :
  unique_keys
    (handle hexAddress firstDelivery
       (EntryAdded URL "https://scam.example" 0 5100 Scenario.bob) None emptyMirror).
Proof.
  apply (handlers_keep_keys_unique hexAddress firstDelivery
           (EntryAdded URL "https://scam.example" 0 5100 Scenario.bob) None emptyMirror).
  unfold unique_keys. vm_compute. split_and!; apply NoDup_nil_2.
Defined.

(** ** The blacklist check over the mirror *)

Lemma find_deactivated {D K} `{EqDecision K} (key : D -> K) (filter query : D -> bool)
    (k : K) (update : D -> D) (c : list D) :
  (∀ d, filter d = true ↔ key d = k) ->
  (∀ d, query d = true -> filter d = true) ->
  (∀ d, query (update d) = false) ->
  NoDup (key <$> c) ->
  find query (findOneAndUpdate filter update None c) = None.
Proof.
  intros Hf Hq Hu Hnd. rewrite (findOneAndUpdate_unique key filter k Hf) by done.
  assert (∀ d, filter d = false -> query d = false) as Hno.
  { intros d Hd. destruct (query d) eqn:Hx; [|done]. apply Hq in Hx. congruence. }
  apply find_none_all. case_decide as Hk.
  - intros d' (d & -> & Hd)%list_elem_of_fmap. destruct (filter d) eqn:Hfd; auto.
  - intros d Hd. apply Hno. destruct (filter d) eqn:Hfd; [|done].
    apply Hf in Hfd. destruct Hk. apply list_elem_of_fmap. eauto.
Qed.

(** X19. [GET /api/blacklist/check] after a registry event.  In a mirror
    with unique values, once [EntryAdded] was handled the check of the value
    of the event answers that it is blacklisted, with an entry that carries
    the value, the proposer and the date of the event; once [EntryRemoved]
    was handled it answers that the value is not blacklisted; and neither
    handler changes the answer for any other value.  (The value is the URL
    for an entry of type URL, the address as a string for one of type
    Address.) *)
Theorem blacklist_check_follows_the_events (addressString : Z -> string) (rt : Runtime)
    (blockNumber : option Z) (db : Mirror) (t : EntryType) (_value : string)
    (_address _timestamp _proposer : Z) :
  let value := eventValue addressString t _value _address in
  let added :=
    handle addressString rt (EntryAdded t _value _address _timestamp _proposer)
      blockNumber db in
  let removed :=
    handle addressString rt (EntryRemoved t _value _address _timestamp _proposer)
      blockNumber db in
  value ≠ "" -> NoDup (entryKeys db) ->
  (∃ e, checkQuery t value added = ReadApi.Status200 (ReadApi.IsBlacklisted e) ∧
        be_value e = value ∧ be_isActive e = true ∧
        be_proposer e = addressString _proposer ∧
        be_timestamp e = toDate rt (Some _timestamp)) ∧
  checkQuery t value removed = ReadApi.Status200 ReadApi.NotBlacklisted ∧
  ∀ t' value', value' ≠ value ->
    checkQuery t' value' added = checkQuery t' value' db ∧
    checkQuery t' value' removed = checkQuery t' value' db.
Proof.
  intros value added removed Hv Hnd. subst value added removed.
  unfold entryKeys in Hnd. pose proof Hv as Hv'. apply String.eqb_neq in Hv'.
  split_and!.
  - unfold checkQuery, ReadApi.blacklistCheck, ReadApi.findOne, ReadApi.truthy.
    destruct t; simpl in *; rewrite Hv';
      match goal with
      | |- context [find ?q (findOneAndUpdate ?f ?u (Some ?d0) ?c)] =>
          destruct (find_upserted f q u d0 c) as (e & -> & He)
      end;
      try (intros d; rewrite !andb_true_iff; tauto);
      try (intros d _; simpl; by rewrite String.eqb_refl);
      try (simpl; by rewrite String.eqb_refl);
      (exists e; split; [done|]; by destruct He as [->|[d ->]]).
  - unfold checkQuery, ReadApi.blacklistCheck, ReadApi.findOne, ReadApi.truthy.
    destruct t; simpl in *; rewrite Hv';
      match goal with
      | |- context [find ?q (findOneAndUpdate ?f ?u None ?c)] =>
          rewrite (find_deactivated be_value f q _ u c (entry_filter_key _))
      end; try done;
      try (intros d; rewrite !andb_true_iff; tauto);
      try (intros d; simpl; by rewrite andb_false_r).
  - intros t' value' Hne.
    unfold checkQuery, ReadApi.blacklistCheck, ReadApi.findOne, ReadApi.truthy.
    assert (∀ v : string, value' ≠ v -> String.eqb v value' = false) as Hneq.
    { intros v Hd. apply String.eqb_neq. congruence. }
    destruct t, t'; simpl in *; destruct (String.eqb value' ""); try done;
      rewrite !find_other; try done;
      first
        [ by (intros d [= <-]; simpl; rewrite ?Hneq by done; rewrite ?andb_false_r)
        | (intros d Hd%String.eqb_eq; simpl; rewrite ?Hd, ?Hneq by done;
           by rewrite ?andb_false_r) ].
Qed.

Lemma blacklist_check_follows_the_events_witness :
  checkQuery URL "https://scam.example"
    (handle hexAddress secondDelivery
       (EntryRemoved URL "https://scam.example" 0 8000 Scenario.alice) None
       (handle hexAddress firstDelivery
          (EntryAdded URL "https://scam.example" 0 5100 Scenario.bob) None emptyMirror))
  = ReadApi.Status200 ReadApi.NotBlacklisted.
Proof.
  destruct (blacklist_check_follows_the_events hexAddress secondDelivery None
              (handle hexAddress firstDelivery
                 (EntryAdded URL "https://scam.example" 0 5100 Scenario.bob) None
                 emptyMirror)
              URL "https://scam.example" 0 8000 Scenario.alice) as (_ & H & _).
  - done.
  - vm_compute. apply NoDup_singleton.
  - exact H.
Defined.

(** ** The duration the form sends *)

Lemma bind_ext_ok {S A B} (c : M S A) (k1 k2 : A -> M S B) (s : S) :
  (∀ a s1 ev, c s = Ok (a, s1, ev) -> k1 a s1 = k2 a s1) ->
  bind c k1 s = bind c k2 s.
Proof.
  intros H. unfold bind. destruct (c s) as [[[a s1] ev]|] eqn:Hc; [|done].
  by rewrite (H a s1 ev).
Qed.

Lemma require_pass {S B} (P : Prop) `{Decision P} reason (k : unit -> M S B) (s : S) :
  P -> bind (require P reason) k s = k tt s.
Proof.
  intros HP. unfold bind, require. rewrite decide_True by done.
  unfold ret. destruct (k tt s) as [[[b s2] ev]|]; done.
Qed.

(** The contract clamps the duration itself: two durations with the same
    clamped value give the same call. *)
Lemma createProposal_duration env t u a d n m w :
  0 < n -> 0 < m ->
  (if decide (n < minVotingPeriod (pv w)) then minVotingPeriod (pv w) else n)
  = (if decide (m < minVotingPeriod (pv w)) then minVotingPeriod (pv w) else m) ->
  createProposal env t u a d n w = createProposal env t u a d m w.
Proof.
  intros Hn Hm Hclamp. unfold createProposal.
  apply bind_ext_ok. intros _ s1 ev1 (_ & -> & _)%require_inv.
  rewrite !require_pass by done.
  apply bind_ext_ok. intros s0 w' ev (-> & -> & _)%storage_inv.
  do 4 (apply bind_ext_ok; intros ? ? ? _).
  by rewrite Hclamp.
Qed.

(** The form keeps the minimum it read: when the owner changes the minimum
    afterwards, the period the contract stores is no longer the duration the
    form sent (minimum raised from 3600 to 7200), or no longer the one the
    chosen duration would give (minimum lowered to 30, one minute chosen). *)
Example stale_minimum_changes_the_outcome :
  let raised :=
    transact (Scenario.at_ Scenario.alice 1050) (UpdateVotingParameters 7200 1 51)
      Scenario.deployed in
  let lowered :=
    transact (Scenario.at_ Scenario.alice 1050) (UpdateVotingParameters 30 1 51)
      Scenario.deployed in
  let propose n w :=
    transact (Scenario.at_ Scenario.bob 1100)
      (CreateProposal AddURL "https://scam.example" 0 "phishing site" n) w in
  CreateProposalPage.submittedDuration (Some (minVotingPeriod (pv Scenario.deployed)))
    (Some 1) "minutes" = Some 3600 ∧
  votingPeriodEnd (proposal (propose 3600 raised) 1) = 1100 + 7200 ∧
  votingPeriodEnd (proposal (propose 3600 lowered) 1) = 1100 + 3600 ∧
  votingPeriodEnd (proposal (propose 60 lowered) 1) = 1100 + 60.
Proof. split_and!; vm_compute; reflexivity. Qed.

(** X20. The duration of the form against the contract.  The form reads
    the minimum voting period once and keeps it ([staleTime: Infinity]): the
    minimum it knows is that of some earlier state of the contract, while
    the owner may have changed the minimum since.  When the form accepts a
    duration (a positive number of minutes, hours or days), the duration it
    sends is the larger of the chosen duration and the minimum it knows; the
    contract applies its current minimum to what it receives, so the stored
    voting period ends the larger of the sent duration and the current
    minimum after the block of creation.  That is exactly the sent duration
    when the current minimum is not above the known one (in particular when
    the minimum was not changed), and sending gives the same outcome as
    sending the chosen duration would when the known minimum is at most the
    larger of the chosen duration and the current minimum.  While the
    minimum is not loaded the form sends the chosen duration as it is.
    (Durations and minimum within the range where JavaScript numbers are
    exact.) *)
Theorem form_duration_and_contract_duration (w0 w : World) (numValue : option Z)
    (unit : string) (sent : Z) :
  reachable w0 -> reachable w ->
  let known := minVotingPeriod (pv w0) in
  let current := minVotingPeriod (pv w) in
  known <= CreateProposalPage.MAX_SAFE_INTEGER ->
  sent <= CreateProposalPage.MAX_SAFE_INTEGER ->
  let user := CreateProposalPage.convertToSeconds numValue unit in
  (CreateProposalPage.submittedDuration (Some known) numValue unit = Some sent ->
     sent = Z.max user known ∧
     (∃ n, numValue = Some n ∧ 0 < n ∧
           (user = n * 60 ∨ user = n * 3600 ∨ user = n * 86400)) ∧
     ∀ env t u a d,
       (∀ i w1 evs, createProposal env t u a d sent w = Ok (i, w1, evs) ->
          votingPeriodEnd (proposal w1 i) = block_timestamp env + Z.max sent current) ∧
       (current <= known ->
          ∀ i w1 evs, createProposal env t u a d sent w = Ok (i, w1, evs) ->
            votingPeriodEnd (proposal w1 i) = block_timestamp env + sent) ∧
       (known <= Z.max user current ->
          createProposal env t u a d sent w = createProposal env t u a d user w)) ∧
  (CreateProposalPage.submittedDuration None numValue unit = Some sent ->
     sent = user ∧ 0 < user ∧
     ∀ env t u a d i w1 evs,
       createProposal env t u a d sent w = Ok (i, w1, evs) ->
       votingPeriodEnd (proposal w1 i) = block_timestamp env + Z.max sent current).
Proof.
  intros Hr0 Hr known current _ _ user.
  destruct (reachable_well_formed w0 Hr0) as (_ & Hmin0 & _).
  destruct (reachable_well_formed w Hr) as (_ & Hmin & _).
  fold known in Hmin0. fold current in Hmin.
  unfold CreateProposalPage.submittedDuration, CreateProposalPage.effectiveVotingDuration.
  fold user.
  assert (0 < user ->
          ∃ n, numValue = Some n ∧ 0 < n ∧
               (user = n * 60 ∨ user = n * 3600 ∨ user = n * 86400)) as Hunits.
  { subst user. unfold CreateProposalPage.convertToSeconds.
    destruct numValue as [n|]; [|lia]. case_decide; [lia|].
    intros Hpos. exists n. split; [done|]. split; [lia|].
    repeat (case_match; try lia). }
  assert (∀ env t u a d n i w1 evs,
            createProposal env t u a d n w = Ok (i, w1, evs) ->
            votingPeriodEnd (proposal w1 i)
            = block_timestamp env + Z.max n current) as Hend.
  { intros env t u a d n i w1 evs H.
    apply createProposal_inv in H as (-> & _ & -> & _).
    rewrite proposal_put_eq. simpl. fold current. case_decide; lia. }
  split.
  - case_decide as Huser; [done|]. intros [= <-].
    assert ((if decide (known ≠ 0 ∧ user < known) then known else user)
            = Z.max user known) as -> by (case_decide; lia).
    split_and!; [done|apply Hunits; lia|].
    intros env t u a d. split_and!.
    + intros i w1 evs H. by apply Hend in H.
    + intros Hle i w1 evs H. rewrite (Hend _ _ _ _ _ _ _ _ _ H). lia.
    + intros Hle. apply createProposal_duration; [lia|lia|].
      fold current. repeat case_decide; lia.
  - case_decide as Huser; [done|]. intros [= <-]. split_and!; [done|lia|].
    intros env t u a d i w1 evs H. by apply Hend in H.
Qed.

Lemma form_duration_and_contract_duration_witness :
  createProposal (Scenario.at_ Scenario.bob 1100) AddURL "https://scam.example" 0
    "phishing site" 3600
    (transact (Scenario.at_ Scenario.alice 1050) (UpdateVotingParameters 7200 1 51)
       Scenario.deployed)
  = createProposal (Scenario.at_ Scenario.bob 1100) AddURL "https://scam.example" 0
      "phishing site" (CreateProposalPage.convertToSeconds (Some 1) "minutes")
      (transact (Scenario.at_ Scenario.alice 1050) (UpdateVotingParameters 7200 1 51)
         Scenario.deployed).
Proof.
  destruct (form_duration_and_contract_duration Scenario.deployed
              (transact (Scenario.at_ Scenario.alice 1050)
                 (UpdateVotingParameters 7200 1 51) Scenario.deployed)
              (Some 1) "minutes" 3600 scenario_deployed_reachable) as (H & _).
  - apply reachable_transact;
      [exact scenario_deployed_reachable
      |apply scenario_wf_env; unfold Scenario.alice; lia
      |unfold wf_call, is_uint256, MAX_UINT256; lia].
  - vm_compute. discriminate.
  - vm_compute. discriminate.
  - destruct H as (_ & _ & H); [vm_compute; reflexivity|].
    destruct (H (Scenario.at_ Scenario.bob 1100) AddURL "https://scam.example" 0
                "phishing site") as (_ & _ & Heq).
    apply Heq. vm_compute. discriminate.
Defined.

(** ** The mirror of the votes *)






Section VotesFollow.
Variable addressString : Z -> string.
Hypothesis addressString_inj :
  ∀ a b, is_address a -> is_address b -> addressString a = addressString b -> a = b.












End VotesFollow.








(** ** The faucet *)

Lemma lastClaim_greatest userAddress db :
  match Faucet.lastClaim userAddress db with
  | Some l =>
      l ∈ db ∧ Faucet.fc_userAddress l = userAddress ∧
      ∀ d, d ∈ db -> Faucet.fc_userAddress d = userAddress ->
           Faucet.fc_timestamp d <= Faucet.fc_timestamp l
  | None => ∀ d, d ∈ db -> Faucet.fc_userAddress d ≠ userAddress
  end.
Proof.
  induction db as [|x db IH]; simpl.
  - intros d Hd. by apply elem_of_nil in Hd.
  - destruct (String.eqb_spec (Faucet.fc_userAddress x) userAddress) as [Hx|Hx].
    + destruct (Faucet.lastClaim userAddress db) as [l|].
      * destruct IH as (Hl & Hu & Hmax). case_decide.
        -- split_and!; [by apply list_elem_of_further|done|].
           intros d [->|Hd]%elem_of_cons Hd'; [lia|by apply Hmax].
        -- split_and!; [by apply list_elem_of_here|done|].
           intros d [->|Hd]%elem_of_cons Hd'; [lia|].
           specialize (Hmax d Hd Hd'). lia.
      * split_and!; [by apply list_elem_of_here|done|].
        intros d [->|Hd]%elem_of_cons Hd'; [lia|]. by destruct (IH d Hd).
    + destruct (Faucet.lastClaim userAddress db) as [l|].
      * destruct IH as (Hl & Hu & Hmax).
        split_and!; [by apply list_elem_of_further|done|].
        intros d [->|Hd]%elem_of_cons Hd'; [done|by apply Hmax].
      * intros d [->|Hd]%elem_of_cons; [done|by apply IH].
Qed.

(** X22. The cooldown of the faucet.  With a configured number of hours,
    requests handled one after the other and a clock that does not run
    backwards, a claim is granted only if every logged claim of the same
    address (the same string) is at least the cooldown old, and a request for
    a valid address is refused with 429 exactly when some logged claim of the
    address is younger (once the faucet is initialised); so the
    logged claims of one address stay at least the cooldown apart.  Only a
    granted claim is logged; a refused or failed request leaves the
    collection as it is. *)
Theorem faucet_claims_are_spaced (hours : Z) (amount : string) (rq : Faucet.Request)
    (userAddress : option string) (db : list Faucet.FaucetClaimDoc) :
  let cooldown := hours * 60 * 60 * 1000 in
  Faucet.spaced cooldown db ->
  (∀ d, d ∈ db -> Faucet.fc_timestamp d <= Faucet.checkedAt rq) ->
  Faucet.checkedAt rq <= Faucet.loggedAt rq ->
  let response := (Faucet.claim (Some hours) amount rq userAddress db).1 in
  let db' := (Faucet.claim (Some hours) amount rq userAddress db).2 in
  Faucet.spaced cooldown db' ∧
  (∀ d, d ∈ db' -> Faucet.fc_timestamp d <= Faucet.loggedAt rq) ∧
  match response with
  | Faucet.Status200 txHash =>
      ∃ a, userAddress = Some a ∧ Faucet.isAddress rq a = true ∧
           Faucet.minted rq = Some txHash ∧
           db' = db ++ [{| Faucet.fc_userAddress := a; Faucet.fc_amount := amount;
                           Faucet.fc_txHash := txHash;
                           Faucet.fc_timestamp := Faucet.loggedAt rq |}] ∧
           ∀ d, d ∈ db -> Faucet.fc_userAddress d = a ->
                Faucet.fc_timestamp d + cooldown <= Faucet.checkedAt rq
  | Faucet.Status429 _ =>
      db' = db ∧
      ∃ a d, userAddress = Some a ∧ d ∈ db ∧ Faucet.fc_userAddress d = a ∧
             Faucet.checkedAt rq < Faucet.fc_timestamp d + cooldown
  | _ => db' = db
  end ∧
  (∀ a d, userAddress = Some a -> a ≠ "" -> Faucet.isAddress rq a = true ->
          Faucet.ready rq = true -> d ∈ db -> Faucet.fc_userAddress d = a ->
          Faucet.checkedAt rq < Faucet.fc_timestamp d + cooldown ->
          ∃ h, response = Faucet.Status429 h).
Proof.
  intros cooldown Hsp Hpast Hclock response db'. subst response db'.
  match goal with
  | |- ?A ∧ ?B ∧ ?C ∧ ?D =>
      assert D as Hconv; [|assert (A ∧ B ∧ C) as (HA & HB & HC); [|by split_and!]]
  end.
  { intros a d -> Hne%String.eqb_neq Hisa Hready Hd Hda Hyoung.
    unfold Faucet.claim. rewrite Hne, Hisa, Hready. simpl. fold cooldown.
    pose proof (lastClaim_greatest a db) as Hlast.
    destruct (Faucet.lastClaim a db) as [l|]; [|by destruct (Hlast d Hd)].
    destruct Hlast as (_ & _ & Hmax). specialize (Hmax d Hd Hda).
    rewrite decide_True by lia. simpl. eauto. }
  clear Hconv.
  assert (∀ d, d ∈ db -> Faucet.fc_timestamp d <= Faucet.loggedAt rq) as Hpast'.
  { intros d Hd. specialize (Hpast d Hd). lia. }
  unfold Faucet.claim.
  destruct userAddress as [a|]; [|by split_and!].
  destruct (String.eqb a "" || negb (Faucet.isAddress rq a)) eqn:Hvalid;
    [by split_and!|].
  apply orb_false_iff in Hvalid as (_ & Hvalid%negb_false_iff).
  destruct (negb (Faucet.ready rq)); [by split_and!|].
  pose proof (lastClaim_greatest a db) as Hlast. simpl.
  fold cooldown.
  assert (∀ txHash,
    (∀ d, d ∈ db -> Faucet.fc_userAddress d = a ->
          Faucet.fc_timestamp d + cooldown <= Faucet.checkedAt rq) ->
    Faucet.spaced cooldown
      (db ++ [{| Faucet.fc_userAddress := a; Faucet.fc_amount := amount;
                 Faucet.fc_txHash := txHash;
                 Faucet.fc_timestamp := Faucet.loggedAt rq |}])) as Hgrow.
  { intros txHash Hold i j d d' Hij Hi Hj Hsame.
    destruct (decide (j < length db)%nat) as [Hlt|Hge].
    - rewrite lookup_app_l in Hi, Hj by lia. exact (Hsp i j d d' Hij Hi Hj Hsame).
    - rewrite lookup_app_r in Hj by lia.
      destruct (j - length db)%nat as [|k] eqn:Hk; [|by destruct k].
      injection Hj as <-. simpl in *.
      rewrite lookup_app_l in Hi by lia.
      apply list_elem_of_lookup_2 in Hi. specialize (Hold d Hi Hsame). lia. }
  assert (∀ txHash d,
    d ∈ db ++ [{| Faucet.fc_userAddress := a; Faucet.fc_amount := amount;
                  Faucet.fc_txHash := txHash;
                  Faucet.fc_timestamp := Faucet.loggedAt rq |}] ->
    Faucet.fc_timestamp d <= Faucet.loggedAt rq) as Hpast''.
  { intros txHash d [Hd| ->%list_elem_of_singleton]%elem_of_app; [by apply Hpast'|].
    simpl. lia. }
  destruct (Faucet.lastClaim a db) as [l|].
  - destruct Hlast as (Hl & Hu & Hmax). case_decide as Hcool; simpl.
    + split_and!; try done. exists a, l. split_and!; try done. lia.
    + assert (∀ d, d ∈ db -> Faucet.fc_userAddress d = a ->
                   Faucet.fc_timestamp d + cooldown <= Faucet.checkedAt rq) as Hold.
      { intros d Hd Hd'. specialize (Hmax d Hd Hd'). lia. }
      destruct (Faucet.minted rq) as [txHash|]; [|by split_and!].
      destruct (existsb _ db); simpl; [by split_and!|].
      split_and!; eauto 10.
  - assert (∀ d, d ∈ db -> Faucet.fc_userAddress d = a ->
                 Faucet.fc_timestamp d + cooldown <= Faucet.checkedAt rq) as Hold.
    { intros d Hd Hd'. by destruct (Hlast d Hd). }
    destruct (Faucet.minted rq) as [txHash|]; [|by split_and!].
    destruct (existsb _ db); simpl; [by split_and!|].
    split_and!; eauto 10.
Qed.

Lemma faucet_claims_are_spaced_witness :
  ∃ h,
    (Faucet.claim (Some 48) "100000000000000000000"
       {| Faucet.isAddress := fun _ => true; Faucet.ready := true;
          Faucet.checkedAt := 1700003600000; Faucet.messageAt := 1700003600001;
          Faucet.minted := Some "0xbeef"; Faucet.loggedAt := 1700003605000 |}
       (Some (hexAddress Scenario.bob))
       [{| Faucet.fc_userAddress := hexAddress Scenario.bob;
           Faucet.fc_amount := "100000000000000000000";
           Faucet.fc_txHash := "0xcafe";
           Faucet.fc_timestamp := 1700000000000 |}]).1
    = Faucet.Status429 h.
Proof.
  destruct (faucet_claims_are_spaced 48 "100000000000000000000"
              {| Faucet.isAddress := fun _ => true; Faucet.ready := true;
                 Faucet.checkedAt := 1700003600000; Faucet.messageAt := 1700003600001;
                 Faucet.minted := Some "0xbeef"; Faucet.loggedAt := 1700003605000 |}
              (Some (hexAddress Scenario.bob))
              [{| Faucet.fc_userAddress := hexAddress Scenario.bob;
                  Faucet.fc_amount := "100000000000000000000";
                  Faucet.fc_txHash := "0xcafe";
                  Faucet.fc_timestamp := 1700000000000 |}]) as (_ & _ & _ & H).
  - intros i j d d' Hij Hi Hj. destruct j as [|j]; [lia|]. by destruct j.
  - intros d ->%list_elem_of_singleton. simpl. lia.
  - simpl. lia.
  - apply (H (hexAddress Scenario.bob)
             {| Faucet.fc_userAddress := hexAddress Scenario.bob;
                Faucet.fc_amount := "100000000000000000000";
                Faucet.fc_txHash := "0xcafe";
                Faucet.fc_timestamp := 1700000000000 |} eq_refl).
    + vm_compute. discriminate.
    + reflexivity.
    + reflexivity.
    + apply list_elem_of_here.
    + reflexivity.
    + simpl. lia.
Defined.
